(** * A scalar autograd engine and the GPT built on it (ml/gpt/gpt.ts)

    Shallow embedding of the TypeScript program.

    - A JavaScript [number] is read as a real number: [+], [*], [Math.exp],
      [Math.log], [Math.sqrt], [Math.max] are the operations of [R].  The
      results below are therefore statements about the program in exact
      real arithmetic; rounding, overflow, NaN and the infinities are
      outside the model.  Where the program would produce NaN from an
      [undefined] operand (a read past the end of an array), the model
      fails with [None], as it does where the program throws a TypeError.
    - A [Value] object is a cell of a store ([list Value]), and a reference
      to it is its index.  [new Value(..)] appends a cell; [backward]
      updates [grad] fields in place.  Object identity (the [visited] set,
      a node used twice as a child) is identity of indices.
    - The key and value caches are arrays that only [gpt] pushes on; they
      are passed to [gpt] and returned by it.
    - The training loop and the inference loop take the corpus, the numbers
      that [rand()] returns and the numbers that the parameters start with
      as inputs.  The Mulberry32 generator (on 32-bit integers, as [Z] with
      the wrap-around written out), the Gaussian draw, the shuffle and the
      splitting of the text into documents are modelled on their own, with
      the state of the generator passed along.  Reading the file is not
      modelled.  Characters are 8-bit codes. *)

From Stdlib Require Import Reals Lra Lia Ascii.
From stdpp Require Import base option list gmap strings pretty sorting.

(** * Part I: the program *)

(** ** The store of Value objects *)

Abbreviation Ref := nat (only parsing).

Record Value := mkValue {
  data : R;
  grad : R;
  children : list Ref;
  localGrads : list R
}.

Abbreviation Heap := (list Value).

(** Computations that allocate in the store and may fail. *)
Definition M (A : Type) : Type := Heap → option (A * Heap).

#[global] Instance M_ret : MRet M := λ A a h, Some (a, h).
#[global] Instance M_bind : MBind M := λ A B k m h,
  match m h with
  | Some (a, h') => k a h'
  | None => None
  end.

Definition lift {A} (o : option A) : M A := λ h,
  match o with
  | Some a => Some (a, h)
  | None => None
  end.

(** [new Value(d, cs, lgs)]: the field [grad] starts at 0. *)
Definition new_Value (d : R) (cs : list Ref) (lgs : list R) : M Ref := λ h,
  Some (length h, h ++ [mkValue d 0 cs lgs]).

(** [v.data] *)
Definition get_data (v : Ref) : M R := λ h,
  match h !! v with
  | Some nd => Some (data nd, h)
  | None => None
  end.

Fixpoint mapM {A B} (f : A → M B) (l : list A) : M (list B) :=
  match l with
  | [] => mret []
  | x :: l' => y ← f x; ys ← mapM f l'; mret (y :: ys)
  end.

(** [l.reduce((acc, x) => f(acc, x), a)] *)
Fixpoint foldM {A B} (f : A → B → M A) (a : A) (l : list B) : M A :=
  match l with
  | [] => mret a
  | x :: l' => a' ← f a x; foldM f a' l'
  end.

(** [l.map((x, i) => f(x, i))] *)
Definition imap_list {A} (l : list A) : list (nat * A) :=
  zip (seq 0 (length l)) l.

(** ** Numbers *)

(** [x ** n].  For an integer exponent this is the integer power (so that
    [x ** -1] is [1 / x]); otherwise it is [exp (n * ln x)] on a positive
    base.  On a base that is not positive and an exponent that is not an
    integer the program yields NaN, an infinity or 0; the model yields 0. *)
Definition js_pow (x n : R) : R :=
  if Req_dec_T (IZR (Int_part n)) n then powerRZ x (Int_part n)
  else if Rlt_dec 0 x then Rpower x n
  else 0%R.

(** ** Autograd engine: class Value *)

Inductive Operand :=
  | OValue (v : Ref)
  | ONumber (x : R).

(** [other instanceof Value ? other : new Value(other)] *)
Definition toValue (other : Operand) : M Ref :=
  match other with
  | OValue v => mret v
  | ONumber x => new_Value x [] []
  end.

Definition add (this : Ref) (other : Operand) : M Ref :=
  o ← toValue other;
  a ← get_data this;
  b ← get_data o;
  new_Value (a + b) [this; o] [1%R; 1%R].

Definition mul (this : Ref) (other : Operand) : M Ref :=
  o ← toValue other;
  a ← get_data this;
  b ← get_data o;
  new_Value (a * b) [this; o] [b; a].

Definition pow (this : Ref) (n : R) : M Ref :=
  a ← get_data this;
  new_Value (js_pow a n) [this] [(n * js_pow a (n - 1))%R].

Definition log (this : Ref) : M Ref :=
  a ← get_data this;
  new_Value (ln a) [this] [(1 / a)%R].

Definition exp (this : Ref) : M Ref :=
  a ← get_data this;
  let e := Rtrigo_def.exp a in
  new_Value e [this] [e].

Definition relu (this : Ref) : M Ref :=
  a ← get_data this;
  new_Value (Rmax 0 a) [this] [if Rgt_dec a 0 then 1%R else 0%R].

Definition neg (this : Ref) : M Ref :=
  mul this (ONumber (-1)).

Definition sub (this : Ref) (other : Operand) : M Ref :=
  o ← toValue other;
  on ← neg o;
  add this (OValue on).

Definition div (this : Ref) (other : Operand) : M Ref :=
  o ← toValue other;
  op ← pow o (-1);
  mul this (OValue op).

(** *** backward *)

Fixpoint foldlM {A B} (f : A → B → option A) (a : A) (l : list B) : option A :=
  match l with
  | [] => Some a
  | x :: l' => a' ← f a x; foldlM f a' l'
  end.

(** [buildTopo]: post-order depth-first traversal.  The state is the pair
    of the [visited] set and the [topo] array.  The recursion of the program
    is bounded by [fuel] here. *)
Fixpoint buildTopo (fuel : nat) (h : Heap) (v : Ref)
    (st : gset Ref * list Ref) : option (gset Ref * list Ref) :=
  match fuel with
  | 0 => None
  | S fuel' =>
      if decide (v ∈ st.1) then Some st
      else
        nd ← h !! v;
        st' ← foldlM (λ s child, buildTopo fuel' h child s)
                     ({[v]} ∪ st.1, st.2) (children nd);
        Some (st'.1, st'.2 ++ [v])
  end.

Definition with_grad (g : R) (nd : Value) : Value :=
  mkValue (data nd) g (children nd) (localGrads nd).

(** [this.grad = g] *)
Definition set_grad (v : Ref) (g : R) (h : Heap) : option Heap :=
  nd ← h !! v; Some (<[v := with_grad g nd]> h).

(** [c.grad += g] *)
Definition add_grad (c : Ref) (g : R) (h : Heap) : option Heap :=
  nd ← h !! c; Some (<[c := with_grad (grad nd + g) nd]> h).

(** [v.children[j].grad += v.localGrads[j] * v.grad] *)
Definition backward_child (v : Ref) (h : Heap) (j : nat) : option Heap :=
  nd ← h !! v;
  c ← children nd !! j;
  lg ← localGrads nd !! j;
  add_grad c (lg * grad nd) h.

(** The inner loop over [j] for one node of [topo]. *)
Definition backward_node (h : Heap) (v : Ref) : option Heap :=
  nd ← h !! v;
  foldlM (backward_child v) h (seq 0 (length (children nd))).

Definition backward (fuel : nat) (this : Ref) (h : Heap) : option Heap :=
  st ← buildTopo fuel h this (∅, []);
  h1 ← set_grad this 1 h;
  foldlM backward_node h1 (reverse st.2).

(** ** Tokenizer *)

(** The order of the default [sort()] on single characters. *)
Definition char_le (a b : ascii) : Prop := nat_of_ascii a ≤ nat_of_ascii b.

#[global] Instance char_le_dec : RelDecision char_le.
Proof. intros a b. unfold char_le. apply _. Defined.

(** [[...new Set(docs.join(''))].sort()]: the distinct characters of the
    corpus in code order. *)
Definition uchars_of (docs : list string) : list ascii :=
  merge_sort char_le (remove_dups (concat (String.list_ascii_of_string <$> docs))).

Definition BOS (uchars : list ascii) : nat := length uchars.
Definition vocabSize (uchars : list ascii) : nat := length uchars + 1.

(** [uchars.indexOf(ch)], which is -1 when [ch] is absent. *)
Fixpoint indexOf (uchars : list ascii) (ch : ascii) : Z :=
  match uchars with
  | [] => (-1)%Z
  | c :: rest =>
      if decide (c = ch) then 0%Z
      else let i := indexOf rest ch in if decide (i = (-1)%Z) then (-1)%Z else (1 + i)%Z
  end.

(** [[BOS, ...doc.split('').map((ch) => uchars.indexOf(ch)), BOS]] *)
Definition tokenize (uchars : list ascii) (doc : string) : list Z :=
  [Z.of_nat (BOS uchars)]
    ++ (indexOf uchars <$> String.list_ascii_of_string doc)
    ++ [Z.of_nat (BOS uchars)].

(** [arr[i]] for a number [i] that may be negative: [undefined] is [None]. *)
Definition at_Z {A} (l : list A) (i : Z) : option A :=
  if decide (0 ≤ i)%Z then l !! Z.to_nat i else None.

(** ** Seeded PRNG (Mulberry32) *)

(** [ToInt32] and [ToUint32] of an integer-valued number. *)
Definition ToInt32 (z : Z) : Z := ((z + 2 ^ 31) `mod` 2 ^ 32 - 2 ^ 31)%Z.
Definition ToUint32 (z : Z) : Z := (z `mod` 2 ^ 32)%Z.

(** [a | b], [a ^ b], [a >>> n] and [Math.imul(a, b)]. *)
Definition js_or (a b : Z) : Z := Z.lor (ToInt32 a) (ToInt32 b).
Definition js_xor (a b : Z) : Z := Z.lxor (ToInt32 a) (ToInt32 b).
Definition js_ushr (a n : Z) : Z := Z.shiftr (ToUint32 a) (n `mod` 32).
Definition Math_imul (a b : Z) : Z := ToInt32 (ToInt32 a * ToInt32 b).

(** [mulberry32(seed)]: the variable [s] that the returned closure
    captures. *)
Definition mulberry32 (seed : Z) : Z := js_or seed 0.

(** One call of the closure from the state [s]: the 32 bits of the result
    (the numerator of the number returned) and the new state. *)
Definition mulberry32_bits (s : Z) : Z * Z :=
  let s := js_or (s + 0x6d2b79f5) 0 in
  let t := Math_imul (js_xor s (js_ushr s 15)) (js_or 1 s) in
  let t := js_xor (t + Math_imul (js_xor t (js_ushr t 7)) (js_or 61 t)) t in
  (js_ushr (js_xor t (js_ushr t 14)) 0, s).

(** [rand()], from the state [s] of the generator. *)
Definition rand (s : Z) : R * Z :=
  let '(bits, s) := mulberry32_bits s in ((IZR bits / 4294967296)%R, s).

(** [gaussRandom(mean, std)].  When the first draw is 0 the program takes
    the logarithm of 0 and returns an infinity or NaN: that is [None]. *)
Definition gaussRandom (mean std : R) (s : Z) : option R * Z :=
  let '(u1, s) := rand s in
  let '(u2, s) := rand s in
  (if Req_dec_T u1 0 then None
   else Some (mean + std * sqrt (-2 * ln u1) * cos (2 * PI * u2))%R, s).

Definition Math_floor (x : R) : Z := Int_part x.

(** [[arr[i], arr[j]] = [arr[j], arr[i]]]: both entries are read, then
    [arr[i]] and [arr[j]] are written in this order.  On an index outside
    the array the program would read [undefined] and grow the array: that
    is [None]. *)
Definition swap {T} (arr : list T) (i : nat) (j : Z) : option (list T) :=
  ai ← arr !! i;
  aj ← at_Z arr j;
  Some (<[Z.to_nat j := ai]> (<[i := aj]> arr)).

(** The loop of [shuffle] from the index [i] down to 1. *)
Fixpoint shuffle_from {T} (i : nat) (arr : list T) (s : Z) : option (list T * Z) :=
  match i with
  | 0 => Some (arr, s)
  | S i' =>
      let '(u, s) := rand s in
      let j := Math_floor (u * INR (i + 1)) in
      arr ← swap arr i j;
      shuffle_from i' arr s
  end.

Definition shuffle {T} (arr : list T) (s : Z) : option (list T * Z) :=
  shuffle_from (length arr - 1) arr s.

(** ** Dataset *)

(** [text.split("\n")], on the characters of [text]. *)
Fixpoint split_lines (text : list ascii) : list (list ascii) :=
  match text with
  | [] => [[]]
  | c :: rest =>
      if decide (c = "010"%char) then [] :: split_lines rest
      else match split_lines rest with
           | line :: lines => (c :: line) :: lines
           | [] => [[c]]
           end
  end.

(** The white space and line terminators that [trim()] removes, among the
    8-bit codes: tab, line feed, vertical tab, form feed, carriage return,
    space and no-break space. *)
Definition is_space (c : ascii) : bool :=
  bool_decide (nat_of_ascii c ∈ [9; 10; 11; 12; 13; 32; 160]).

Fixpoint trim_start (l : list ascii) : list ascii :=
  match l with
  | [] => []
  | c :: rest => if is_space c then trim_start rest else l
  end.

(** [l.trim()] *)
Definition trim (l : list ascii) : list ascii :=
  reverse (trim_start (reverse (trim_start l))).

(** [text.split("\n").map((l) => l.trim()).filter(Boolean)] *)
Definition lines_of (text : string) : list string :=
  filter (λ l, l ≠ ""%string)
    (String.string_of_list_ascii ∘ trim <$> split_lines (String.list_ascii_of_string text)).

(** [docs]: the lines of the text, shuffled. *)
Definition load_docs (text : string) (s : Z) : option (list string * Z) :=
  shuffle (lines_of text) s.

(** ** Model hyperparameters *)

Definition N_LAYER : nat := 1.
Definition N_EMBD : nat := 16.
Definition BLOCK_SIZE : nat := 16.
Definition N_HEAD : nat := 4.
Definition HEAD_DIM : nat := N_EMBD / N_HEAD.

Arguments N_LAYER : simpl never.
Arguments N_EMBD : simpl never.
Arguments BLOCK_SIZE : simpl never.
Arguments N_HEAD : simpl never.
Arguments HEAD_DIM : simpl never.

(** ** Parameters *)

Abbreviation Matrix := (list (list Ref)).

(** [stateDict]: the keys of the object in insertion order. *)
Abbreviation StateDict := (list (string * Matrix)).

Fixpoint sd_get {V} (sd : list (string * V)) (name : string) : option V :=
  match sd with
  | [] => None
  | (k, m) :: rest => if decide (k = name) then Some m else sd_get rest name
  end.

(** [`layer${li}.${name}`] *)
Definition layer_key (li : nat) (name : string) : string :=
  "layer" +:+ pretty li +:+ "." +:+ name.

(** [Object.values(stateDict).flatMap((mat) => mat.flatMap((row) => row))] *)
Definition params_of (sd : StateDict) : list Ref :=
  concat (concat (snd <$> sd)).

(** [matrix(nout, nin)]: [nout] rows of [nin] new nodes.  The numbers drawn
    by [gaussRandom] are given by [init]: the node of index [k] starts with
    [init k]. *)
Definition matrix (init : nat → R) (nout nin : nat) : M Matrix :=
  mapM (λ _, mapM (λ _ h, new_Value (init (length h)) [] [] h) (seq 0 nin))
       (seq 0 nout).

(** The matrices that the loop over the layers adds to [stateDict]. *)
Definition init_layer (init : nat → R) (sd : StateDict) (li : nat) : M StateDict :=
  attn_wq ← matrix init N_EMBD N_EMBD;
  attn_wk ← matrix init N_EMBD N_EMBD;
  attn_wv ← matrix init N_EMBD N_EMBD;
  attn_wo ← matrix init N_EMBD N_EMBD;
  mlp_fc1 ← matrix init (4 * N_EMBD) N_EMBD;
  mlp_fc2 ← matrix init N_EMBD (4 * N_EMBD);
  mret (sd ++ [ (layer_key li "attn_wq", attn_wq);
                (layer_key li "attn_wk", attn_wk);
                (layer_key li "attn_wv", attn_wv);
                (layer_key li "attn_wo", attn_wo);
                (layer_key li "mlp_fc1", mlp_fc1);
                (layer_key li "mlp_fc2", mlp_fc2) ]).

(** The construction of [stateDict] for a vocabulary of [vocab] ids. *)
Definition init_stateDict (init : nat → R) (vocab : nat) : M StateDict :=
  wte ← matrix init vocab N_EMBD;
  wpe ← matrix init BLOCK_SIZE N_EMBD;
  lm_head ← matrix init vocab N_EMBD;
  foldM (init_layer init)
        [("wte"%string, wte); ("wpe"%string, wpe); ("lm_head"%string, lm_head)]
        (seq 0 N_LAYER).

(** ** Model building blocks *)

(** One step of a dot product: [sum.add(wi.mul(x[i]))]. *)
Definition dot_step (x : list Ref) (sum : Ref) (iw : nat * Ref) : M Ref :=
  xi ← lift (x !! iw.1);
  p ← mul iw.2 (OValue xi);
  add sum (OValue p).

Definition dot (w x : list Ref) : M Ref :=
  z ← new_Value 0 [] [];
  foldM (dot_step x) z (imap_list w).

Definition linear (x : list Ref) (w : Matrix) : M (list Ref) :=
  mapM (λ wRow, dot wRow x) w.

(** [Math.max(...xs)]; for no argument it is -Infinity, here [None]. *)
Definition Math_max (xs : list R) : option R :=
  match xs with
  | [] => None
  | x :: xs' => Some (fold_left Rmax xs' x)
  end.

Definition sum_values (vs : list Ref) : M Ref :=
  z ← new_Value 0 [] [];
  foldM (λ sum e, add sum (OValue e)) z vs.

Definition softmax (logits : list Ref) : M (list Ref) :=
  ds ← mapM get_data logits;
  exps ← match Math_max ds with
         | Some maxVal => mapM (λ v, s ← sub v (ONumber maxVal); exp s) logits
         | None => mret []
         end;
  total ← sum_values exps;
  mapM (λ e, div e (OValue total)) exps.

Definition rmsnorm (x : list Ref) : M (list Ref) :=
  z ← new_Value 0 [] [];
  ss ← foldM (λ sum xi, sq ← mul xi (OValue xi); add sum (OValue sq)) z x;
  ms ← div ss (ONumber (INR (length x)));
  e ← add ms (ONumber 1e-5);
  scale ← pow e (-0.5);
  mapM (λ xi, mul xi (OValue scale)) x.

(** ** GPT forward pass *)

(** [l.slice(s, e)] for [0 <= s] *)
Definition slice {A} (l : list A) (s e : nat) : list A := take (e - s) (drop s l).

(** The key (or value) cache: per layer, one vector per position. *)
Abbreviation Cache := (list (list (list Ref))).

(** [cache[li].push(k)] *)
Definition push_at {A} (li : nat) (k : A) (cache : list (list A))
    : option (list (list A)) :=
  l ← cache !! li; Some (<[li := l ++ [k]]> cache).

(** [a.map((a, i) => a.add(res[i]))] *)
Definition add_residual (x res : list Ref) : M (list Ref) :=
  mapM (λ ia, r ← lift (res !! ia.1); add ia.2 (OValue r)) (imap_list x).

(** The body of the loop over the heads: the [HEAD_DIM] entries that head
    [h] pushes on [xAttn]. *)
Definition attn_head (q : list Ref) (keys_li values_li : list (list Ref))
    (h : nat) : M (list Ref) :=
  let hs := h * HEAD_DIM in
  let qH := slice q hs (hs + HEAD_DIM) in
  let kH := (λ ki, slice ki hs (hs + HEAD_DIM)) <$> keys_li in
  let vH := (λ vi, slice vi hs (hs + HEAD_DIM)) <$> values_li in
  attnLogits ← mapM (λ kt, d ← dot qH kt;
                          div d (ONumber (sqrt (INR HEAD_DIM)))) kH;
  attnWeights ← softmax attnLogits;
  mapM (λ j,
          z ← new_Value 0 [] [];
          foldM (λ sum tw,
                   vt ← lift (vH !! tw.1);
                   vtj ← lift (vt !! j);
                   p ← mul tw.2 (OValue vtj);
                   add sum (OValue p)) z (imap_list attnWeights))
       (seq 0 HEAD_DIM).

(** The body of the loop over the layers. *)
Definition gpt_layer (sd : StateDict) (st : list Ref * Cache * Cache)
    (li : nat) : M (list Ref * Cache * Cache) :=
  let '(x, keys, values) := st in
  let xResidual1 := x in
  x ← rmsnorm x;
  wq ← lift (sd_get sd (layer_key li "attn_wq"));
  q ← linear x wq;
  wk ← lift (sd_get sd (layer_key li "attn_wk"));
  k ← linear x wk;
  wv ← lift (sd_get sd (layer_key li "attn_wv"));
  v ← linear x wv;
  keys ← lift (push_at li k keys);
  values ← lift (push_at li v values);
  keys_li ← lift (keys !! li);
  values_li ← lift (values !! li);
  heads ← mapM (attn_head q keys_li values_li) (seq 0 N_HEAD);
  let xAttn := concat heads in
  wo ← lift (sd_get sd (layer_key li "attn_wo"));
  x ← linear xAttn wo;
  x ← add_residual x xResidual1;
  let xResidual2 := x in
  x ← rmsnorm x;
  fc1 ← lift (sd_get sd (layer_key li "mlp_fc1"));
  x ← linear x fc1;
  x ← mapM relu x;
  fc2 ← lift (sd_get sd (layer_key li "mlp_fc2"));
  x ← linear x fc2;
  x ← add_residual x xResidual2;
  mret (x, keys, values).

Definition gpt (sd : StateDict) (tokenId : Z) (posId : nat)
    (keys values : Cache) : M (list Ref * Cache * Cache) :=
  wte ← lift (sd_get sd "wte");
  tokEmb ← lift (at_Z wte tokenId);
  wpe ← lift (sd_get sd "wpe");
  posEmb ← lift (wpe !! posId);
  x ← add_residual tokEmb posEmb;
  x ← rmsnorm x;
  st ← foldM (gpt_layer sd) (x, keys, values) (seq 0 N_LAYER);
  lm_head ← lift (sd_get sd "lm_head");
  logits ← linear st.1.1 lm_head;
  mret (logits, st.1.2, st.2).

(** [Array.from({ length: N_LAYER }, () => [])] *)
Definition fresh_cache : Cache := replicate N_LAYER [].

(** ** Training loop *)

Definition LEARNING_RATE : R := 0.01.
Definition BETA1 : R := 0.85.
Definition BETA2 : R := 0.99.
Definition EPS : R := 1e-8.
Definition NUM_STEPS : nat := 1000.

(** The body of the loop over [pos]: the loss at one position.  The
    probabilities are returned next to the caches so that they can be
    named in the statements below. *)
Definition loss_at (sd : StateDict) (tokens : list Z)
    (st : list Ref * Cache * Cache) (pos : nat) : M (list Ref * Cache * Cache) :=
  let '(losses, kvKeys, kvValues) := st in
  tok ← lift (tokens !! pos);
  r ← gpt sd tok pos kvKeys kvValues;
  probs ← softmax r.1.1;
  tgt ← lift (tokens !! (pos + 1));
  p ← lift (at_Z probs tgt);
  l ← log p;
  nl ← neg l;
  mret (losses ++ [nl], r.1.2, r.2).

(** The loop over the [n] positions of one document. *)
Definition forward_positions (sd : StateDict) (tokens : list Z) (n : nat)
    : M (list Ref * Cache * Cache) :=
  foldM (loss_at sd tokens) ([], fresh_cache, fresh_cache) (seq 0 n).

(** The part of a training step up to the node on which [backward] is
    called: the per-position losses and their average. *)
Definition forward_loss (sd : StateDict) (tokens : list Z) : M (list Ref * Ref) :=
  let n := Nat.min BLOCK_SIZE (length tokens - 1) in
  st ← forward_positions sd tokens n;
  s ← sum_values st.1.1;
  loss ← div s (ONumber (INR n));
  mret (st.1.1, loss).

(** [LEARNING_RATE * (1 - step / NUM_STEPS)] *)
Definition lrT (step : nat) : R :=
  (LEARNING_RATE * (1 - INR step / INR NUM_STEPS))%R.

(** The moment buffers [m] and [v]. *)
Abbreviation Moments := (list R * list R)%type.

(** The body of the loop over the parameters in the Adam update. *)
Definition adam_param (step : nat) (st : Heap * Moments) (ip : nat * Ref)
    : option (Heap * Moments) :=
  let '(h, (m, v)) := st in
  let '(i, p) := ip in
  nd ← h !! p;
  mi ← m !! i;
  vi ← v !! i;
  let mi' := (BETA1 * mi + (1 - BETA1) * grad nd)%R in
  let vi' := (BETA2 * vi + (1 - BETA2) * js_pow (grad nd) 2)%R in
  let mHat := (mi' / (1 - js_pow BETA1 (INR (step + 1))))%R in
  let vHat := (vi' / (1 - js_pow BETA2 (INR (step + 1))))%R in
  let d := (data nd - (lrT step * mHat) / (sqrt vHat + EPS))%R in
  Some (<[p := mkValue d 0 (children nd) (localGrads nd)]> h,
        (<[i := mi']> m, <[i := vi']> v)).

Definition adam_update (step : nat) (params : list Ref) (st : Heap * Moments)
    : option (Heap * Moments) :=
  foldlM (adam_param step) st (imap_list params).

(** One iteration of the training loop on the document [doc]. *)
Definition train_step (fuel : nat) (sd : StateDict) (uchars : list ascii)
    (docs : list string) (st : Heap * Moments) (step : nat)
    : option (Heap * Moments) :=
  doc ← docs !! (step `mod` length docs);
  let tokens := tokenize uchars doc in
  r ← forward_loss sd tokens st.1;
  h ← backward fuel r.1.2 r.2;
  adam_update step (params_of sd) (h, st.2).


(** ** Inference *)

Definition TEMPERATURE : R := 0.5.

(** The loop of [weightedChoice] from index [i] on, [r] being what is left
    of the drawn mass. *)
Fixpoint weightedChoice_from (ws : list R) (i : nat) (r : R) (last : Z) : Z :=
  match ws with
  | [] => last
  | w :: ws' =>
      let r' := (r - w)%R in
      if Rle_dec r' 0 then Z.of_nat i else weightedChoice_from ws' (S i) r' last
  end.

(** [weightedChoice(weights)], where [u] is the number that [rand()]
    returns. *)
Definition weightedChoice (weights : list R) (u : R) : Z :=
  let total := fold_left Rplus weights 0%R in
  weightedChoice_from weights 0 (u * total)%R (Z.of_nat (length weights) - 1)%Z.

(** The loop over [pos] for one sample; [rand pos] is the number drawn at
    position [pos].  The sample is kept as token ids. *)
Fixpoint sample_loop (sd : StateDict) (bos : Z) (rand : nat → R)
    (poss : list nat) (tokenId : Z) (kvKeys kvValues : Cache)
    (sample : list Z) : M (list Z * Cache * Cache) :=
  match poss with
  | [] => mret (sample, kvKeys, kvValues)
  | pos :: rest =>
      r ← gpt sd tokenId pos kvKeys kvValues;
      scaled ← mapM (λ l, div l (ONumber TEMPERATURE)) r.1.1;
      probs ← softmax scaled;
      ws ← mapM get_data probs;
      let tokenId := weightedChoice ws (rand pos) in
      if decide (tokenId = bos) then mret (sample, r.1.2, r.2)
      else sample_loop sd bos rand rest tokenId r.1.2 r.2 (sample ++ [tokenId])
  end.

(** The body of the loop over the samples: one sample, from fresh caches
    and from BOS. *)
Definition generate (sd : StateDict) (uchars : list ascii) (rand : nat → R)
    : M (list Z * Cache * Cache) :=
  sample_loop sd (Z.of_nat (BOS uchars)) rand (seq 0 BLOCK_SIZE)
              (Z.of_nat (BOS uchars)) fresh_cache fresh_cache [].

(** The 20 samples; [rand s pos] is the number drawn for sample [s] at
    position [pos]. *)
Definition inference (sd : StateDict) (uchars : list ascii) (rand : nat → nat → R)
    : M (list (list Z)) :=
  mapM (λ s, r ← generate sd uchars (rand s); mret r.1.1) (seq 0 20).

(** * Part II: the vocabulary of the specification *)

(** ** Store invariants *)

(** What [backward] must leave alone. *)
Definition same_shape (n1 n2 : Value) : Prop :=
  data n1 = data n2 ∧ children n1 = children n2 ∧ localGrads n1 = localGrads n2.

Definition frame (h h' : Heap) : Prop := Forall2 same_shape h h'.

(** A node's children were allocated before it, and it has one local
    gradient per child.  Every store built with the operations of the class
    satisfies this ([children] and [localGrads] are private and set once). *)
Definition wf_node (i : nat) (nd : Value) : Prop :=
  Forall (λ c, c < i) (children nd) ∧ length (localGrads nd) = length (children nd).

Definition wf_heap (h : Heap) : Prop :=
  ∀ i nd, h !! i = Some nd → wf_node i nd.

Definition grad_of (h : Heap) (v : Ref) : option R := grad <$> h !! v.
Definition data_of (h : Heap) (v : Ref) : option R := data <$> h !! v.

(** Nodes at or above [b] are the same cells in both stores. *)
Definition keeps_from (b : nat) (h h' : Heap) : Prop :=
  frame h h' ∧ ∀ i, b ≤ i → h' !! i = h !! i.

(** What one call of [buildTopo] may do to its state: [visited] grows and
    [topo] is extended by nodes that are at most [b]. *)
Definition topo_step (b : nat) (st st' : gset Ref * list Ref) : Prop :=
  st.1 ⊆ st'.1 ∧ ∃ new, st'.2 = st.2 ++ new ∧ Forall (λ x, x ≤ b) new.

(** ** Reasoning about store computations *)

(** [wp m h Q]: run from the store [h], the computation [m] returns; the
    store it leaves extends [h] and is well formed if [h] is, and the result
    and the final store satisfy [Q]. *)
Definition wp {A} (m : M A) (h : Heap) (Q : A → Heap → Prop) : Prop :=
  ∃ a h', m h = Some (a, h') ∧ h `prefix_of` h' ∧ (wf_heap h → wf_heap h') ∧ Q a h'.

(** ** The numbers held by references *)

(** [datas h vs ds]: the nodes [vs] exist in [h] and hold the numbers [ds]. *)
Definition datas (h : Heap) (vs : list nat) (ds : list R) : Prop :=
  Forall2 (λ v d, data_of h v = Some d) vs ds.

Definition operand_data (h : Heap) (o : Operand) (d : R) : Prop :=
  match o with
  | OValue v => data_of h v = Some d
  | ONumber x => x = d
  end.

(** ** Loops over vectors, on numbers *)

Definition stable {A B} (rel : Heap → A → B → Prop) : Prop :=
  ∀ h h' a b, rel h a b → h `prefix_of` h' → rel h' a b.

(** ** softmax on numbers *)

Definition Rsum (l : list R) : R := foldr Rplus 0%R l.

(** What [sum_values] computes: the additions from the left, from 0. *)
Definition sum_data (ds : list R) : R := fold_left Rplus ds 0%R.

(** What [softmax] computes, operation by operation. *)
Definition exps_data (ds : list R) : list R :=
  match Math_max ds with
  | Some maxVal => (λ d, Rtrigo_def.exp (d + maxVal * -1)) <$> ds
  | None => []
  end.

Definition softmax_data (ds : list R) : list R :=
  (λ e, e * js_pow (sum_data (exps_data ds)) (-1))%R <$> exps_data ds.

(** ** The building blocks on numbers *)

(** What the reduce of a dot product computes. *)
Definition dot_data (w x : list R) : R :=
  fold_left (λ s p, s + p.1 * p.2)%R (zip w x) 0%R.

Definition linear_data (x : list R) (w : list (list R)) : list R :=
  (λ wRow, dot_data wRow x) <$> w.

Definition rmsnorm_data (x : list R) : list R :=
  let ss := fold_left (λ s xi, s + xi * xi)%R x 0%R in
  let ms := (ss * js_pow (INR (length x)) (-1))%R in
  let scale := js_pow (ms + 1e-5) (-0.5) in
  (λ xi, xi * scale)%R <$> x.

Definition add_residual_data (x res : list R) : list R :=
  (λ p, p.1 + p.2)%R <$> zip x res.

(** The pairs met by a traversal of [w] that reads [x] at the same index. *)
Definition paired (x : list nat) (h : Heap) (iw : nat * nat) (ab : R * R) : Prop :=
  data_of h iw.2 = Some ab.1 ∧
  ∃ xi, x !! iw.1 = Some xi ∧ data_of h xi = Some ab.2.

(** ** Attention on numbers *)

Definition mat_rel (h : Heap) (w : list (list nat)) (wd : list (list R)) : Prop :=
  Forall2 (datas h) w wd.

(** Entry [j] of every vector of [vH]. *)
Definition column (j : nat) (vH : list (list R)) : list R :=
  (λ vt, default 0%R (vt !! j)) <$> vH.

Definition attn_head_data (q : list R) (keys_li values_li : list (list R))
    (hd : nat) : list R :=
  let hs := hd * HEAD_DIM in
  let qH := slice q hs (hs + HEAD_DIM) in
  let kH := (λ ki, slice ki hs (hs + HEAD_DIM)) <$> keys_li in
  let vH := (λ vi, slice vi hs (hs + HEAD_DIM)) <$> values_li in
  let attnLogits :=
    (λ kt, dot_data qH kt * js_pow (sqrt (INR HEAD_DIM)) (-1))%R <$> kH in
  let attnWeights := softmax_data attnLogits in
  (λ j, dot_data attnWeights (column j vH)) <$> seq 0 HEAD_DIM.

(** The pairs met by the weighted sum of entry [j]: a weight and
    [vH[t][j]]. *)
Definition weighted (vH : list (list nat)) (j : nat) (h : Heap)
    (tw : nat * nat) (ab : R * R) : Prop :=
  data_of h tw.2 = Some ab.1 ∧
  ∃ vt vtj, vH !! tw.1 = Some vt ∧ vt !! j = Some vtj ∧ data_of h vtj = Some ab.2.

(** ** The forward pass on numbers *)

Abbreviation CacheD := (list (list (list R))).
Abbreviation StateDictD := (list (string * list (list R))).

Definition cache_rel (h : Heap) (c : Cache) (cd : CacheD) : Prop :=
  Forall2 (mat_rel h) c cd.

Definition sd_rel (h : Heap) (sd : StateDict) (sdd : StateDictD) : Prop :=
  Forall2 (λ kv kvd, kv.1 = kvd.1 ∧ mat_rel h kv.2 kvd.2) sd sdd.

Definition state_rel (h : Heap) (st : list nat * Cache * Cache)
    (std : list R * CacheD * CacheD) : Prop :=
  datas h st.1.1 std.1.1 ∧ cache_rel h st.1.2 std.1.2 ∧ cache_rel h st.2 std.2.

Definition mat (sdd : StateDictD) (name : string) : list (list R) :=
  default [] (sd_get sdd name).

Definition push_data (li : nat) (k : list R) (c : CacheD) : CacheD :=
  default c (push_at li k c).

Definition layer_of {A} (c : list (list A)) (li : nat) : list A :=
  default [] (c !! li).

(** What one layer computes. *)
Definition gpt_layer_data (sdd : StateDictD) (st : list R * CacheD * CacheD)
    (li : nat) : list R * CacheD * CacheD :=
  let x0 := st.1.1 in
  let x1 := rmsnorm_data x0 in
  let q := linear_data x1 (mat sdd (layer_key li "attn_wq")) in
  let k := linear_data x1 (mat sdd (layer_key li "attn_wk")) in
  let v := linear_data x1 (mat sdd (layer_key li "attn_wv")) in
  let keys := push_data li k st.1.2 in
  let values := push_data li v st.2 in
  let xAttn :=
    concat (attn_head_data q (layer_of keys li) (layer_of values li) <$> seq 0 N_HEAD) in
  let x2 := linear_data xAttn (mat sdd (layer_key li "attn_wo")) in
  let x3 := add_residual_data x2 x0 in
  let x4 := rmsnorm_data x3 in
  let x5 := linear_data x4 (mat sdd (layer_key li "mlp_fc1")) in
  let x6 := Rmax 0 <$> x5 in
  let x7 := linear_data x6 (mat sdd (layer_key li "mlp_fc2")) in
  (add_residual_data x7 x3, keys, values).

(** What [gpt] computes: the logits and the two caches. *)
Definition gpt_data (sdd : StateDictD) (tokenId : Z) (posId : nat)
    (keys values : CacheD) : list R * CacheD * CacheD :=
  let tokEmb := default [] (at_Z (mat sdd "wte") tokenId) in
  let posEmb := default [] (mat sdd "wpe" !! posId) in
  let x := rmsnorm_data (add_residual_data tokEmb posEmb) in
  let st := fold_left (gpt_layer_data sdd) (seq 0 N_LAYER) (x, keys, values) in
  (linear_data st.1.1 (mat sdd "lm_head"), st.1.2, st.2).

Arguments gpt_layer_data : simpl never.
Arguments gpt_data : simpl never.

(** *** Shapes *)

Definition rows {A} (n m : nat) (w : list (list A)) : Prop :=
  length w = n ∧ Forall (λ r, length r = m) w.

Definition has_mat {A} (sd : list (string * list (list A))) (name : string)
    (n m : nat) : Prop :=
  match sd_get sd name with
  | Some w => rows n m w
  | None => False
  end.

Definition layer_shape {A} (sd : list (string * list (list A))) (li : nat) : Prop :=
  has_mat sd (layer_key li "attn_wq") N_EMBD N_EMBD ∧
  has_mat sd (layer_key li "attn_wk") N_EMBD N_EMBD ∧
  has_mat sd (layer_key li "attn_wv") N_EMBD N_EMBD ∧
  has_mat sd (layer_key li "attn_wo") N_EMBD N_EMBD ∧
  has_mat sd (layer_key li "mlp_fc1") (4 * N_EMBD) N_EMBD ∧
  has_mat sd (layer_key li "mlp_fc2") N_EMBD (4 * N_EMBD).

(** The shapes that the parameter initialization gives to [stateDict], for
    a vocabulary of [vocab] ids. *)
Definition sd_shape {A} (vocab : nat) (sd : list (string * list (list A))) : Prop :=
  has_mat sd "wte" vocab N_EMBD ∧
  has_mat sd "wpe" BLOCK_SIZE N_EMBD ∧
  has_mat sd "lm_head" vocab N_EMBD ∧
  Forall (layer_shape sd) (seq 0 N_LAYER).

(** One layer of the two caches: as many keys as values, all of width
    [N_EMBD]. *)
Definition layer_ok {A} (kl vl : list (list A)) : Prop :=
  length kl = length vl ∧
  Forall (λ k, length k = N_EMBD) kl ∧ Forall (λ v, length v = N_EMBD) vl.

Definition cache_ok {A} (keys values : list (list (list A))) : Prop :=
  length keys = N_LAYER ∧ Forall2 layer_ok keys values.

(** ** The layers: shapes of what [gpt_layer_data] returns *)

(** The numbers of rows that the shapes of the forward pass depend on. *)
Definition layer_rows (sdd : StateDictD) (li : nat) : Prop :=
  length (mat sdd (layer_key li "attn_wk")) = N_EMBD ∧
  length (mat sdd (layer_key li "attn_wv")) = N_EMBD ∧
  length (mat sdd (layer_key li "attn_wo")) = N_EMBD ∧
  length (mat sdd (layer_key li "mlp_fc2")) = N_EMBD.

(** [grown j c c']: the layers below [j] of [c'] are those of [c] with one
    entry appended, the other layers are those of [c]. *)
Definition grown {A} (j : nat) (c c' : list (list A)) : Prop :=
  length c' = length c ∧
  ∀ lj, if decide (lj < j ∧ lj < length c)
        then ∃ k, layer_of c' lj = layer_of c lj ++ [k]
        else layer_of c' lj = layer_of c lj.

(** ** What a call that returns has done to the caches *)

(** [fed sd k keys values]: the two caches are what [k] calls of [gpt] in a
    row leave of fresh caches, each call being given the caches that the
    one before returned.  This is how the training loop and the inference
    loop use the caches within one sequence. *)
Inductive fed (sd : StateDict) : nat → Cache → Cache → Prop :=
  | fed_fresh : fed sd 0 fresh_cache fresh_cache
  | fed_call k keys values tokenId posId h r h' :
      fed sd k keys values →
      gpt sd tokenId posId keys values h = Some (r, h') →
      fed sd (S k) r.1.2 r.2.

(** ** The training loss on numbers *)

Definition fresh_cache_data : CacheD := replicate N_LAYER [].

(** What one iteration of the loop over the positions computes. *)
Definition loss_at_data (sdd : StateDictD) (tokens : list Z)
    (st : list R * CacheD * CacheD) (pos : nat) : list R * CacheD * CacheD :=
  let tok := default 0%Z (tokens !! pos) in
  let r := gpt_data sdd tok pos st.1.2 st.2 in
  let probs := softmax_data r.1.1 in
  let tgt := default 0%Z (tokens !! (pos + 1)) in
  let p := default 0%R (at_Z probs tgt) in
  (st.1.1 ++ [(ln p * -1)%R], r.1.2, r.2).

Definition forward_positions_data (sdd : StateDictD) (tokens : list Z) (n : nat)
    : list R * CacheD * CacheD :=
  fold_left (loss_at_data sdd tokens) (seq 0 n) ([], fresh_cache_data, fresh_cache_data).

(** The logits that the forward pass returns at position [p] of [tokens]:
    the caches it is given are those left by the positions before [p]. *)
Definition logits_at (sdd : StateDictD) (tokens : list Z) (p : nat) : list R :=
  let st := forward_positions_data sdd tokens p in
  (gpt_data sdd (default 0%Z (tokens !! p)) p st.1.2 st.2).1.1.

(** The softmax probability of the token that follows position [p]. *)
Definition target_prob (sdd : StateDictD) (tokens : list Z) (p : nat) : R :=
  default 0%R (at_Z (softmax_data (logits_at sdd tokens p))
                    (default 0%Z (tokens !! (p + 1)))).

Definition in_vocab (vocab : nat) (t : Z) : Prop := (0 ≤ t < Z.of_nat vocab)%Z.

Arguments loss_at_data : simpl never.
Arguments forward_positions_data : simpl never.
Arguments logits_at : simpl never.
Arguments target_prob : simpl never.

(** The tokens that the first [n] positions read are ids of the
    vocabulary. *)
Definition tokens_ok (vocab : nat) (tokens : list Z) (n : nat) : Prop :=
  n < length tokens ∧ n ≤ BLOCK_SIZE ∧ Forall (in_vocab vocab) tokens.

(** ** Feeding a sequence to the forward pass *)

(** The numbers of what a call of [gpt] returned: the logits and the two
    caches. *)
Definition observe (r : list nat * Cache * Cache) : M (list R * CacheD * CacheD) :=
  logits ← mapM get_data r.1.1;
  keys ← mapM (mapM (mapM get_data)) r.1.2;
  values ← mapM (mapM (mapM get_data)) r.2;
  mret (logits, keys, values).

(** The tokens are given to [gpt] one position after the other, each call
    with the caches that the call before returned, as the training loop and
    the inference loop do; what each call returned is recorded. *)
Fixpoint feed_from (sd : StateDict) (tokens : list Z) (pos : nat)
    (keys values : Cache) : M (list (list R * CacheD * CacheD)) :=
  match tokens with
  | [] => mret []
  | tok :: rest =>
      r ← gpt sd tok pos keys values;
      o ← observe r;
      os ← feed_from sd rest (S pos) r.1.2 r.2;
      mret (o :: os)
  end.

Definition feed (sd : StateDict) (tokens : list Z)
    : M (list (list R * CacheD * CacheD)) :=
  feed_from sd tokens 0 fresh_cache fresh_cache.

Fixpoint feed_data (sdd : StateDictD) (tokens : list Z) (pos : nat)
    (keys values : CacheD) : list (list R * CacheD * CacheD) :=
  match tokens with
  | [] => []
  | tok :: rest =>
      let r := gpt_data sdd tok pos keys values in
      r :: feed_data sdd rest (S pos) r.1.2 r.2
  end.

(** ** A parameter store of the shapes of the program *)

(** [nout] rows of [nin] references, numbered from [base] on. *)
Definition matrix_at (base nout nin : nat) : Matrix :=
  (λ i, seq (base + i * nin) nin) <$> seq 0 nout.

(** The keys of [stateDict] in the order in which the program creates
    them, for a vocabulary of two ids (one character and BOS). *)
Definition example_sd : StateDict :=
  [ ("wte", matrix_at 0 2 16);
    ("wpe", matrix_at 32 16 16);
    ("lm_head", matrix_at 288 2 16);
    ("layer0.attn_wq", matrix_at 320 16 16);
    ("layer0.attn_wk", matrix_at 576 16 16);
    ("layer0.attn_wv", matrix_at 832 16 16);
    ("layer0.attn_wo", matrix_at 1088 16 16);
    ("layer0.mlp_fc1", matrix_at 1344 64 16);
    ("layer0.mlp_fc2", matrix_at 2368 16 64) ]%string.

(** A store that holds the 3392 parameters, each with the number [c]. *)
Definition example_heap (c : R) : Heap := replicate 3392 (mkValue c 0 [] []).

(** The numbers of a dictionary all of whose parameters hold [c]. *)
Definition const_view (c : R) (sd : StateDict) : StateDictD :=
  (λ kv : string * Matrix,
     (kv.1, (λ row : list nat, (λ _ : nat, c) <$> row) <$> kv.2)) <$> sd.

(** The numbers that a store holds at the parameters of a dictionary. *)
Definition heap_view (h : Heap) (sd : StateDict) : StateDictD :=
  (λ kv : string * Matrix,
     (kv.1, (λ row : list nat, (λ v : nat, default 0%R (data_of h v)) <$> row) <$> kv.2))
    <$> sd.

(** The example store with 1 in the query and key matrices of the layer
    (the parameters 320 to 831) and 0 in the other parameters. *)
Definition example_heap_qk : Heap :=
  replicate 320 (mkValue 0 0 [] []) ++ replicate 512 (mkValue 1 0 [] []) ++
  replicate 2560 (mkValue 0 0 [] []).

Definition refs_below (n : nat) (sd : StateDict) : Prop :=
  Forall (λ kv, Forall (Forall (λ v, v < n)) kv.2) sd.

#[global] Instance rows_dec {A} n m (w : list (list A)) : Decision (rows n m w).
Proof. unfold rows. apply _. Defined.

#[global] Instance has_mat_dec {A} (sd : list (string * list (list A))) name n m :
  Decision (has_mat sd name n m).
Proof. unfold has_mat. destruct (sd_get sd name); apply _. Defined.

#[global] Instance layer_shape_dec {A} (sd : list (string * list (list A))) li :
  Decision (layer_shape sd li).
Proof. unfold layer_shape. apply _. Defined.

#[global] Instance sd_shape_dec {A} vocab (sd : list (string * list (list A))) :
  Decision (sd_shape vocab sd).
Proof. unfold sd_shape. apply _. Defined.

#[global] Instance refs_below_dec n sd : Decision (refs_below n sd).
Proof. unfold refs_below. apply _. Defined.

(** ** The graph that [backward] walks *)

(** [reach h root v]: [v] is [root] or a child of a node that [root]
    reaches. *)
Inductive reach (h : Heap) (root : nat) : nat → Prop :=
  | reach_root : reach h root root
  | reach_child p nd c :
      reach h root p → h !! p = Some nd → c ∈ children nd → reach h root c.

(** What the handling of the node [p] in the loop of [backward] adds to
    [v.grad]: for every child edge of [p] that leads to [v], the local
    gradient of the edge times [p.grad]. *)
Definition contrib (h : Heap) (p v : nat) : R :=
  match h !! p with
  | Some nd =>
      Rsum ((λ cl : nat * R, if decide (cl.1 = v) then cl.2 * grad nd else 0)%R
              <$> zip (children nd) (localGrads nd))
  | None => 0%R
  end.

(** An order in which the loop of [backward] may handle nodes: no node
    twice, and every node before all of its children. *)
Inductive proc_order (h : Heap) : list nat → Prop :=
  | proc_nil : proc_order h []
  | proc_cons p l :
      p ∉ l →
      (∀ nd c, h !! p = Some nd → c ∈ children nd → c ∈ l) →
      proc_order h l →
      proc_order h (p :: l).

(** [a = 2], [b = 3], [c = a.mul(b)], [y = c.add(a)]: the node [a] has the
    two parents [c] and [y]. *)
Definition example_graph : Heap :=
  [mkValue 2 0 [] []; mkValue 3 0 [] [];
   mkValue 6 0 [0; 1] [3%R; 2%R]; mkValue 8 0 [2; 0] [1%R; 1%R]].

(** ** The generator after [n] calls *)

Definition rand_state (n : nat) (seed : Z) : Z :=
  Nat.iter n (λ s, (rand s).2) (mulberry32 seed).

(** ** The documents *)

(** A line of [text] that is kept as a document: not empty, without a line
    feed, made of characters of [text], and with no white space at either
    end. *)
Definition clean_line (text doc : string) : Prop :=
  let chars := String.list_ascii_of_string doc in
  doc ≠ ""%string ∧
  (∀ c, c ∈ chars → c ≠ "010"%char ∧ c ∈ String.list_ascii_of_string text) ∧
  (∀ c, head chars = Some c → is_space c = false) ∧
  (∀ c, last chars = Some c → is_space c = false).

(** ** The parameters *)

(** The nodes that [matrix] creates from the index [b] on: leaves whose
    [grad] is 0. *)
Definition fresh_params (init : nat → R) (b n : nat) : Heap :=
  (λ k, mkValue (init k) 0 [] []) <$> seq b n.

(** What the parameter update must leave alone: the edges of the graph. *)
Definition same_graph (h h' : Heap) : Prop :=
  Forall2 (λ a b, children a = children b ∧ localGrads a = localGrads b) h h'.

(** The cell of a parameter and its two moments after the update of the
    iteration [step], from the cell [nd] and the moments [mi] and [vi]. *)
Definition adam_cell (step : nat) (nd : Value) (mi vi : R) : Value * R * R :=
  let mi' := (BETA1 * mi + (1 - BETA1) * grad nd)%R in
  let vi' := (BETA2 * vi + (1 - BETA2) * grad nd ^ 2)%R in
  let mHat := (mi' / (1 - BETA1 ^ (step + 1)))%R in
  let vHat := (vi' / (1 - BETA2 ^ (step + 1)))%R in
  (mkValue (data nd - lrT step * mHat / (sqrt vHat + EPS)) 0
           (children nd) (localGrads nd), mi', vi').

(** * Part III: proofs *)

(** ** Stores that differ only in [grad] fields *)

Section frame_lemmas.

Lemma same_shape_refl nd : same_shape nd nd.
Proof. by repeat split. Qed.

Lemma same_shape_trans n1 n2 n3 :
  same_shape n1 n2 → same_shape n2 n3 → same_shape n1 n3.
Proof. intros (?&?&?) (?&?&?). repeat split; congruence. Qed.

Lemma frame_refl h : frame h h.
Proof. apply Forall2_same_length_lookup. split; [done|]. intros i x y ? ?. simplify_eq. apply same_shape_refl. Qed.

Lemma frame_trans h1 h2 h3 : frame h1 h2 → frame h2 h3 → frame h1 h3.
Proof.
  unfold frame. intros H12 H23.
  eapply Forall2_trans; [| exact H12 | exact H23].
  apply same_shape_trans.
Qed.

Lemma frame_length h h' : frame h h' → length h' = length h.
Proof. intros H. symmetry. by eapply Forall2_length. Qed.

Lemma frame_lookup h h' i nd :
  frame h h' → h !! i = Some nd → ∃ nd', h' !! i = Some nd' ∧ same_shape nd nd'.
Proof. intros H Hi. by eapply Forall2_lookup_l. Qed.

Lemma frame_lookup_r h h' i nd' :
  frame h h' → h' !! i = Some nd' → ∃ nd, h !! i = Some nd ∧ same_shape nd nd'.
Proof. intros H Hi. by eapply Forall2_lookup_r. Qed.

Lemma frame_with_grad h c nd g :
  h !! c = Some nd → frame h (<[c := with_grad g nd]> h).
Proof.
  intros Hc. unfold frame.
  rewrite <- (list_insert_id h c nd Hc) at 1.
  apply Forall2_insert; [apply frame_refl | by repeat split].
Qed.

Lemma frame_wf h h' : frame h h' → wf_heap h → wf_heap h'.
Proof.
  intros Hf Hwf i nd' Hi.
  destruct (frame_lookup_r _ _ _ _ Hf Hi) as (nd & Hnd & Hd & Hc & Hl).
  destruct (Hwf i nd Hnd) as [H1 H2]. split; congruence.
Qed.

End frame_lemmas.

(** ** backward: termination, frame, and which nodes a step can touch *)

Section backward_lemmas.

Lemma foldlM_total {A B} (f : A → B → option A) (Rel : A → A → Prop) l a :
  (∀ x, Rel x x) →
  (∀ x y z, Rel x y → Rel y z → Rel x z) →
  (∀ s x, x ∈ l → Rel a s → ∃ s', f s x = Some s' ∧ Rel s s') →
  ∃ a', foldlM f a l = Some a' ∧ Rel a a'.
Proof.
  intros Hrefl Htrans. revert a.
  induction l as [|x l IH]; intros a Hstep; simpl.
  - eauto.
  - destruct (Hstep a x) as (a1 & Hf & Hr); [left | apply Hrefl |].
    rewrite Hf. simpl.
    destruct (IH a1) as (a' & Hfold & Hr').
    + intros s x' Hin Hs. apply Hstep; [by right | by eapply Htrans].
    + exists a'. split; [done | by eapply Htrans].
Qed.

Lemma keeps_from_refl b h : keeps_from b h h.
Proof. split; [apply frame_refl | done]. Qed.

Lemma keeps_from_trans b h1 h2 h3 :
  keeps_from b h1 h2 → keeps_from b h2 h3 → keeps_from b h1 h3.
Proof.
  intros [F1 K1] [F2 K2]. split; [by eapply frame_trans|].
  intros i Hi. rewrite K2, K1; auto.
Qed.

Lemma keeps_from_mono b b' h h' : b ≤ b' → keeps_from b h h' → keeps_from b' h h'.
Proof. intros Hb [F K]. split; [done|]. intros i Hi. apply K. lia. Qed.

Lemma backward_child_total h v nd j :
  wf_heap h → h !! v = Some nd → j < length (children nd) →
  ∃ h', backward_child v h j = Some h' ∧ keeps_from v h h'.
Proof.
  intros Hwf Hv Hj. unfold backward_child. rewrite Hv. simpl.
  destruct (Hwf v nd Hv) as [Hlt Hlen].
  destruct (lookup_lt_is_Some_2 (children nd) j Hj) as [c Hc].
  destruct (lookup_lt_is_Some_2 (localGrads nd) j) as [lg Hlg]; [lia|].
  rewrite Hc, Hlg. simpl.
  assert (c < v) as Hcv.
  { rewrite Forall_forall in Hlt. apply Hlt. by eapply list_elem_of_lookup_2. }
  assert (v < length h) as Hvl by (by eapply lookup_lt_Some).
  destruct (lookup_lt_is_Some_2 h c) as [cn Hcn]; [lia|].
  unfold add_grad. rewrite Hcn. simpl. eexists. split; [done|].
  split; [by apply frame_with_grad|].
  intros i Hi. apply list_lookup_insert_ne. lia.
Qed.

Lemma backward_node_total h v :
  wf_heap h → v < length h →
  ∃ h', backward_node h v = Some h' ∧ keeps_from v h h'.
Proof.
  intros Hwf Hv. unfold backward_node.
  destruct (lookup_lt_is_Some_2 h v Hv) as [nd Hnd]. rewrite Hnd. simpl.
  apply foldlM_total.
  - apply keeps_from_refl.
  - apply keeps_from_trans.
  - intros s j Hj [Hf Hk].
    apply elem_of_seq in Hj.
    apply backward_child_total with (nd := nd); [by eapply frame_wf| |lia].
    rewrite Hk; [done | lia].
Qed.

Lemma backward_loop_total l h b :
  wf_heap h → Forall (λ v, v < length h ∧ v ≤ b) l →
  ∃ h', foldlM backward_node h l = Some h' ∧ keeps_from b h h'.
Proof.
  intros Hwf Hl. apply foldlM_total.
  - apply keeps_from_refl.
  - apply keeps_from_trans.
  - intros s v Hin [Hf Hk].
    rewrite Forall_forall in Hl. destruct (Hl v Hin) as [Hlt Hle].
    destruct (backward_node_total s v) as (s' & Hs' & Hk').
    + by eapply frame_wf.
    + by rewrite (frame_length _ _ Hf).
    + exists s'. split; [done|]. by eapply keeps_from_mono.
Qed.

Lemma topo_step_refl b st : topo_step b st st.
Proof. split; [done|]. exists []. by rewrite app_nil_r. Qed.

Lemma topo_step_trans b s1 s2 s3 :
  topo_step b s1 s2 → topo_step b s2 s3 → topo_step b s1 s3.
Proof.
  intros [S1 (n1 & E1 & F1)] [S2 (n2 & E2 & F2)]. split; [set_solver|].
  exists (n1 ++ n2). rewrite E2, E1, app_assoc. split; [done|].
  by apply Forall_app.
Qed.

Lemma topo_step_mono b b' s1 s2 : b ≤ b' → topo_step b s1 s2 → topo_step b' s1 s2.
Proof.
  intros Hb [S (n & E & F)]. split; [done|]. exists n. split; [done|].
  eapply Forall_impl; [exact F|]. simpl. intros. lia.
Qed.

Lemma buildTopo_total h :
  wf_heap h → ∀ fuel v st, v < length h → v < fuel →
  ∃ st', buildTopo fuel h v st = Some st' ∧ v ∈ st'.1 ∧ topo_step v st st'.
Proof.
  intros Hwf. induction fuel as [|fuel IH]; intros v st Hv Hfuel; [lia|].
  simpl. destruct (decide (v ∈ st.1)) as [Hin|Hnin].
  - exists st. split; [done|]. split; [done | apply topo_step_refl].
  - destruct (lookup_lt_is_Some_2 h v Hv) as [nd Hnd]. rewrite Hnd. simpl.
    destruct (Hwf v nd Hnd) as [Hlt _]. rewrite Forall_forall in Hlt.
    destruct (foldlM_total (λ s child, buildTopo fuel h child s) (topo_step v)
                (children nd) ({[v]} ∪ st.1, st.2))
      as (st1 & Hfold & Hsub & new & Enew & Fnew).
    + apply topo_step_refl.
    + apply topo_step_trans.
    + intros s c Hc _. specialize (Hlt c Hc).
      destruct (IH c s) as (s' & Hs' & _ & Hstep); [lia | lia |].
      exists s'. split; [done|]. eapply topo_step_mono; [|exact Hstep]. lia.
    + rewrite Hfold. simpl. eexists. split; [done|]. simpl in *.
      split; [set_solver|]. split; [set_solver|].
      exists (new ++ [v]). rewrite Enew, app_assoc. split; [done|].
      apply Forall_app. split; [done|]. by repeat constructor.
Qed.

End backward_lemmas.

(** ** backward from a root whose children are known *)

Section backward_root.

Lemma wf_heap_snoc h nd :
  wf_heap h → wf_node (length h) nd → wf_heap (h ++ [nd]).
Proof.
  intros Hwf Hnd i x Hi.
  apply lookup_app_Some in Hi as [Hi | [Hge Hi]]; [by apply Hwf|].
  apply list_lookup_singleton_Some in Hi as [Hi ->].
  by replace i with (length h) by lia.
Qed.

(** The run of [backward] from a node [y] whose children are all at most
    [b]: [y] is the last node of [topo], so it is the first one the loop
    handles, and the rest of the loop only touches nodes below [b]. *)
Lemma backward_root h y nd b fuel :
  wf_heap h → h !! y = Some nd → Forall (λ c, c ≤ b) (children nd) → y < fuel →
  ∃ h2 h3,
    backward_node (<[y := with_grad 1 nd]> h) y = Some h2 ∧
    backward fuel y h = Some h3 ∧
    keeps_from b h2 h3.
Proof.
  intros Hwf Hy Hb Hfuel.
  assert (y < length h) as Hylen by (by eapply lookup_lt_Some).
  destruct (Hwf y nd Hy) as [Hlt _].
  destruct fuel as [|fuel]; [lia|].
  unfold backward. simpl.
  destruct (decide (y ∈ (∅ : gset nat))) as [Hin|_]; [set_solver|].
  rewrite Hy. simpl.
  destruct (foldlM_total (λ s child, buildTopo fuel h child s)
              (topo_step (Nat.min b y)) (children nd) ({[y]} ∪ ∅, []))
    as (st1 & Hfold & _ & new & Enew & Fnew).
  { apply topo_step_refl. }
  { apply topo_step_trans. }
  { intros s c Hc _.
    rewrite Forall_forall in Hlt, Hb.
    specialize (Hlt c Hc). specialize (Hb c Hc).
    destruct (buildTopo_total h Hwf fuel c s) as (s' & Hs' & _ & Hstep); [lia | lia |].
    exists s'. split; [done|]. eapply topo_step_mono; [|exact Hstep]. lia. }
  rewrite Hfold. simpl. rewrite Enew. unfold set_grad. rewrite Hy. simpl.
  rewrite reverse_app. simpl.
  pose proof (frame_with_grad h y nd 1 Hy) as Hf1.
  destruct (backward_node_total (<[y := with_grad 1 nd]> h) y) as (h2 & Hh2 & Hk2).
  { by eapply frame_wf. }
  { by rewrite length_insert. }
  rewrite Hh2. simpl.
  destruct (backward_loop_total (reverse new) h2 b) as (h3 & Hh3 & Hk3).
  { eapply frame_wf; [|exact Hwf]. eapply frame_trans; [exact Hf1 | apply Hk2]. }
  { apply Forall_reverse. eapply Forall_impl; [exact Fnew|]. simpl. intros v Hv.
    rewrite (frame_length _ _ (proj1 Hk2)), length_insert. lia. }
  exists h2, h3. done.
Qed.

Lemma backward_total h this fuel :
  wf_heap h → this < length h → this < fuel →
  ∃ h', backward fuel this h = Some h' ∧ frame h h'.
Proof.
  intros Hwf Hthis Hfuel.
  destruct (lookup_lt_is_Some_2 h this Hthis) as [nd Hnd].
  destruct (backward_root h this nd this fuel) as (h2 & h3 & H2 & H3 & Hk); [done..| |done|].
  { destruct (Hwf this nd Hnd) as [Hlt _].
    eapply Forall_impl; [exact Hlt|]. simpl. intros. lia. }
  exists h3. split; [done|].
  eapply frame_trans; [by apply frame_with_grad|].
  eapply frame_trans; [|apply Hk].
  destruct (backward_node_total (<[this := with_grad 1 nd]> h) this) as (h2' & Hh2' & Hk2).
  { eapply frame_wf; [by apply frame_with_grad | done]. }
  { by rewrite length_insert. }
  rewrite H2 in Hh2'. simplify_eq. apply Hk2.
Qed.

End backward_root.

(** ** Claims about the autograd engine *)

Section autograd_claims.

Lemma mul_run h a b na nb :
  h !! a = Some na → h !! b = Some nb →
  mul a (OValue b) h =
    Some (length h, h ++ [mkValue (data na * data nb) 0 [a; b] [data nb; data na]]).
Proof.
  intros Ha Hb. unfold mul, toValue, mbind, M_bind, mret, M_ret, get_data.
  by rewrite Ha, Hb.
Qed.

Lemma relu_run h x nd :
  h !! x = Some nd →
  relu x h =
    Some (length h, h ++ [mkValue (Rmax 0 (data nd)) 0 [x]
                                  [if Rgt_dec (data nd) 0 then 1%R else 0%R]]).
Proof.
  intros Hx. unfold relu, mbind, M_bind, get_data. by rewrite Hx.
Qed.

(** C8.  [backward] returns on every well-formed store, creates no node, and
    leaves the [data], [children] and [localGrads] of every node of the
    store (so of every node reachable from the root) as they were: only
    [grad] fields are written. *)
Theorem backward_mutates_only_grad (h : Heap) (this : Ref) (fuel : nat) :
  wf_heap h → this < length h → this < fuel →
  ∃ h', backward fuel this h = Some h' ∧
        length h' = length h ∧
        ∀ i nd, h !! i = Some nd →
          ∃ nd', h' !! i = Some nd' ∧
                 data nd' = data nd ∧
                 children nd' = children nd ∧
                 localGrads nd' = localGrads nd.
Proof.
  intros Hwf Hthis Hfuel.
  destruct (backward_total h this fuel Hwf Hthis Hfuel) as (h' & Hb & Hf).
  exists h'. split; [done|]. split; [by apply frame_length|].
  intros i nd Hi.
  destruct (frame_lookup _ _ _ _ Hf Hi) as (nd' & Hi' & Hd & Hc & Hl).
  exists nd'. by rewrite Hd, Hc, Hl.
Qed.

(** Whatever [a.grad] was, [y = a.mul(a)] and [y.backward()] add the two
    contributions [a.data * 1] of the two child edges to it. *)
Lemma mul_self_backward_adds (h : Heap) (a : Ref) (nd : Value) (fuel : nat) :
  wf_heap h → h !! a = Some nd → length h < fuel →
  ∃ y h1 h2,
    mul a (OValue a) h = Some (y, h1) ∧
    backward fuel y h1 = Some h2 ∧
    grad_of h2 a = Some (grad nd + data nd * 1 + data nd * 1)%R.
Proof.
  intros Hwf Ha Hfuel.
  assert (a < length h) as Hlt by (by eapply lookup_lt_Some).
  set (ynd := mkValue (data nd * data nd) 0 [a; a] [data nd; data nd]).
  set (h1 := h ++ [ynd]).
  assert (wf_heap h1) as Hwf1.
  { apply wf_heap_snoc; [done|]. split; [|done]. simpl. by repeat constructor. }
  assert (h1 !! length h = Some ynd) as Hy by (by apply list_lookup_middle).
  assert (h1 !! a = Some nd) as Ha1 by (unfold h1; by rewrite lookup_app_l).
  destruct (backward_root h1 (length h) ynd a fuel) as (h2 & h3 & H2 & H3 & Hk);
    [done | done | simpl; by repeat constructor | done |].
  exists (length h), h1, h3. split; [by apply mul_run|]. split; [done|].
  unfold grad_of. rewrite (proj2 Hk a); [|done].
  revert H2. unfold backward_node.
  assert (length h1 = S (length h)) as Hlen1.
  { unfold h1. rewrite length_app. simpl. lia. }
  rewrite list_lookup_insert_eq by lia. simpl.
  unfold backward_child, add_grad.
  rewrite list_lookup_insert_eq by lia. simpl.
  rewrite list_lookup_insert_ne by lia. rewrite Ha1. simpl.
  rewrite list_lookup_insert_ne by lia.
  rewrite list_lookup_insert_eq by lia. simpl.
  rewrite list_lookup_insert_eq by (rewrite length_insert; lia). simpl.
  intros [= <-].
  by rewrite list_lookup_insert_eq by (rewrite !length_insert; lia).
Qed.

(** C1.  For a node [a] whose [grad] is 0, [y = a.mul(a)] followed by
    [y.backward()] gives [a.grad = 2 * a.data]: the two contributions of
    the node that is a child twice are added. *)
Theorem mul_self_backward (h : Heap) (a : Ref) (nd : Value) (fuel : nat) :
  wf_heap h → h !! a = Some nd → grad nd = 0%R → length h < fuel →
  ∃ y h1 h2,
    mul a (OValue a) h = Some (y, h1) ∧
    backward fuel y h1 = Some h2 ∧
    grad_of h2 a = Some (2 * data nd)%R.
Proof.
  intros Hwf Ha Hg Hfuel.
  destruct (mul_self_backward_adds h a nd fuel Hwf Ha Hfuel)
    as (y & h1 & h2 & Hmul & Hback & Hgrad).
  exists y, h1, h2. split; [done|]. split; [done|].
  rewrite Hgrad, Hg. f_equal. lra.
Qed.

(** C10.  For [x.data <= 0], [relu(x)] is a node with [data] 0 whose local
    gradient with respect to [x] is 0 (also at [x.data = 0]), and
    [backward] from it leaves [x.grad] as it was. *)
Theorem relu_nonpositive (h : Heap) (x : Ref) (nd : Value) (fuel : nat) :
  wf_heap h → h !! x = Some nd → (data nd <= 0)%R → length h < fuel →
  ∃ y h1 h2,
    relu x h = Some (y, h1) ∧
    h1 !! y = Some (mkValue 0 0 [x] [0%R]) ∧
    backward fuel y h1 = Some h2 ∧
    grad_of h2 x = Some (grad nd).
Proof.
  intros Hwf Hx Hd Hfuel.
  assert (x < length h) as Hlt by (by eapply lookup_lt_Some).
  set (ynd := mkValue 0 0 [x] [0%R]).
  set (h1 := h ++ [ynd]).
  assert (relu x h = Some (length h, h1)) as Hrun.
  { rewrite (relu_run h x nd Hx). unfold h1, ynd.
    rewrite Rmax_left by done.
    destruct (Rgt_dec (data nd) 0) as [Hgt|_]; [lra | done]. }
  assert (wf_heap h1) as Hwf1.
  { apply wf_heap_snoc; [done|]. split; [|done]. simpl. by repeat constructor. }
  assert (h1 !! length h = Some ynd) as Hy by (by apply list_lookup_middle).
  assert (h1 !! x = Some nd) as Hx1 by (unfold h1; by rewrite lookup_app_l).
  destruct (backward_root h1 (length h) ynd x fuel) as (h2 & h3 & H2 & H3 & Hk);
    [done | done | simpl; by repeat constructor | done |].
  exists (length h), h1, h3. split; [done|]. split; [done|]. split; [done|].
  unfold grad_of. rewrite (proj2 Hk x); [|done].
  revert H2. unfold backward_node.
  assert (length h1 = S (length h)) as Hlen1.
  { unfold h1. rewrite length_app. simpl. lia. }
  rewrite list_lookup_insert_eq by lia. simpl.
  unfold backward_child, add_grad.
  rewrite list_lookup_insert_eq by lia. simpl.
  rewrite list_lookup_insert_ne by lia. rewrite Hx1. simpl.
  intros [= <-].
  rewrite list_lookup_insert_eq by (rewrite !length_insert; lia). simpl.
  f_equal. lra.
Qed.

End autograd_claims.

(** ** Numbers *)

Section numbers.

Lemma js_pow_int (x : R) (z : Z) : js_pow x (IZR z) = powerRZ x z.
Proof.
  unfold js_pow.
  assert (Int_part (IZR z) = z) as ->.
  { symmetry. apply Int_part_spec. lra. }
  by destruct (Req_dec_T (IZR z) (IZR z)).
Qed.

Lemma js_pow_nat (x : R) (n : nat) : js_pow x (INR n) = (x ^ n)%R.
Proof. by rewrite INR_IZR_INZ, js_pow_int, pow_powerRZ. Qed.

Lemma js_pow_square (x : R) : js_pow x 2 = (x ^ 2)%R.
Proof. by rewrite js_pow_int. Qed.

(** [x ** -1] is [1 / x]. *)
Lemma js_pow_inverse (x : R) : js_pow x (-1) = (/ x)%R.
Proof. rewrite js_pow_int. simpl. by rewrite Rmult_1_r. Qed.

End numbers.

(** ** Claims about the training loop constants *)

Section optimizer_claims.

Lemma INR_NUM_STEPS : INR NUM_STEPS = 1000%R.
Proof. unfold NUM_STEPS. rewrite INR_IZR_INZ. f_equal. Qed.

(** C4, as the spec has it, fails at the last step: there [t] is
    [NUM_STEPS], the loop variable [step] is [NUM_STEPS - 1], and the rate
    the update uses is neither [LEARNING_RATE * (1 - t / NUM_STEPS)] nor 0. *)
Lemma learning_rate_last_step_not_zero :
  lrT (NUM_STEPS - 1) ≠ (LEARNING_RATE * (1 - INR NUM_STEPS / INR NUM_STEPS))%R
  ∧ lrT (NUM_STEPS - 1) ≠ 0%R.
Proof.
  assert (INR (NUM_STEPS - 1) = 999%R) as H999.
  { unfold NUM_STEPS. rewrite INR_IZR_INZ. f_equal. }
  unfold lrT. rewrite H999, INR_NUM_STEPS. unfold LEARNING_RATE. split; lra.
Qed.

(** C4, amended.  The [t]-th iteration of the training loop (counting from
    1) runs with [step = t - 1].  Its update of a parameter uses the rate
    [LEARNING_RATE * (1 - (t - 1) / NUM_STEPS)], which is [LEARNING_RATE] at
    the first step and [LEARNING_RATE / NUM_STEPS] at the last one and is
    positive throughout, and it divides the moments by [1 - BETA1 ^ t] and
    [1 - BETA2 ^ t]. *)
Theorem adam_rate_and_bias_correction
    (t : nat) (h : Heap) (m v : list R) (i : nat) (p : Ref) (nd : Value) (mi vi : R) :
  1 ≤ t ≤ NUM_STEPS →
  h !! p = Some nd → m !! i = Some mi → v !! i = Some vi →
  let mi' := (BETA1 * mi + (1 - BETA1) * grad nd)%R in
  let vi' := (BETA2 * vi + (1 - BETA2) * grad nd ^ 2)%R in
  let lr := (LEARNING_RATE * (1 - (INR t - 1) / INR NUM_STEPS))%R in
  let d := (data nd - lr * (mi' / (1 - BETA1 ^ t)) / (sqrt (vi' / (1 - BETA2 ^ t)) + EPS))%R in
  seq 0 NUM_STEPS !! (t - 1) = Some (t - 1)
  ∧ adam_param (t - 1) (h, (m, v)) (i, p) =
      Some (<[p := mkValue d 0 (children nd) (localGrads nd)]> h,
            (<[i := mi']> m, <[i := vi']> v))
  ∧ (0 < lr)%R
  ∧ lrT 0 = LEARNING_RATE
  ∧ lrT (NUM_STEPS - 1) = (LEARNING_RATE / INR NUM_STEPS)%R.
Proof.
  intros Ht Hp Hm Hv mi' vi' lr d.
  assert (INR (t - 1) = (INR t - 1)%R) as Hstep.
  { rewrite minus_INR by lia. simpl. lra. }
  assert (INR (NUM_STEPS - 1) = 999%R) as H999.
  { unfold NUM_STEPS. rewrite INR_IZR_INZ. f_equal. }
  split; [|split; [|split; [|split]]].
  - apply lookup_seq. lia.
  - unfold adam_param. rewrite Hp, Hm, Hv. simpl.
    replace (t - 1 + 1) with t by lia.
    rewrite !js_pow_nat, js_pow_square. unfold lrT. by rewrite Hstep.
  - unfold lr. rewrite INR_NUM_STEPS. unfold LEARNING_RATE.
    assert (INR t <= 1000)%R as Hle.
    { rewrite <- INR_NUM_STEPS. apply le_INR. lia. }
    apply Rmult_lt_0_compat; [lra|].
    apply Rlt_0_minus. apply Rmult_lt_reg_r with 1000%R; [lra|].
    unfold Rdiv. rewrite Rmult_assoc, Rinv_l by lra. lra.
  - unfold lrT. rewrite INR_NUM_STEPS. simpl. lra.
  - unfold lrT. rewrite H999, INR_NUM_STEPS. lra.
Qed.

(** C5, as the spec has it, fails: for the corpus of the single name "ab"
    the reserved id is 2 and the vocabulary size is 3. *)
Lemma BOS_is_not_vocabSize :
  BOS (uchars_of ["ab"%string]) = 2 ∧ vocabSize (uchars_of ["ab"%string]) = 3
  ∧ BOS (uchars_of ["ab"%string]) ≠ vocabSize (uchars_of ["ab"%string]).
Proof. vm_compute. repeat split; lia. Qed.

Lemma indexOf_range (uchars : list ascii) (ch : ascii) :
  (-1 ≤ indexOf uchars ch < Z.of_nat (length uchars))%Z.
Proof.
  induction uchars as [|c rest IH]; simpl; [lia|].
  destruct (decide (c = ch)); [lia|].
  destruct (decide (indexOf rest ch = (-1)%Z)); lia.
Qed.

(** C5, amended.  The reserved id is the number of real symbols, that is
    [vocabSize - 1]: it is above the id of every real symbol and it is the
    last index of the vocabulary. *)
Theorem BOS_is_last_vocabulary_id (uchars : list ascii) :
  vocabSize uchars = BOS uchars + 1
  ∧ ∀ ch, (indexOf uchars ch < Z.of_nat (BOS uchars))%Z.
Proof.
  split; [done|]. intros ch. unfold BOS. apply indexOf_range.
Qed.

End optimizer_claims.

(** ** Rules for store computations *)

Section wp_rules.

Lemma wp_ret {A} (a : A) h (Q : A → Heap → Prop) : Q a h → wp (mret a) h Q.
Proof. intros HQ. by exists a, h. Qed.

Lemma wp_bind {A B} (m : M A) (k : A → M B) h (P : A → Heap → Prop) Q :
  wp m h P →
  (∀ a h1, h `prefix_of` h1 → P a h1 → wp (k a) h1 Q) →
  wp (m ≫= k) h Q.
Proof.
  intros (a & h1 & Hm & Hp & Hwf & HP) Hk.
  destruct (Hk a h1 Hp HP) as (b & h2 & Hkb & Hp2 & Hwf2 & HQ).
  exists b, h2. unfold mbind, M_bind. rewrite Hm.
  split; [done|]. split; [by etrans|]. split; [auto | done].
Qed.

Lemma wp_consequence {A} (m : M A) h (P Q : A → Heap → Prop) :
  wp m h P → (∀ a h1, h `prefix_of` h1 → P a h1 → Q a h1) → wp m h Q.
Proof.
  intros (a & h1 & Hm & Hp & Hwf & HP) HPQ. exists a, h1. eauto.
Qed.

Lemma wp_lift {A} (o : option A) a h (Q : A → Heap → Prop) :
  o = Some a → Q a h → wp (lift o) h Q.
Proof. intros -> HQ. by exists a, h. Qed.

Lemma wp_new_Value d cs lgs h (Q : nat → Heap → Prop) :
  Forall (λ c, c < length h) cs → length lgs = length cs →
  Q (length h) (h ++ [mkValue d 0 cs lgs]) →
  wp (new_Value d cs lgs) h Q.
Proof.
  intros Hcs Hlen HQ. eexists _, _. split; [done|].
  split; [by apply prefix_app_r|]. split; [|done].
  intros Hwf. by apply wf_heap_snoc.
Qed.

Lemma wp_get_data v d h (Q : R → Heap → Prop) :
  data_of h v = Some d → Q d h → wp (get_data v) h Q.
Proof.
  unfold data_of, get_data. intros Hd HQ.
  destruct (h !! v) as [nd|] eqn:Hv; simplify_eq/=.
  exists (data nd), h. by rewrite Hv.
Qed.

Lemma wp_get_data_bind {B} v d (k : R → M B) h Q :
  data_of h v = Some d → wp (k d) h Q → wp (get_data v ≫= k) h Q.
Proof.
  intros Hd Hk.
  eapply wp_bind; [by apply (wp_get_data v d h (λ a h', a = d ∧ h' = h))|].
  by intros a h1 _ [-> ->].
Qed.

Lemma wp_lift_bind {A B} (o : option A) a (k : A → M B) h Q :
  o = Some a → wp (k a) h Q → wp (lift o ≫= k) h Q.
Proof.
  intros Ho Hk.
  eapply wp_bind; [by apply (wp_lift o a h (λ a' h', a' = a ∧ h' = h))|].
  by intros a' h1 _ [-> ->].
Qed.

Lemma wp_mapM {A B} (f : A → M B) (P : A → B → Heap → Prop) l h :
  (∀ x y h1 h2, P x y h1 → h1 `prefix_of` h2 → P x y h2) →
  (∀ x h1, x ∈ l → h `prefix_of` h1 → wp (f x) h1 (P x)) →
  wp (mapM f l) h (λ ys h', Forall2 (λ x y, P x y h') l ys).
Proof.
  intros Hstable. revert h.
  induction l as [|x l IH]; intros h Hf; simpl.
  - by apply wp_ret.
  - eapply wp_bind; [apply Hf; [left | done]|].
    intros y h1 Hp1 Hy.
    eapply wp_bind.
    { apply IH. intros x' h2 Hin Hp2. apply Hf; [by right | by etrans]. }
    intros ys h2 Hp2 Hys. apply wp_ret. constructor; [by eapply Hstable | done].
Qed.

(** The invariant of a fold speaks of the part of the list already
    consumed. *)
Lemma wp_foldM {A B} (f : A → B → M A) (I : list B → A → Heap → Prop) l a h :
  I [] a h →
  (∀ pre x post a1 h1, l = pre ++ x :: post → h `prefix_of` h1 → I pre a1 h1 →
     wp (f a1 x) h1 (I (pre ++ [x]))) →
  wp (foldM f a l) h (I l).
Proof.
  revert I a h. induction l as [|x l IH]; intros I a h H0 Hstep; simpl.
  - by apply wp_ret.
  - eapply wp_bind; [by apply (Hstep [] x l)|].
    intros a1 h1 Hp1 Ha1.
    apply (IH (λ pre, I (x :: pre))); [done|].
    intros pre y post a2 h2 -> Hp2 Ha2.
    apply (Hstep (x :: pre) y post); [done | by etrans | done].
Qed.

End wp_rules.

(** ** The numbers held by references *)

Section data_lemmas.

Lemma data_of_mono h h' v d :
  data_of h v = Some d → h `prefix_of` h' → data_of h' v = Some d.
Proof.
  unfold data_of. intros Hd Hp.
  destruct (h !! v) as [nd|] eqn:Hv; simplify_eq/=.
  by rewrite (prefix_lookup_Some _ _ _ _ Hv Hp).
Qed.

Lemma data_of_valid h v d : data_of h v = Some d → v < length h.
Proof.
  unfold data_of. intros Hd.
  destruct (h !! v) as [nd|] eqn:Hv; simplify_eq/=. by eapply lookup_lt_Some.
Qed.

Lemma data_of_snoc h nd : data_of (h ++ [nd]) (length h) = Some (data nd).
Proof. unfold data_of. by rewrite list_lookup_middle. Qed.

Lemma datas_mono h h' vs ds :
  datas h vs ds → h `prefix_of` h' → datas h' vs ds.
Proof.
  intros Hd Hp. eapply Forall2_impl; [exact Hd|].
  simpl. intros v d Hv. by eapply data_of_mono.
Qed.

Lemma operand_data_mono h h' o d :
  operand_data h o d → h `prefix_of` h' → operand_data h' o d.
Proof. destruct o; simpl; [apply data_of_mono | done]. Qed.

Lemma datas_lookup h vs ds i v :
  datas h vs ds → vs !! i = Some v → ∃ d, ds !! i = Some d ∧ data_of h v = Some d.
Proof.
  intros Hd Hv. destruct (Forall2_lookup_l _ _ _ _ _ Hd Hv) as (d & ? & ?). eauto.
Qed.

Lemma datas_length h vs ds : datas h vs ds → length vs = length ds.
Proof. apply Forall2_length. Qed.

End data_lemmas.

(** ** The operations of the class, on numbers *)

Section op_specs.

Lemma toValue_spec h o d :
  operand_data h o d → wp (toValue o) h (λ r h', data_of h' r = Some d).
Proof.
  destruct o as [v|x]; simpl; intros Hd.
  - by apply wp_ret.
  - subst. apply wp_new_Value; [done | done | apply data_of_snoc].
Qed.

Lemma binary_spec (op : R → R → R) (lg : R → R → list R) this o h x y :
  (∀ a b, length (lg a b) = 2) →
  data_of h this = Some x → operand_data h o y →
  wp (o' ← toValue o; a ← get_data this; b ← get_data o';
      new_Value (op a b) [this; o'] (lg a b)) h
     (λ r h', data_of h' r = Some (op x y)).
Proof.
  intros Hlg Hx Hy.
  eapply wp_bind; [apply toValue_spec; exact Hy|]. intros o' h1 Hp1 Ho'.
  eapply wp_get_data_bind; [eapply data_of_mono; [exact Hx | done]|].
  eapply wp_get_data_bind; [exact Ho'|].
  apply wp_new_Value; [|by rewrite Hlg | apply data_of_snoc].
  repeat constructor.
  - eapply data_of_valid, data_of_mono; [exact Hx | done].
  - eapply data_of_valid. exact Ho'.
Qed.

Lemma add_spec h this o x y :
  data_of h this = Some x → operand_data h o y →
  wp (add this o) h (λ r h', data_of h' r = Some (x + y)%R).
Proof. apply (binary_spec Rplus (λ _ _, [1%R; 1%R])). done. Qed.

Lemma mul_spec h this o x y :
  data_of h this = Some x → operand_data h o y →
  wp (mul this o) h (λ r h', data_of h' r = Some (x * y)%R).
Proof. apply (binary_spec Rmult (λ a b, [b; a])). done. Qed.

Lemma unary_spec (op : R → R) (lg : R → R) this h x :
  data_of h this = Some x →
  wp (a ← get_data this; new_Value (op a) [this] [lg a]) h
     (λ r h', data_of h' r = Some (op x)).
Proof.
  intros Hx.
  eapply wp_get_data_bind; [exact Hx|].
  apply wp_new_Value; [|done | apply data_of_snoc].
  repeat constructor. eapply data_of_valid. exact Hx.
Qed.

Lemma pow_spec h this n x :
  data_of h this = Some x →
  wp (pow this n) h (λ r h', data_of h' r = Some (js_pow x n)).
Proof. apply (unary_spec (λ a, js_pow a n) (λ a, (n * js_pow a (n - 1))%R)). Qed.

Lemma log_spec h this x :
  data_of h this = Some x →
  wp (log this) h (λ r h', data_of h' r = Some (ln x)).
Proof. apply (unary_spec ln (λ a, (1 / a)%R)). Qed.

Lemma exp_spec h this x :
  data_of h this = Some x →
  wp (exp this) h (λ r h', data_of h' r = Some (Rtrigo_def.exp x)).
Proof. apply (unary_spec Rtrigo_def.exp Rtrigo_def.exp). Qed.

Lemma relu_spec h this x :
  data_of h this = Some x →
  wp (relu this) h (λ r h', data_of h' r = Some (Rmax 0 x)).
Proof.
  apply (unary_spec (Rmax 0) (λ a, if Rgt_dec a 0 then 1%R else 0%R)).
Qed.

Lemma neg_spec h this x :
  data_of h this = Some x →
  wp (neg this) h (λ r h', data_of h' r = Some (x * -1)%R).
Proof. intros Hx. by apply mul_spec. Qed.

Lemma sub_spec h this o x y :
  data_of h this = Some x → operand_data h o y →
  wp (sub this o) h (λ r h', data_of h' r = Some (x + y * -1)%R).
Proof.
  intros Hx Hy. unfold sub.
  eapply wp_bind; [apply toValue_spec; exact Hy|]. intros o' h1 Hp1 Ho'.
  eapply wp_bind; [apply neg_spec; exact Ho'|]. simpl. intros on h2 Hp2 Hon.
  apply add_spec; [|exact Hon]. eapply data_of_mono; [exact Hx | by etrans].
Qed.

Lemma div_spec h this o x y :
  data_of h this = Some x → operand_data h o y →
  wp (div this o) h (λ r h', data_of h' r = Some (x * js_pow y (-1))%R).
Proof.
  intros Hx Hy. unfold div.
  eapply wp_bind; [apply toValue_spec; exact Hy|]. intros o' h1 Hp1 Ho'.
  eapply wp_bind; [apply pow_spec; exact Ho'|]. simpl. intros op h2 Hp2 Hop.
  apply mul_spec; [|exact Hop]. eapply data_of_mono; [exact Hx | by etrans].
Qed.

End op_specs.

(** ** Maps and reduces over vectors *)

Section loop_specs.

Lemma stable_data_of : stable (λ h v d, data_of h v = Some d).
Proof. intros h h' v d. apply data_of_mono. Qed.

Lemma stable_datas : stable datas.
Proof. intros h h' vs ds. apply datas_mono. Qed.

Lemma stable_Forall2 {A B} (rel : Heap → A → B → Prop) :
  stable rel → stable (λ h, Forall2 (rel h)).
Proof.
  intros Hs h h' l k Hlk Hp. eapply Forall2_impl; [exact Hlk|].
  intros a b Hab. by eapply Hs.
Qed.

(** A [map] whose body computes [g] on the numbers. *)
Lemma wp_mapM_rel {A B C D} (f : A → M B) (g : C → D)
    (rel : Heap → A → C → Prop) (out : Heap → B → D → Prop) l cs h :
  stable rel → stable out →
  Forall2 (rel h) l cs →
  (∀ x c h1, h `prefix_of` h1 → rel h1 x c → wp (f x) h1 (λ r h', out h' r (g c))) →
  wp (mapM f l) h (λ rs h', Forall2 (out h') rs (g <$> cs)).
Proof.
  intros Hrel Hout Hl. revert cs h Hl.
  induction l as [|x l IH]; intros cs h Hl Hf.
  - apply Forall2_nil_inv_l in Hl as ->. apply wp_ret. constructor.
  - apply Forall2_cons_inv_l in Hl as (c & cs' & Hxc & Hl & ->). simpl.
    eapply wp_bind; [by apply Hf|]. intros y h1 Hp1 Hy.
    eapply wp_bind.
    { apply IH; [eapply (stable_Forall2 rel Hrel); [exact Hl | done]|].
      intros x' c' h2 Hp2. apply Hf. by etrans. }
    intros ys h2 Hp2 Hys. apply wp_ret. simpl.
    constructor; [eapply Hout; [exact Hy | done] | done].
Qed.

(** A [reduce] whose body computes [g] on the numbers. *)
Lemma wp_foldM_rel {B C} (f : nat → B → M nat) (g : R → C → R)
    (rel : Heap → B → C → Prop) l cs a d0 h :
  stable rel →
  Forall2 (rel h) l cs → data_of h a = Some d0 →
  (∀ acc x c d h1, h `prefix_of` h1 → rel h1 x c → data_of h1 acc = Some d →
     wp (f acc x) h1 (λ r h', data_of h' r = Some (g d c))) →
  wp (foldM f a l) h (λ r h', data_of h' r = Some (fold_left g cs d0)).
Proof.
  intros Hrel Hl. revert cs h a d0 Hl.
  induction l as [|x l IH]; intros cs h a d0 Hl Ha Hf.
  - apply Forall2_nil_inv_l in Hl as ->. by apply wp_ret.
  - apply Forall2_cons_inv_l in Hl as (c & cs' & Hxc & Hl & ->). simpl.
    eapply wp_bind; [by apply Hf|]. intros a1 h1 Hp1 Ha1.
    apply IH; [eapply (stable_Forall2 rel Hrel); [exact Hl | done] | done |].
    intros acc x' c' d h2 Hp2. apply Hf. by etrans.
Qed.

End loop_specs.

(** ** softmax computes [softmax_data] *)

Section softmax_specs.

Lemma sum_values_spec h vs ds :
  datas h vs ds →
  wp (sum_values vs) h (λ r h', data_of h' r = Some (sum_data ds)).
Proof.
  intros Hd. unfold sum_values.
  eapply wp_bind.
  { apply (wp_new_Value 0 [] [] h (λ r h', h' = h ++ [mkValue 0 0 [] []] ∧ r = length h)); done. }
  intros z h1 Hp1 [-> ->].
  apply (wp_foldM_rel _ Rplus (λ h v d, data_of h v = Some d)).
  - apply stable_data_of.
  - by eapply datas_mono.
  - apply data_of_snoc.
  - intros acc e d dacc h1 _ He Hacc. by apply add_spec.
Qed.

Lemma get_datas_spec h vs ds :
  datas h vs ds → wp (mapM get_data vs) h (λ rs h', rs = ds ∧ h' = h).
Proof.
  intros Hd. induction Hd as [|v d vs ds Hv Hvs IH]; simpl.
  - by apply wp_ret.
  - eapply wp_get_data_bind; [exact Hv|].
    eapply wp_bind; [exact IH|]. intros rs h1 _ [-> ->]. by apply wp_ret.
Qed.

Lemma softmax_spec h logits ds :
  datas h logits ds →
  wp (softmax logits) h (λ ps h', datas h' ps (softmax_data ds)).
Proof.
  intros Hd. unfold softmax.
  eapply wp_bind; [by apply get_datas_spec|]. intros ? ? _ [-> ->].
  eapply wp_bind with (P := λ es h', datas h' es (exps_data ds)).
  { unfold exps_data. destruct (Math_max ds) as [maxVal|] eqn:Hmax.
    - apply (wp_mapM_rel _ _ (λ h v d, data_of h v = Some d)
                             (λ h v d, data_of h v = Some d));
        [apply stable_data_of | apply stable_data_of | done |].
      intros v d h1 _ Hv.
      eapply wp_bind; [by apply (sub_spec h1 v (ONumber maxVal) d maxVal)|].
      simpl. intros s h2 _ Hs. by apply exp_spec.
    - apply wp_ret. constructor. }
  intros exps h1 Hp1 Hexps.
  eapply wp_bind; [by apply sum_values_spec|]. simpl. intros total h2 Hp2 Htotal.
  apply (wp_mapM_rel _ _ (λ h v d, data_of h v = Some d ∧
                                   data_of h total = Some (sum_data (exps_data ds)))
                         (λ h v d, data_of h v = Some d)).
  - intros ha hb v d [H1 H2] Hp. split; by eapply data_of_mono.
  - apply stable_data_of.
  - eapply Forall2_impl; [by eapply datas_mono|]. simpl. intros v d Hv. done.
  - intros e d h3 _ [He Ht]. by apply div_spec.
Qed.

End softmax_specs.

(** ** [softmax_data] is a distribution and ignores shifts *)

Section softmax_numbers.

Lemma Rmax_shift (a b c : R) : Rmax (a + c) (b + c) = (Rmax a b + c)%R.
Proof. unfold Rmax. destruct (Rle_dec (a + c) (b + c)), (Rle_dec a b); lra. Qed.

Lemma fold_Rmax_shift (xs : list R) (x c : R) :
  fold_left Rmax ((λ d, d + c)%R <$> xs) (x + c)%R = (fold_left Rmax xs x + c)%R.
Proof.
  revert x. induction xs as [|y xs IH]; intros x; simpl; [done|].
  by rewrite Rmax_shift, IH.
Qed.

Lemma Math_max_shift (ds : list R) (c : R) :
  Math_max ((λ d, d + c)%R <$> ds) = (λ m, m + c)%R <$> Math_max ds.
Proof. destruct ds as [|d ds]; simpl; [done|]. by rewrite fold_Rmax_shift. Qed.

Lemma exps_data_shift (ds : list R) (c : R) :
  exps_data ((λ d, d + c)%R <$> ds) = exps_data ds.
Proof.
  unfold exps_data. rewrite Math_max_shift.
  destruct (Math_max ds) as [m|]; simpl; [|done].
  rewrite <- list_fmap_compose. apply list_fmap_ext.
  intros i d _. simpl. f_equal. lra.
Qed.

Lemma softmax_data_shift (ds : list R) (c : R) :
  softmax_data ((λ d, d + c)%R <$> ds) = softmax_data ds.
Proof. unfold softmax_data. by rewrite exps_data_shift. Qed.

Lemma exps_data_length (ds : list R) : length (exps_data ds) = length ds.
Proof.
  unfold exps_data. destruct ds as [|d ds]; simpl; [done|].
  by rewrite length_fmap.
Qed.

Lemma softmax_data_length (ds : list R) : length (softmax_data ds) = length ds.
Proof. unfold softmax_data. by rewrite length_fmap, exps_data_length. Qed.

Lemma exps_data_pos (ds : list R) : Forall (λ e, (0 < e)%R) (exps_data ds).
Proof.
  unfold exps_data. destruct (Math_max ds) as [m|]; [|constructor].
  apply Forall_fmap, Forall_forall. intros d _. simpl. apply exp_pos.
Qed.

Lemma fold_left_Rplus (l : list R) (a : R) : fold_left Rplus l a = (a + Rsum l)%R.
Proof.
  revert a. induction l as [|x l IH]; intros a; simpl; [lra|].
  rewrite IH. lra.
Qed.

Lemma sum_data_Rsum (l : list R) : sum_data l = Rsum l.
Proof. unfold sum_data. rewrite fold_left_Rplus. lra. Qed.

Lemma Rsum_pos (l : list R) : l ≠ [] → Forall (λ e, (0 < e)%R) l → (0 < Rsum l)%R.
Proof.
  intros Hne Hl. induction Hl as [|x l Hx Hl IH]; [done|]. simpl.
  destruct l as [|y l]; [simpl; lra|].
  assert (0 < Rsum (y :: l))%R by (by apply IH). lra.
Qed.

Lemma Rsum_scale (l : list R) (c : R) : Rsum ((λ e, e * c)%R <$> l) = (Rsum l * c)%R.
Proof. unfold Rsum. induction l as [|x l IH]; csimpl; [lra|]. rewrite IH. lra. Qed.

Lemma softmax_data_total_pos (ds : list R) :
  ds ≠ [] → (0 < sum_data (exps_data ds))%R.
Proof.
  intros Hne. rewrite sum_data_Rsum. apply Rsum_pos; [|apply exps_data_pos].
  intros Hnil. apply Hne. apply nil_length_inv.
  by rewrite <- exps_data_length, Hnil.
Qed.

Lemma softmax_data_nonneg (ds : list R) : Forall (λ q, (0 <= q)%R) (softmax_data ds).
Proof.
  destruct ds as [|d ds]; [constructor|].
  unfold softmax_data. apply Forall_fmap.
  eapply Forall_impl; [apply exps_data_pos|]. simpl. intros e He.
  rewrite js_pow_inverse. apply Rlt_le, Rmult_lt_0_compat; [done|].
  apply Rinv_0_lt_compat. by apply softmax_data_total_pos.
Qed.

Lemma softmax_data_sum (ds : list R) : ds ≠ [] → Rsum (softmax_data ds) = 1%R.
Proof.
  intros Hne. unfold softmax_data.
  rewrite Rsum_scale, js_pow_inverse, <- sum_data_Rsum.
  apply Rinv_r. apply Rgt_not_eq. by apply softmax_data_total_pos.
Qed.

End softmax_numbers.

(** ** Claims about softmax *)

Section softmax_claims.

(** C3.  On a non-empty list of nodes [softmax] returns a list of the same
    length whose numbers are non-negative and sum to 1. *)
Theorem softmax_is_distribution (h : Heap) (logits : list nat) (ds : list R) :
  logits ≠ [] → datas h logits ds →
  ∃ ps h' qs,
    softmax logits h = Some (ps, h') ∧
    length ps = length logits ∧
    datas h' ps qs ∧
    Forall (λ q, (0 <= q)%R) qs ∧
    Rsum qs = 1%R.
Proof.
  intros Hne Hd.
  destruct (softmax_spec h logits ds Hd) as (ps & h' & Hrun & _ & _ & Hps).
  exists ps, h', (softmax_data ds). split; [done|].
  split.
  { by rewrite (datas_length _ _ _ Hps), softmax_data_length, (datas_length _ _ _ Hd). }
  split; [done|]. split; [apply softmax_data_nonneg|].
  apply softmax_data_sum. intros ->. apply Forall2_nil_inv_r in Hd. done.
Qed.

(** C9.  If the numbers of one list of logits are those of another list
    with [c] added to each, [softmax] returns the same numbers on both. *)
Theorem softmax_shift_invariant (h1 h2 : Heap) (logits1 logits2 : list nat)
    (ds : list R) (c : R) :
  datas h1 logits1 ds →
  datas h2 logits2 ((λ d, d + c)%R <$> ds) →
  ∃ ps1 h1' ps2 h2' qs,
    softmax logits1 h1 = Some (ps1, h1') ∧
    softmax logits2 h2 = Some (ps2, h2') ∧
    datas h1' ps1 qs ∧
    datas h2' ps2 qs.
Proof.
  intros Hd1 Hd2.
  destruct (softmax_spec h1 logits1 ds Hd1) as (ps1 & h1' & Hrun1 & _ & _ & Hps1).
  destruct (softmax_spec h2 logits2 _ Hd2) as (ps2 & h2' & Hrun2 & _ & _ & Hps2).
  rewrite softmax_data_shift in Hps2.
  by exists ps1, h1', ps2, h2', (softmax_data ds).
Qed.

End softmax_claims.

(** ** linear, rmsnorm and the residual additions *)

Section block_specs.

Lemma lookup_imap_list {A} (l : list A) i p :
  imap_list l !! i = Some p ↔ p.1 = i ∧ l !! i = Some p.2.
Proof.
  destruct p as [j a]. unfold imap_list. rewrite lookup_zip_Some, lookup_seq. simpl. split.
  - intros [[H1 H2] H3]. split; [lia | done].
  - intros [H1 H2]. split; [|done]. split; [lia|]. by eapply lookup_lt_Some.
Qed.

Lemma length_imap_list {A} (l : list A) : length (imap_list l) = length l.
Proof. unfold imap_list. rewrite length_zip, length_seq. lia. Qed.

(** Relating an indexed traversal of [l] to a list of numbers of the same
    length. *)
Lemma Forall2_imap_list {A C} (Q : nat → A → C → Prop) (l : list A) (cs : list C) :
  length l = length cs →
  (∀ i a c, l !! i = Some a → cs !! i = Some c → Q i a c) →
  Forall2 (λ ia c, Q ia.1 ia.2 c) (imap_list l) cs.
Proof.
  intros Hlen HQ. apply Forall2_same_length_lookup.
  split; [by rewrite length_imap_list|].
  intros i [j a] c Hia Hc. apply lookup_imap_list in Hia as [Hj Ha].
  simpl in *. subst j. by apply HQ.
Qed.

Lemma stable_paired x : stable (paired x).
Proof.
  intros h h' iw ab [Hw (xi & Hxi & Hx)] Hp.
  split; [by eapply data_of_mono|]. exists xi. split; [done|].
  by eapply data_of_mono.
Qed.

Lemma paired_zip h w x wd xd :
  datas h w wd → datas h x xd → length wd ≤ length xd →
  Forall2 (paired x h) (imap_list w) (zip wd xd).
Proof.
  intros Hw Hx Hlen.
  apply (Forall2_imap_list (λ i wi ab, paired x h (i, wi) ab)).
  - rewrite length_zip, (datas_length _ _ _ Hw). lia.
  - intros i wi [a b] Hwi Hab. apply lookup_zip_Some in Hab as [Ha Hb].
    simpl in *. split; simpl.
    + destruct (datas_lookup _ _ _ _ _ Hw Hwi) as (a' & Ha' & Hda). by simplify_eq.
    + destruct (Forall2_lookup_r _ _ _ _ _ Hx Hb) as (xi & Hxi & Hdx). eauto.
Qed.

Lemma wp_zero h (Q : nat → Heap → Prop) :
  (∀ z h', h `prefix_of` h' → data_of h' z = Some 0%R → Q z h') →
  wp (new_Value 0 [] []) h Q.
Proof.
  intros HQ. apply wp_new_Value; [done | done|].
  apply HQ; [by apply prefix_app_r | apply data_of_snoc].
Qed.

Lemma dot_step_spec h x acc iw ab d :
  paired x h iw ab → data_of h acc = Some d →
  wp (dot_step x acc iw) h (λ r h', data_of h' r = Some (d + ab.1 * ab.2)%R).
Proof.
  intros [Hw (xi & Hxi & Hx)] Hacc. unfold dot_step.
  eapply wp_lift_bind; [exact Hxi|].
  eapply wp_bind; [apply mul_spec; [exact Hw | exact Hx]|].
  simpl. intros p h1 Hp1 Hp.
  apply add_spec; [by eapply data_of_mono | exact Hp].
Qed.

Lemma dot_spec h w x wd xd :
  datas h w wd → datas h x xd → length wd ≤ length xd →
  wp (dot w x) h (λ r h', data_of h' r = Some (dot_data wd xd)).
Proof.
  intros Hw Hx Hlen. unfold dot.
  eapply wp_bind; [apply (wp_zero h (λ z h', h `prefix_of` h' ∧ data_of h' z = Some 0%R)); done|].
  intros z h1 _ [Hp1 Hz].
  apply (wp_foldM_rel _ (λ s p, s + p.1 * p.2)%R (paired x)).
  - apply stable_paired.
  - apply paired_zip; [by eapply datas_mono | by eapply datas_mono | done].
  - done.
  - intros acc iw ab d h2 _ Hiw Hacc. by apply dot_step_spec.
Qed.

Lemma linear_spec h x w xd wd :
  datas h x xd → Forall2 (datas h) w wd →
  Forall (λ wRow, length wRow ≤ length xd) wd →
  wp (linear x w) h (λ y h', datas h' y (linear_data xd wd)).
Proof.
  intros Hx Hw Hlen. unfold linear.
  apply (wp_mapM_rel _ _ (λ h row rowd, datas h row rowd ∧ datas h x xd ∧
                                        length rowd ≤ length xd)
                         (λ h v d, data_of h v = Some d)).
  - intros ha hb row rowd (H1 & H2 & H3) Hp.
    split; [by eapply datas_mono|]. split; [by eapply datas_mono | done].
  - apply stable_data_of.
  - apply Forall2_same_length_lookup. split; [by eapply Forall2_length|].
    intros i row rowd Hrow Hrowd. rewrite Forall_lookup in Hlen.
    split; [by eapply Forall2_lookup_lr|]. split; [done | by eapply Hlen].
  - intros row rowd h1 _ (H1 & H2 & H3). by apply dot_spec.
Qed.

Lemma rmsnorm_spec h x xd :
  datas h x xd →
  wp (rmsnorm x) h (λ y h', datas h' y (rmsnorm_data xd)).
Proof.
  intros Hx. unfold rmsnorm.
  eapply wp_bind; [apply (wp_zero h (λ z h', h `prefix_of` h' ∧ data_of h' z = Some 0%R)); done|].
  intros z h1 _ [Hp1 Hz].
  eapply wp_bind.
  { apply (wp_foldM_rel _ (λ s xi, s + xi * xi)%R (λ h v d, data_of h v = Some d));
      [apply stable_data_of | by eapply datas_mono | exact Hz |].
    intros acc xi d dacc h2 _ Hxi Hacc.
    eapply wp_bind; [apply mul_spec; [exact Hxi | exact Hxi]|].
    simpl. intros sq h3 Hp3 Hsq.
    apply add_spec; [by eapply data_of_mono | exact Hsq]. }
  simpl. intros ss h2 Hp2 Hss.
  eapply wp_bind; [apply (div_spec h2 ss (ONumber (INR (length x))));
                     [exact Hss | reflexivity]|].
  simpl. intros ms h3 Hp3 Hms.
  eapply wp_bind; [apply (add_spec h3 ms (ONumber 1e-5)); [exact Hms | reflexivity]|].
  simpl. intros e h4 Hp4 He.
  eapply wp_bind; [apply pow_spec; exact He|].
  simpl. intros scale h5 Hp5 Hscale.
  unfold rmsnorm_data. rewrite <- (datas_length _ _ _ Hx).
  match type of Hscale with
  | _ = Some ?s =>
      apply (wp_mapM_rel _ _ (λ h v d, data_of h v = Some d ∧ data_of h scale = Some s)
                             (λ h v d, data_of h v = Some d))
  end.
  - intros ha hb v d [H1 H2] Hp. split; by eapply data_of_mono.
  - apply stable_data_of.
  - assert (h `prefix_of` h5) as Hp by (repeat (etrans; [eassumption|]); done).
    eapply Forall2_impl; [by eapply datas_mono|]. simpl. intros v d Hv. done.
  - intros xi d h6 _ [Hxi Hsc]. by apply mul_spec.
Qed.

Lemma add_residual_spec h x res xd rd :
  datas h x xd → datas h res rd → length xd ≤ length rd →
  wp (add_residual x res) h (λ y h', datas h' y (add_residual_data xd rd)).
Proof.
  intros Hx Hres Hlen. unfold add_residual.
  apply (wp_mapM_rel _ _ (paired res) (λ h v d, data_of h v = Some d)).
  - apply stable_paired.
  - apply stable_data_of.
  - by apply paired_zip.
  - intros ia ab h1 _ [Ha (r & Hr & Hdr)].
    eapply wp_lift_bind; [exact Hr|]. by apply add_spec.
Qed.

End block_specs.

(** ** One attention head *)

Section attention_specs.

Lemma mat_rel_mono h h' w wd : mat_rel h w wd → h `prefix_of` h' → mat_rel h' w wd.
Proof. apply (stable_Forall2 datas stable_datas). Qed.

Lemma length_slice {A} (l : list A) s e :
  length (slice l s e) = Nat.min (e - s) (length l - s).
Proof. unfold slice. by rewrite length_take, length_drop. Qed.

Lemma datas_slice h vs ds s e :
  datas h vs ds → datas h (slice vs s e) (slice ds s e).
Proof. intros Hd. unfold slice. by apply Forall2_take, Forall2_drop. Qed.

Lemma mat_rel_slice h w wd s e :
  mat_rel h w wd →
  mat_rel h ((λ ki, slice ki s e) <$> w) ((λ ki, slice ki s e) <$> wd).
Proof.
  intros Hw. apply Forall2_fmap. eapply Forall2_impl; [exact Hw|].
  intros vs ds. apply datas_slice.
Qed.

(** A [map] over a list of indices, with facts [ctx] about the store that
    the body needs. *)
Lemma wp_mapM_ctx {A B D} (f : A → M B) (g : A → D) (ctx : Heap → Prop)
    (ok : A → Prop) (out : Heap → B → D → Prop) l h :
  (∀ h1 h2, ctx h1 → h1 `prefix_of` h2 → ctx h2) → stable out →
  ctx h → Forall ok l →
  (∀ x h1, ctx h1 → ok x → wp (f x) h1 (λ r h', out h' r (g x))) →
  wp (mapM f l) h (λ rs h', Forall2 (out h') rs (g <$> l)).
Proof.
  intros Hctx Hout Hc Hl Hf.
  apply (wp_mapM_rel f g (λ h x c, x = c ∧ ok x ∧ ctx h) out).
  - intros h1 h2 x c (-> & Hok & Hc1) Hp. eauto.
  - done.
  - apply Forall2_same_length_lookup. split; [done|].
    intros i x c Hx Hc'. simplify_eq. rewrite Forall_lookup in Hl. eauto.
  - intros x c h1 _ (-> & Hok & Hc1). by apply Hf.
Qed.

Lemma stable_weighted vH j : stable (weighted vH j).
Proof.
  intros h h' tw ab [Hw (vt & vtj & H1 & H2 & H3)] Hp.
  split; [by eapply data_of_mono|]. exists vt, vtj.
  split; [done|]. split; [done | by eapply data_of_mono].
Qed.

Lemma weighted_zip h ws wds vH vHd j :
  datas h ws wds → mat_rel h vH vHd →
  length wds ≤ length vHd → Forall (λ vt, j < length vt) vHd →
  Forall2 (weighted vH j h) (imap_list ws) (zip wds (column j vHd)).
Proof.
  intros Hw Hv Hlen Hj.
  apply (Forall2_imap_list (λ t w ab, weighted vH j h (t, w) ab)).
  - unfold column. rewrite length_zip, length_fmap, (datas_length _ _ _ Hw). lia.
  - intros t w [a b] Hwt Hab. apply lookup_zip_Some in Hab as [Ha Hb].
    unfold column in Hb. rewrite list_lookup_fmap in Hb.
    destruct (vHd !! t) as [vtd|] eqn:Hvtd; simplify_eq/=.
    split; simpl.
    + destruct (datas_lookup _ _ _ _ _ Hw Hwt) as (a' & Ha' & Hda). by simplify_eq.
    + destruct (Forall2_lookup_r _ _ _ _ _ Hv Hvtd) as (vt & Hvt & Hdvt).
      rewrite Forall_lookup in Hj. specialize (Hj t vtd Hvtd).
      destruct (lookup_lt_is_Some_2 vtd j Hj) as [b Hb].
      destruct (Forall2_lookup_r _ _ _ _ _ Hdvt Hb) as (vtj & Hvtj & Hdj).
      exists vt, vtj. rewrite Hb. done.
Qed.

Lemma attn_head_spec h q keys_li values_li qd kd vd hd :
  datas h q qd → mat_rel h keys_li kd → mat_rel h values_li vd →
  Forall (λ k, length qd ≤ length k) kd →
  length kd ≤ length vd →
  Forall (λ v, hd * HEAD_DIM + HEAD_DIM ≤ length v) vd →
  wp (attn_head q keys_li values_li hd) h
     (λ r h', datas h' r (attn_head_data qd kd vd hd)).
Proof.
  intros Hq Hk Hv Hqk Hkv Hvlen. unfold attn_head, attn_head_data.
  set (hs := hd * HEAD_DIM).
  set (qH := slice q hs (hs + HEAD_DIM)).
  set (qHd := slice qd hs (hs + HEAD_DIM)).
  set (kH := (λ ki, slice ki hs (hs + HEAD_DIM)) <$> keys_li).
  set (kHd := (λ ki, slice ki hs (hs + HEAD_DIM)) <$> kd).
  set (vH := (λ vi, slice vi hs (hs + HEAD_DIM)) <$> values_li).
  set (vHd := (λ vi, slice vi hs (hs + HEAD_DIM)) <$> vd).
  assert (datas h qH qHd) as HqH by (by apply datas_slice).
  assert (mat_rel h kH kHd) as HkH by (by apply mat_rel_slice).
  assert (mat_rel h vH vHd) as HvH by (by apply mat_rel_slice).
  eapply wp_bind.
  { apply (wp_mapM_rel _
             (λ kt, dot_data qHd kt * js_pow (sqrt (INR HEAD_DIM)) (-1))%R
             (λ h kt ktd, datas h kt ktd ∧ datas h qH qHd ∧ length qHd ≤ length ktd)
             (λ h v d, data_of h v = Some d)).
    - intros ha hb kt ktd (H1 & H2 & H3) Hp.
      split; [by eapply datas_mono|]. split; [by eapply datas_mono | done].
    - apply stable_data_of.
    - apply Forall2_same_length_lookup. split; [by eapply Forall2_length|].
      intros i kt ktd Hkt Hktd.
      split; [exact (Forall2_lookup_lr _ _ _ _ _ _ HkH Hkt Hktd)|]. split; [done|].
      unfold kHd in Hktd. rewrite list_lookup_fmap in Hktd.
      destruct (kd !! i) as [ki|] eqn:Hki; simplify_eq/=.
      rewrite Forall_lookup in Hqk. specialize (Hqk i ki Hki).
      unfold qHd. rewrite !length_slice. lia.
    - intros kt ktd h1 _ (H1 & H2 & H3).
      eapply wp_bind; [by apply dot_spec|]. intros d h2 _ Hd. cbv beta in Hd.
      by apply div_spec. }
  intros attnLogits h1 Hp1 Hlogits. cbv beta in Hlogits.
  eapply wp_bind; [apply softmax_spec; exact Hlogits|].
  intros attnWeights h2 Hp2 Hweights. cbv beta in Hweights.
  match type of Hweights with
  | datas _ _ ?wds => set (wdsv := wds) in *
  end.
  assert (length wdsv ≤ length vHd) as Hwv.
  { unfold wdsv, vHd, kHd. by rewrite softmax_data_length, !length_fmap. }
  assert (Forall (λ vt, length vt = HEAD_DIM) vHd) as HvHlen.
  { unfold vHd. apply Forall_fmap. eapply Forall_impl; [exact Hvlen|].
    intros v Hvl. cbv beta in *. unfold compose. rewrite length_slice. unfold hs. lia. }
  apply (wp_mapM_ctx _ (λ j, dot_data wdsv (column j vHd))
           (λ h, datas h attnWeights wdsv ∧ mat_rel h vH vHd)
           (λ j, j < HEAD_DIM) (λ h v d, data_of h v = Some d)).
  - intros ha hb [H1 H2] Hp. split; [by eapply datas_mono | by eapply mat_rel_mono].
  - apply stable_data_of.
  - split; [done|]. eapply mat_rel_mono; [exact HvH | by etrans].
  - apply Forall_forall. intros j Hj. apply elem_of_seq in Hj. lia.
  - intros j h3 [Hw3 Hv3] Hj.
    eapply wp_bind;
      [apply (wp_zero h3 (λ z h', h3 `prefix_of` h' ∧ data_of h' z = Some 0%R)); done|].
    intros z h4 _ [Hp4 Hz].
    apply (wp_foldM_rel _ (λ s p, s + p.1 * p.2)%R (weighted vH j)).
    + apply stable_weighted.
    + apply weighted_zip; [by eapply datas_mono | by eapply mat_rel_mono | done |].
      eapply Forall_impl; [exact HvHlen|]. intros vt Hvt. cbv beta in *. lia.
    + done.
    + intros acc tw ab d h5 _ [Hw (vt & vtj & Hvt & Hvtj & Hdj)] Hacc.
      eapply wp_lift_bind; [exact Hvt|].
      eapply wp_lift_bind; [exact Hvtj|].
      eapply wp_bind; [apply mul_spec; [exact Hw | exact Hdj]|].
      intros p h6 Hp6 Hp. cbv beta in Hp.
      apply add_spec; [by eapply data_of_mono | exact Hp].
Qed.

End attention_specs.

(** ** Lengths of the vectors of the forward pass *)

Section shape_lemmas.

Lemma rmsnorm_data_length x : length (rmsnorm_data x) = length x.
Proof. unfold rmsnorm_data. by rewrite length_fmap. Qed.

Lemma linear_data_length x w : length (linear_data x w) = length w.
Proof. unfold linear_data. by rewrite length_fmap. Qed.

Lemma add_residual_data_length x res :
  length (add_residual_data x res) = Nat.min (length x) (length res).
Proof. unfold add_residual_data. by rewrite length_fmap, length_zip. Qed.

Lemma attn_head_data_length q kl vl hd :
  length (attn_head_data q kl vl hd) = HEAD_DIM.
Proof. unfold attn_head_data. by rewrite length_fmap, length_seq. Qed.

Lemma heads_width : N_HEAD * HEAD_DIM = N_EMBD.
Proof. reflexivity. Qed.

Lemma head_bound hd : hd < N_HEAD → hd * HEAD_DIM + HEAD_DIM ≤ N_EMBD.
Proof.
  rewrite <- heads_width. change HEAD_DIM with 4. change N_HEAD with 4. lia.
Qed.

Lemma concat_heads_length {A} (f : nat → list A) n m :
  (∀ i, length (f i) = m) → length (concat (f <$> seq 0 n)) = n * m.
Proof.
  intros Hf. generalize 0. induction n as [|n IH]; intros s; csimpl; [done|].
  by rewrite length_app, Hf, IH.
Qed.

Lemma rows_le {A} n m k (w : list (list A)) :
  rows n m w → m ≤ k → Forall (λ r, length r ≤ k) w.
Proof.
  intros [_ Hw] Hmk. eapply Forall_impl; [exact Hw|]. intros r Hr. simpl in *. lia.
Qed.

Lemma mat_rel_rows h w wd n m : mat_rel h w wd → rows n m w → rows n m wd.
Proof.
  intros Hrel [Hlen Hrows]. split; [by rewrite <- (Forall2_length _ _ _ Hrel)|].
  apply Forall_lookup. intros i rd Hrd.
  destruct (Forall2_lookup_r _ _ _ _ _ Hrel Hrd) as (r & Hr & Hrrd).
  rewrite Forall_lookup in Hrows. rewrite <- (datas_length _ _ _ Hrrd). eauto.
Qed.

Lemma cache_rel_mono h h' c cd :
  cache_rel h c cd → h `prefix_of` h' → cache_rel h' c cd.
Proof. apply (stable_Forall2 mat_rel). intros ? ? ? ?. apply mat_rel_mono. Qed.

Lemma sd_rel_mono h h' sd sdd : sd_rel h sd sdd → h `prefix_of` h' → sd_rel h' sd sdd.
Proof.
  intros Hsd Hp. eapply Forall2_impl; [exact Hsd|].
  intros kv kvd [Hk Hm]. split; [done | by eapply mat_rel_mono].
Qed.

Lemma sd_rel_get h sd sdd name n m :
  sd_rel h sd sdd → has_mat sd name n m →
  ∃ w, sd_get sd name = Some w ∧ mat_rel h w (mat sdd name) ∧ rows n m (mat sdd name).
Proof.
  unfold has_mat, mat. intros Hsd. induction Hsd as [|[k w] [kd wd] sd sdd [Hk Hw] _ IH].
  - done.
  - simpl in *. subst kd. destruct (decide (k = name)); [|done].
    intros Hrows. exists w. split; [done|]. split; [done|]. by eapply mat_rel_rows.
Qed.

Lemma datas_concat h l k : Forall2 (datas h) l k → datas h (concat l) (concat k).
Proof.
  induction 1 as [|vs ds l k Hd _ IH]; simpl; [constructor|]. by apply Forall2_app.
Qed.

Lemma push_at_rel h c cd li k kd :
  cache_rel h c cd → datas h k kd → li < length cd →
  ∃ c' kl kld,
    push_at li k c = Some c' ∧ cache_rel h c' (push_data li kd cd) ∧
    c' !! li = Some kl ∧ mat_rel h kl (layer_of (push_data li kd cd) li) ∧
    cd !! li = Some kld ∧ layer_of (push_data li kd cd) li = kld ++ [kd] ∧
    push_data li kd cd = <[li := kld ++ [kd]]> cd.
Proof.
  intros Hc Hk Hli.
  destruct (lookup_lt_is_Some_2 cd li Hli) as [kld Hkld].
  destruct (Forall2_lookup_r _ _ _ _ _ Hc Hkld) as (kl & Hkl & Hrel).
  assert (mat_rel h (kl ++ [k]) (kld ++ [kd])) as Hnew.
  { apply Forall2_app; [done|]. by repeat constructor. }
  assert (li < length c) as Hlic by (by eapply lookup_lt_Some).
  exists (<[li := kl ++ [k]]> c), (kl ++ [k]), kld.
  unfold push_data, push_at, layer_of. rewrite Hkl, Hkld. simpl.
  rewrite !list_lookup_insert_eq by done. simpl.
  split; [done|]. split; [by apply Forall2_insert|]. done.
Qed.

Lemma relu_map_spec h x xd :
  datas h x xd → wp (mapM relu x) h (λ y h', datas h' y (Rmax 0 <$> xd)).
Proof.
  intros Hx.
  apply (wp_mapM_rel _ _ (λ h v d, data_of h v = Some d) (λ h v d, data_of h v = Some d));
    [apply stable_data_of | apply stable_data_of | done |].
  intros v d h1 _ Hv. by apply relu_spec.
Qed.

End shape_lemmas.

(** Bring what is known of the store [h] to a store that extends it. *)
Ltac advance Hp :=
  lazymatch type of Hp with
  | ?h `prefix_of` ?h1 =>
      repeat match goal with
      | H : data_of h _ = Some _ |- _ => apply (λ X, data_of_mono _ _ _ _ X Hp) in H
      | H : datas h _ _ |- _ => apply (λ X, datas_mono _ _ _ _ X Hp) in H
      | H : mat_rel h _ _ |- _ => apply (λ X, mat_rel_mono _ _ _ _ X Hp) in H
      | H : cache_rel h _ _ |- _ => apply (λ X, cache_rel_mono _ _ _ _ X Hp) in H
      | H : sd_rel h _ _ |- _ => apply (λ X, sd_rel_mono _ _ _ _ X Hp) in H
      end; clear Hp
  end.

(** ** One layer computes [gpt_layer_data] *)

Section forward_specs.

Lemma cache_ok_lookup (kd vd : CacheD) li :
  cache_ok kd vd → li < N_LAYER →
  ∃ kl vl, kd !! li = Some kl ∧ vd !! li = Some vl ∧ layer_ok kl vl.
Proof.
  intros [Hlen Hok] Hli.
  destruct (lookup_lt_is_Some_2 kd li) as [kl Hkl]; [lia|].
  destruct (Forall2_lookup_l _ _ _ _ _ Hok Hkl) as (vl & Hvl & Hl). eauto.
Qed.

Lemma gpt_layer_spec h sd sdd x keys values xd kd vd li :
  sd_rel h sd sdd → layer_shape sd li →
  datas h x xd → length xd = N_EMBD →
  cache_rel h keys kd → cache_rel h values vd → cache_ok kd vd → li < N_LAYER →
  wp (gpt_layer sd (x, keys, values) li) h
     (λ r h', state_rel h' r (gpt_layer_data sdd (xd, kd, vd) li)).
Proof.
  intros Hsd (Swq & Swk & Swv & Swo & Sfc1 & Sfc2) Hx Hxlen Hkeys Hvals Hok Hli.
  destruct (cache_ok_lookup kd vd li Hok Hli) as (kl0 & vl0 & Hkl0 & Hvl0 & Hlen0 & Hk0 & Hv0).
  assert (li < length kd) as Hlik by (by eapply lookup_lt_Some).
  assert (li < length vd) as Hliv by (by eapply lookup_lt_Some).
  unfold gpt_layer, gpt_layer_data. cbv zeta. simpl fst. simpl snd.
  set (x1d := rmsnorm_data xd).
  set (qd := linear_data x1d (mat sdd (layer_key li "attn_wq"))).
  set (kdv := linear_data x1d (mat sdd (layer_key li "attn_wk"))).
  set (vdv := linear_data x1d (mat sdd (layer_key li "attn_wv"))).
  set (keysd := push_data li kdv kd).
  set (valuesd := push_data li vdv vd).
  set (xAttnd := concat (attn_head_data qd (layer_of keysd li) (layer_of valuesd li)
                           <$> seq 0 N_HEAD)).
  set (x2d := linear_data xAttnd (mat sdd (layer_key li "attn_wo"))).
  set (x3d := add_residual_data x2d xd).
  set (x4d := rmsnorm_data x3d).
  set (x5d := linear_data x4d (mat sdd (layer_key li "mlp_fc1"))).
  set (x6d := Rmax 0 <$> x5d).
  set (x7d := linear_data x6d (mat sdd (layer_key li "mlp_fc2"))).
  assert (length x1d = N_EMBD) as Hx1len by (unfold x1d; by rewrite rmsnorm_data_length).
  (* x = rmsnorm(x) *)
  eapply wp_bind; [apply rmsnorm_spec; exact Hx|].
  intros x1 h1 Hp1 Hx1. cbv beta in Hx1. fold x1d in Hx1. advance Hp1.
  (* q, k, v *)
  destruct (sd_rel_get _ _ _ _ _ _ Hsd Swq) as (wq & Gwq & Rwq & Shq).
  eapply wp_lift_bind; [exact Gwq|].
  eapply wp_bind;
    [apply linear_spec; [exact Hx1 | exact Rwq | eapply rows_le; [exact Shq | lia]]|].
  intros q h2 Hp2 Hq. cbv beta in Hq. fold qd in Hq. advance Hp2.
  destruct (sd_rel_get _ _ _ _ _ _ Hsd Swk) as (wk & Gwk & Rwk & Shk).
  eapply wp_lift_bind; [exact Gwk|].
  eapply wp_bind;
    [apply linear_spec; [exact Hx1 | exact Rwk | eapply rows_le; [exact Shk | lia]]|].
  intros k h3 Hp3 Hk. cbv beta in Hk. fold kdv in Hk. advance Hp3.
  destruct (sd_rel_get _ _ _ _ _ _ Hsd Swv) as (wv & Gwv & Rwv & Shv).
  eapply wp_lift_bind; [exact Gwv|].
  eapply wp_bind;
    [apply linear_spec; [exact Hx1 | exact Rwv | eapply rows_le; [exact Shv | lia]]|].
  intros v h4 Hp4 Hv. cbv beta in Hv. fold vdv in Hv. advance Hp4.
  assert (length qd = N_EMBD) as Hqlen.
  { unfold qd. rewrite linear_data_length. apply Shq. }
  assert (length kdv = N_EMBD) as Hklen.
  { unfold kdv. rewrite linear_data_length. apply Shk. }
  assert (length vdv = N_EMBD) as Hvlen.
  { unfold vdv. rewrite linear_data_length. apply Shv. }
  (* the caches *)
  destruct (push_at_rel h4 keys kd li k kdv Hkeys Hk Hlik)
    as (keys' & kl & kld & Pk & Rk' & Lk & Rkl & Ekld & Ekl & Ekeys).
  destruct (push_at_rel h4 values vd li v vdv Hvals Hv Hliv)
    as (values' & vl & vld & Pv & Rv' & Lv & Rvl & Evld & Evl & Evalues).
  fold keysd in Rk', Rkl, Ekl, Ekeys. fold valuesd in Rv', Rvl, Evl, Evalues.
  assert (kld = kl0) as -> by congruence.
  assert (vld = vl0) as -> by congruence.
  eapply wp_lift_bind; [exact Pk|]. eapply wp_lift_bind; [exact Pv|].
  eapply wp_lift_bind; [exact Lk|]. eapply wp_lift_bind; [exact Lv|].
  (* the heads *)
  eapply wp_bind.
  { apply (wp_mapM_ctx _ (attn_head_data qd (layer_of keysd li) (layer_of valuesd li))
             (λ h, datas h q qd ∧ mat_rel h kl (layer_of keysd li) ∧
                   mat_rel h vl (layer_of valuesd li))
             (λ hd, hd < N_HEAD) datas).
    - intros ha hb (H1 & H2 & H3) Hp.
      split; [by eapply datas_mono|]. split; by eapply mat_rel_mono.
    - apply stable_datas.
    - done.
    - apply Forall_forall. intros hd Hhd. apply elem_of_seq in Hhd. lia.
    - intros hd h5 (H1 & H2 & H3) Hhd.
      apply attn_head_spec; [done | done | done | | |].
      + rewrite Ekl. apply Forall_app. split; [|repeat constructor; lia].
        eapply Forall_impl; [exact Hk0|]. intros ki Hki. simpl in *. lia.
      + rewrite Ekl, Evl, !length_app. simpl. lia.
      + pose proof (head_bound hd Hhd) as Hb.
        rewrite Evl. apply Forall_app. split; [|repeat constructor; lia].
        eapply Forall_impl; [exact Hv0|]. intros vi Hvi. simpl in *. lia. }
  intros heads h5 Hp5 Hheads. cbv beta in Hheads.
  apply datas_concat in Hheads. fold xAttnd in Hheads. advance Hp5.
  assert (length xAttnd = N_EMBD) as HxAlen.
  { unfold xAttnd. rewrite <- heads_width. apply concat_heads_length.
    intros i. apply attn_head_data_length. }
  (* the output projection and the first residual *)
  destruct (sd_rel_get _ _ _ _ _ _ Hsd Swo) as (wo & Gwo & Rwo & Sho).
  eapply wp_lift_bind; [exact Gwo|].
  eapply wp_bind;
    [apply linear_spec; [exact Hheads | exact Rwo | eapply rows_le; [exact Sho | lia]]|].
  intros x2 h6 Hp6 Hx2. cbv beta in Hx2. fold x2d in Hx2. advance Hp6.
  assert (length x2d = N_EMBD) as Hx2len.
  { unfold x2d. rewrite linear_data_length. apply Sho. }
  eapply wp_bind; [apply add_residual_spec; [exact Hx2 | exact Hx | lia]|].
  intros x3 h7 Hp7 Hx3. cbv beta in Hx3. fold x3d in Hx3. advance Hp7.
  assert (length x3d = N_EMBD) as Hx3len.
  { unfold x3d. rewrite add_residual_data_length. lia. }
  (* the MLP and the second residual *)
  eapply wp_bind; [apply rmsnorm_spec; exact Hx3|].
  intros x4 h8 Hp8 Hx4. cbv beta in Hx4. fold x4d in Hx4. advance Hp8.
  assert (length x4d = N_EMBD) as Hx4len by (unfold x4d; by rewrite rmsnorm_data_length).
  destruct (sd_rel_get _ _ _ _ _ _ Hsd Sfc1) as (fc1 & Gfc1 & Rfc1 & Shfc1).
  eapply wp_lift_bind; [exact Gfc1|].
  eapply wp_bind;
    [apply linear_spec; [exact Hx4 | exact Rfc1 | eapply rows_le; [exact Shfc1 | lia]]|].
  intros x5 h9 Hp9 Hx5. cbv beta in Hx5. fold x5d in Hx5. advance Hp9.
  eapply wp_bind; [apply relu_map_spec; exact Hx5|].
  intros x6 h10 Hp10 Hx6. cbv beta in Hx6. fold x6d in Hx6. advance Hp10.
  assert (length x6d = 4 * N_EMBD) as Hx6len.
  { unfold x6d, x5d. rewrite length_fmap, linear_data_length. apply Shfc1. }
  destruct (sd_rel_get _ _ _ _ _ _ Hsd Sfc2) as (fc2 & Gfc2 & Rfc2 & Shfc2).
  eapply wp_lift_bind; [exact Gfc2|].
  eapply wp_bind;
    [apply linear_spec; [exact Hx6 | exact Rfc2 | eapply rows_le; [exact Shfc2 | lia]]|].
  intros x7 h11 Hp11 Hx7. cbv beta in Hx7. fold x7d in Hx7. advance Hp11.
  assert (length x7d = N_EMBD) as Hx7len.
  { unfold x7d. rewrite linear_data_length. apply Shfc2. }
  eapply wp_bind; [apply add_residual_spec; [exact Hx7 | exact Hx3 | lia]|].
  intros x8 h12 Hp12 Hx8. cbv beta in Hx8. advance Hp12.
  apply wp_ret. split; [done|]. split; done.
Qed.

End forward_specs.

(** ** Shapes after a layer *)

Section layer_shapes.

Lemma sd_rel_layer_rows h sd sdd li :
  sd_rel h sd sdd → layer_shape sd li → layer_rows sdd li.
Proof.
  intros Hsd (Swq & Swk & Swv & Swo & Sfc1 & Sfc2).
  destruct (sd_rel_get _ _ _ _ _ _ Hsd Swk) as (? & _ & _ & [? _]).
  destruct (sd_rel_get _ _ _ _ _ _ Hsd Swv) as (? & _ & _ & [? _]).
  destruct (sd_rel_get _ _ _ _ _ _ Hsd Swo) as (? & _ & _ & [? _]).
  destruct (sd_rel_get _ _ _ _ _ _ Hsd Sfc2) as (? & _ & _ & [? _]).
  done.
Qed.

Lemma push_data_lookup li k (c : CacheD) kl :
  c !! li = Some kl → push_data li k c = <[li := kl ++ [k]]> c.
Proof. intros Hkl. unfold push_data, push_at. by rewrite Hkl. Qed.

Lemma gpt_layer_data_shape sdd xd kd vd li :
  layer_rows sdd li → length xd = N_EMBD → cache_ok kd vd → li < N_LAYER →
  let r := gpt_layer_data sdd (xd, kd, vd) li in
  length r.1.1 = N_EMBD ∧ cache_ok r.1.2 r.2 ∧
  (∃ k, r.1.2 = <[li := layer_of kd li ++ [k]]> kd) ∧
  (∃ v, r.2 = <[li := layer_of vd li ++ [v]]> vd).
Proof.
  intros (Rk & Rv & Ro & Rfc2) Hxlen Hok Hli.
  destruct (cache_ok_lookup kd vd li Hok Hli) as (kl0 & vl0 & Hkl0 & Hvl0 & Hlen0 & Hk0 & Hv0).
  destruct Hok as [Hlen Hok].
  unfold gpt_layer_data. cbv zeta. simpl fst. simpl snd.
  rewrite (push_data_lookup li _ kd kl0 Hkl0), (push_data_lookup li _ vd vl0 Hvl0).
  assert (layer_of kd li = kl0) as -> by (unfold layer_of; by rewrite Hkl0).
  assert (layer_of vd li = vl0) as -> by (unfold layer_of; by rewrite Hvl0).
  split; [|split; [|split; eauto]].
  - rewrite add_residual_data_length, linear_data_length, Rfc2.
    rewrite add_residual_data_length, linear_data_length, Ro. lia.
  - split; [by rewrite length_insert|].
    apply Forall2_insert; [done|].
    split; [rewrite !length_app; simpl; lia|].
    split; apply Forall_app; (split; [done|]); repeat constructor;
      by rewrite linear_data_length.
Qed.

Lemma layer_of_insert {A} (c : list (list A)) li lj l :
  li < length c →
  layer_of (<[li := l]> c) lj = if decide (lj = li) then l else layer_of c lj.
Proof.
  intros Hli. unfold layer_of. destruct (decide (lj = li)) as [->|Hne].
  - by rewrite list_lookup_insert_eq.
  - by rewrite list_lookup_insert_ne.
Qed.

Lemma grown_step {A} (c c1 : list (list A)) j k :
  j < length c → grown j c c1 →
  grown (S j) c (<[j := layer_of c1 j ++ [k]]> c1).
Proof.
  intros Hj [Hlen Hg]. split; [by rewrite length_insert|].
  intros lj. rewrite layer_of_insert by lia. specialize (Hg lj).
  destruct (decide (lj = j)) as [->|Hne].
  - destruct (decide (j < j ∧ j < length c)); [lia|].
    destruct (decide (j < S j ∧ j < length c)); [|lia].
    exists k. by rewrite Hg.
  - destruct (decide (lj < j ∧ lj < length c)),
             (decide (lj < S j ∧ lj < length c)); (done || lia).
Qed.

Lemma grown_0 {A} (c : list (list A)) : grown 0 c c.
Proof.
  split; [done|]. intros lj. destruct (decide (lj < 0 ∧ lj < length c)); [lia | done].
Qed.

(** After the first [j] layers. *)
Lemma layers_data_shape sdd xd kd vd j :
  Forall (layer_rows sdd) (seq 0 N_LAYER) → j ≤ N_LAYER →
  length xd = N_EMBD → cache_ok kd vd →
  let r := fold_left (gpt_layer_data sdd) (seq 0 j) (xd, kd, vd) in
  length r.1.1 = N_EMBD ∧ cache_ok r.1.2 r.2 ∧ grown j kd r.1.2 ∧ grown j vd r.2.
Proof.
  intros Hrows Hj Hxlen Hok. induction j as [|j IH].
  - simpl. split; [done|]. split; [done|]. split; apply grown_0.
  - assert (layer_rows sdd j) as Hrj.
    { rewrite Forall_seq in Hrows. apply Hrows. lia. }
    assert (length kd = N_LAYER) as Hlk by apply Hok.
    assert (length vd = N_LAYER) as Hlv.
    { destruct Hok as [Hl Hf]. by rewrite <- (Forall2_length _ _ _ Hf). }
    rewrite seq_S, fold_left_app. rewrite Nat.add_0_l. simpl fold_left.
    destruct IH as (IHx & IHok & IHk & IHv); [lia|].
    destruct (fold_left (gpt_layer_data sdd) (seq 0 j) (xd, kd, vd)) as [[x1 k1] v1].
    simpl fst in *. simpl snd in *.
    destruct (gpt_layer_data_shape sdd x1 k1 v1 j Hrj IHx IHok) as (Hx & Hok' & [k Hk] & [v Hv]);
      [lia|].
    split; [done|]. split; [done|].
    assert (G1 := grown_step kd k1 j k ltac:(lia) IHk). rewrite <- Hk in G1.
    assert (G2 := grown_step vd v1 j v ltac:(lia) IHv). rewrite <- Hv in G2.
    split; [exact G1 | exact G2].
Qed.

End layer_shapes.

(** ** gpt computes [gpt_data] *)

Section gpt_spec.

Lemma seq_split n pre x post : seq 0 n = pre ++ x :: post → pre = seq 0 x ∧ x < n.
Proof.
  intros E.
  assert (seq 0 n !! length pre = Some x) as Hx.
  { rewrite E. by apply list_lookup_middle. }
  apply lookup_seq in Hx as [Hx Hlt]. simpl in Hx. subst x. split; [|done].
  assert (take (length pre) (seq 0 n) = pre) as Ht.
  { rewrite E. by rewrite take_app_length. }
  rewrite take_seq in Ht. rewrite <- Ht at 1. f_equal. lia.
Qed.

Lemma sd_rel_layers h sd sdd :
  sd_rel h sd sdd → Forall (layer_shape sd) (seq 0 N_LAYER) →
  Forall (layer_rows sdd) (seq 0 N_LAYER).
Proof.
  intros Hsd Hl. eapply Forall_impl; [exact Hl|].
  intros li. by apply (sd_rel_layer_rows h sd).
Qed.

Lemma embedding_row h (w : Matrix) wd i n m :
  mat_rel h w wd → rows n m wd → i < n →
  ∃ r rd, w !! i = Some r ∧ wd !! i = Some rd ∧ datas h r rd ∧ length rd = m.
Proof.
  intros Hw [Hlen Hrows] Hi.
  destruct (lookup_lt_is_Some_2 wd i) as [rd Hrd]; [lia|].
  destruct (Forall2_lookup_r _ _ _ _ _ Hw Hrd) as (r & Hr & Hrrd).
  exists r, rd. rewrite Forall_lookup in Hrows. eauto 10.
Qed.

Lemma gpt_spec h sd sdd vocab tok pos keys values kd vd :
  sd_rel h sd sdd → sd_shape vocab sd →
  (0 ≤ tok < Z.of_nat vocab)%Z → pos < BLOCK_SIZE →
  cache_rel h keys kd → cache_rel h values vd → cache_ok kd vd →
  wp (gpt sd tok pos keys values) h
     (λ r h', state_rel h' r (gpt_data sdd tok pos kd vd)).
Proof.
  intros Hsd (Swte & Swpe & Slm & Slayers) Htok Hpos Hkeys Hvals Hok.
  pose proof (sd_rel_layers _ _ _ Hsd Slayers) as Hrows.
  unfold gpt, gpt_data. cbv zeta.
  (* the embeddings *)
  destruct (sd_rel_get _ _ _ _ _ _ Hsd Swte) as (wte & Gwte & Rwte & Shwte).
  eapply wp_lift_bind; [exact Gwte|].
  destruct (embedding_row h wte _ (Z.to_nat tok) _ _ Rwte Shwte)
    as (tokEmb & tokEmbd & Gt & Gtd & Rt & Lt); [lia|].
  assert (at_Z wte tok = Some tokEmb) as Gt'.
  { unfold at_Z. destruct (decide (0 ≤ tok)%Z); [done | lia]. }
  assert (at_Z (mat sdd "wte") tok = Some tokEmbd) as Gtd'.
  { unfold at_Z. destruct (decide (0 ≤ tok)%Z); [done | lia]. }
  eapply wp_lift_bind; [exact Gt'|]. rewrite Gtd'. simpl default.
  destruct (sd_rel_get _ _ _ _ _ _ Hsd Swpe) as (wpe & Gwpe & Rwpe & Shwpe).
  eapply wp_lift_bind; [exact Gwpe|].
  destruct (embedding_row h wpe _ pos _ _ Rwpe Shwpe)
    as (posEmb & posEmbd & Gp & Gpd & Rp & Lp); [done|].
  eapply wp_lift_bind; [exact Gp|]. rewrite Gpd. simpl default.
  eapply wp_bind; [apply add_residual_spec; [exact Rt | exact Rp | lia]|].
  intros x0 h1 Hp1 Hx0. cbv beta in Hx0. advance Hp1.
  eapply wp_bind; [apply rmsnorm_spec; exact Hx0|].
  intros x h2 Hp2 Hx. cbv beta in Hx. advance Hp2.
  set (xd := rmsnorm_data (add_residual_data tokEmbd posEmbd)) in *.
  assert (length xd = N_EMBD) as Hxlen.
  { unfold xd. rewrite rmsnorm_data_length, add_residual_data_length. lia. }
  (* the layers *)
  eapply wp_bind.
  { apply (wp_foldM _ (λ pre st h1,
             sd_rel h1 sd sdd ∧
             state_rel h1 st (fold_left (gpt_layer_data sdd) pre (xd, kd, vd)))).
    - split; [done|]. by split.
    - intros pre li post [[x1 k1] v1] h3 E Hp3 (Hsd3 & Hx1 & Hk1 & Hv1).
      destruct (seq_split _ _ _ _ E) as [-> Hli]. simpl fst in *. simpl snd in *.
      destruct (layers_data_shape sdd xd kd vd li Hrows) as (Lx & Lok & _ & _);
        [lia | done | done |].
      rewrite Forall_seq in Slayers.
      destruct (fold_left (gpt_layer_data sdd) (seq 0 li) (xd, kd, vd))
        as [[x1d k1d] v1d] eqn:Efold.
      simpl fst in *. simpl snd in *.
      eapply wp_consequence.
      { apply (gpt_layer_spec h3 sd sdd x1 k1 v1 x1d k1d v1d li); try done.
        apply Slayers. lia. }
      intros r h4 Hp4 Hr. cbv beta in Hr. split; [by eapply sd_rel_mono|].
      rewrite fold_left_app, Efold. exact Hr. }
  intros st h3 Hp3 (Hsd3 & Hst). cbv beta in Hst.
  destruct (layers_data_shape sdd xd kd vd N_LAYER Hrows) as (Lx & _ & _ & _);
    [done | done | done |].
  destruct (fold_left (gpt_layer_data sdd) (seq 0 N_LAYER) (xd, kd, vd))
    as [[xLd kLd] vLd] eqn:Efold.
  destruct st as [[xL kL] vL]. destruct Hst as (HxL & HkL & HvL).
  simpl fst in *. simpl snd in *.
  (* the logits *)
  destruct (sd_rel_get _ _ _ _ _ _ Hsd3 Slm) as (lm & Glm & Rlm & Shlm).
  eapply wp_lift_bind; [exact Glm|].
  eapply wp_bind;
    [apply linear_spec; [exact HxL | exact Rlm | eapply rows_le; [exact Shlm | lia]]|].
  intros logits h4 Hp4 Hlogits. cbv beta in Hlogits. advance Hp4.
  apply wp_ret. split; [done|]. split; done.
Qed.

End gpt_spec.

(** ** Runs that returned *)

Section cache_growth.

Lemma bind_Some {A B} (m : M A) (k : A → M B) h r :
  (m ≫= k) h = Some r → ∃ a h1, m h = Some (a, h1) ∧ k a h1 = Some r.
Proof.
  unfold mbind, M_bind. destruct (m h) as [[a h1]|]; [|done]. eauto.
Qed.

Lemma lift_bind_Some {A B} (o : option A) (k : A → M B) h r :
  (lift o ≫= k) h = Some r → ∃ a, o = Some a ∧ k a h = Some r.
Proof.
  unfold mbind, M_bind, lift. destruct o as [a|]; [|done]. eauto.
Qed.

Lemma foldM_app {A B} (f : A → B → M A) a l1 l2 h :
  foldM f a (l1 ++ l2) h = (a' ← foldM f a l1; foldM f a' l2) h.
Proof.
  revert a h. induction l1 as [|x l1 IH]; intros a h; simpl; [done|].
  unfold mbind, M_bind. destruct (f a x h) as [[a1 h1]|]; [|done]. apply IH.
Qed.

End cache_growth.

(** Split a run of [m ≫= k] that returned into the run of [m] and the run
    of [k]. *)
Ltac inv_bind H :=
  first [ apply lift_bind_Some in H as (? & ? & H)
        | apply bind_Some in H as (? & ? & ? & H) ].

(** ** A call of gpt appends one entry to every layer *)

Section cache_growth_gpt.

Lemma gpt_layer_pushes sd x keys values li h x' keys' values' h' :
  gpt_layer sd (x, keys, values) li h = Some ((x', keys', values'), h') →
  ∃ k v, push_at li k keys = Some keys' ∧ push_at li v values = Some values'.
Proof.
  unfold gpt_layer. intros H.
  do 7 inv_bind H.
  apply lift_bind_Some in H as (keys1 & Hk & H).
  apply lift_bind_Some in H as (values1 & Hv & H).
  repeat inv_bind H.
  injection H as <- <- <- <-. eauto.
Qed.

Lemma push_at_grown {A} (c c' : list (list A)) li k :
  push_at li k c = Some c' →
  li < length c ∧ c' = <[li := layer_of c li ++ [k]]> c.
Proof.
  unfold push_at, layer_of. intros H.
  destruct (c !! li) as [l|] eqn:Hl; simplify_eq/=.
  split; [by eapply lookup_lt_Some | done].
Qed.

Lemma layers_grow sd j x keys values h x' keys' values' h' :
  foldM (gpt_layer sd) (x, keys, values) (seq 0 j) h = Some ((x', keys', values'), h') →
  grown j keys keys' ∧ grown j values values' ∧ j ≤ length keys ∧ j ≤ length values.
Proof.
  revert x' keys' values' h'. induction j as [|j IH]; intros x' keys' values' h' H.
  - simpl in H. injection H as <- <- <- <-.
    split; [apply grown_0|]. split; [apply grown_0 | lia].
  - rewrite seq_S, foldM_app, Nat.add_0_l in H.
    apply bind_Some in H as ([[x1 k1] v1] & h1 & H1 & H).
    destruct (IH _ _ _ _ H1) as (G1 & G2 & L1 & L2).
    simpl in H. apply bind_Some in H as ([[x2 k2] v2] & h2 & H2 & H).
    injection H as <- <- <- <-.
    apply gpt_layer_pushes in H2 as (k & v & Pk & Pv).
    apply push_at_grown in Pk as [Lk ->]. apply push_at_grown in Pv as [Lv ->].
    pose proof (proj1 G1) as E1. pose proof (proj1 G2) as E2.
    split; [apply grown_step; [lia | done]|].
    split; [apply grown_step; [lia | done] | lia].
Qed.

Lemma gpt_grows sd tokenId posId keys values h r h' :
  gpt sd tokenId posId keys values h = Some (r, h') →
  grown N_LAYER keys r.1.2 ∧ grown N_LAYER values r.2 ∧
  N_LAYER ≤ length keys ∧ N_LAYER ≤ length values.
Proof.
  unfold gpt. intros H.
  do 6 inv_bind H.
  apply bind_Some in H as ([[xL kL] vL] & hL & HL & H).
  repeat inv_bind H. injection H as <- <-. simpl.
  by apply layers_grow in HL.
Qed.

Lemma fed_lengths sd k keys values :
  fed sd k keys values →
  length keys = N_LAYER ∧ length values = N_LAYER ∧
  Forall (λ l, length l = k) keys ∧ Forall (λ l, length l = k) values.
Proof.
  induction 1 as [|k keys values tok pos h r h' _ IH Hgpt].
  - unfold fresh_cache. rewrite length_replicate.
    split; [done|]. split; [done|]. split; by apply Forall_replicate.
  - destruct IH as (Lk & Lv & Fk & Fv).
    apply gpt_grows in Hgpt as ([Ek Gk] & [Ev Gv] & _ & _).
    split; [lia|]. split; [lia|].
    split; apply Forall_lookup; intros lj l Hl.
    + assert (lj < N_LAYER) as Hlj by (rewrite <- Lk, <- Ek; by eapply lookup_lt_Some).
      specialize (Gk lj). unfold layer_of in Gk. rewrite Hl in Gk.
      destruct (lookup_lt_is_Some_2 keys lj) as [l0 Hl0]; [lia|].
      rewrite Hl0 in Gk. simpl in Gk. rewrite Forall_lookup in Fk.
      destruct (decide (lj < N_LAYER ∧ lj < length keys)) as [_|]; [|lia].
      destruct Gk as [e ->]. rewrite length_app, (Fk lj l0 Hl0). simpl. lia.
    + assert (lj < N_LAYER) as Hlj by (rewrite <- Lv, <- Ev; by eapply lookup_lt_Some).
      specialize (Gv lj). unfold layer_of in Gv. rewrite Hl in Gv.
      destruct (lookup_lt_is_Some_2 values lj) as [l0 Hl0]; [lia|].
      rewrite Hl0 in Gv. simpl in Gv. rewrite Forall_lookup in Fv.
      destruct (decide (lj < N_LAYER ∧ lj < length values)) as [_|]; [|lia].
      destruct Gv as [e ->]. rewrite length_app, (Fv lj l0 Hl0). simpl. lia.
Qed.

End cache_growth_gpt.

(** ** Claims about the key/value caches *)

Section cache_claims.

Lemma loss_at_fed sd tokens st pos h st' h' k :
  loss_at sd tokens st pos h = Some (st', h') →
  fed sd k st.1.2 st.2 →
  fed sd (S k) st'.1.2 st'.2 ∧ length st'.1.1 = S (length st.1.1).
Proof.
  destruct st as [[losses ks] vs]. unfold loss_at. intros H Hfed.
  apply lift_bind_Some in H as (tok & Htok & H).
  apply bind_Some in H as (r & h1 & Hgpt & H).
  repeat inv_bind H. injection H as <- <-. simpl.
  split; [by eapply fed_call|]. rewrite length_app. simpl. lia.
Qed.

Lemma loss_loop_fed sd tokens l st h st' h' k :
  foldM (loss_at sd tokens) st l h = Some (st', h') →
  fed sd k st.1.2 st.2 →
  fed sd (k + length l) st'.1.2 st'.2 ∧ length st'.1.1 = length st.1.1 + length l.
Proof.
  revert st h k. induction l as [|pos l IH]; intros st h k H Hfed.
  - simpl in H. injection H as <- <-. simpl.
    rewrite !Nat.add_0_r. done.
  - simpl in H. apply bind_Some in H as (st1 & h1 & H1 & H).
    destruct (loss_at_fed _ _ _ _ _ _ _ _ H1 Hfed) as [Hfed1 Hlen1].
    destruct (IH _ _ _ H Hfed1) as [Hfed' Hlen']. simpl.
    replace (k + S (length l)) with (S k + length l) by lia.
    split; [done | lia].
Qed.

Lemma forward_positions_fed sd tokens n h st h' :
  forward_positions sd tokens n h = Some (st, h') →
  fed sd n st.1.2 st.2 ∧ length st.1.1 = n.
Proof.
  unfold forward_positions. intros H.
  destruct (loss_loop_fed _ _ _ _ _ _ _ 0 H) as [Hfed Hlen]; [apply fed_fresh|].
  rewrite length_seq in Hfed, Hlen. done.
Qed.

Lemma sample_loop_fed sd bos rand poss tokenId keys values sample h r h' k :
  sample_loop sd bos rand poss tokenId keys values sample h = Some (r, h') →
  fed sd k keys values →
  length sample ≤ length r.1.1 ∧
  fed sd (k + Nat.min (S (length r.1.1 - length sample)) (length poss)) r.1.2 r.2.
Proof.
  revert tokenId keys values sample h k.
  induction poss as [|pos poss IH]; intros tokenId keys values sample h k H Hfed.
  - simpl in H. injection H as <- <-. simpl.
    split; [done|]. by rewrite Nat.add_0_r.
  - simpl in H.
    apply bind_Some in H as (g & h1 & Hgpt & H).
    apply bind_Some in H as (scaled & h2 & _ & H).
    apply bind_Some in H as (probs & h3 & _ & H).
    apply bind_Some in H as (ws & h4 & _ & H).
    pose proof (fed_call _ _ _ _ _ _ _ _ _ Hfed Hgpt) as Hfed1.
    destruct (decide (weightedChoice ws (rand pos) = bos)) as [_|_].
    + injection H as <- <-. simpl. split; [done|].
      rewrite Nat.sub_diag. simpl. by rewrite Nat.add_1_r.
    + destruct (IH _ _ _ _ _ _ H Hfed1) as [Hlen Hfed'].
      rewrite length_app in Hlen, Hfed'. simpl in Hlen, Hfed'.
      split; [lia|]. simpl length.
      replace (k + Nat.min (S (length r.1.1 - length sample)) (S (length poss)))
        with (S k + Nat.min (S (length r.1.1 - (length sample + 1))) (length poss))
        by lia.
      done.
Qed.

Lemma grown_all {A} (c c' : list (list A)) :
  length c = N_LAYER → grown N_LAYER c c' →
  Forall2 (λ l l', ∃ k, l' = l ++ [k]) c c'.
Proof.
  intros Hlen [Elen G]. apply Forall2_same_length_lookup. split; [done|].
  intros lj l l' Hl Hl'. specialize (G lj). unfold layer_of in G.
  rewrite Hl, Hl' in G. simpl in G.
  assert (lj < length c) by (by eapply lookup_lt_Some).
  destruct (decide (lj < N_LAYER ∧ lj < length c)); [done | lia].
Qed.

(** C7.  A fresh cache has [N_LAYER] layers of length 0.  A call of [gpt]
    that returns has appended exactly one entry to every layer of the key
    cache and of the value cache.  So the caches that the training loop
    holds after [k] positions of a document have length [k] in every layer,
    and the caches that the inference loop leaves for a sample have one
    entry per call made: one more than the tokens kept, at most
    [BLOCK_SIZE]. *)
Theorem kv_cache_growth (sd : StateDict) :
  (length fresh_cache = N_LAYER ∧ Forall (λ l, length l = 0) fresh_cache)
  ∧ (∀ tokenId posId keys values h r h',
       length keys = N_LAYER → length values = N_LAYER →
       gpt sd tokenId posId keys values h = Some (r, h') →
       Forall2 (λ l l', ∃ k, l' = l ++ [k]) keys r.1.2 ∧
       Forall2 (λ l l', ∃ v, l' = l ++ [v]) values r.2)
  ∧ (∀ tokens k h st h',
       forward_positions sd tokens k h = Some (st, h') →
       length st.1.2 = N_LAYER ∧ length st.2 = N_LAYER ∧
       Forall (λ l, length l = k) st.1.2 ∧ Forall (λ l, length l = k) st.2)
  ∧ (∀ uchars rand h sample keys values h',
       generate sd uchars rand h = Some ((sample, keys, values), h') →
       let k := Nat.min (S (length sample)) BLOCK_SIZE in
       length keys = N_LAYER ∧ length values = N_LAYER ∧
       Forall (λ l, length l = k) keys ∧ Forall (λ l, length l = k) values).
Proof.
  split; [|split; [|split]].
  - unfold fresh_cache. rewrite length_replicate. split; [done|].
    by apply Forall_replicate.
  - intros tokenId posId keys values h r h' Lk Lv Hgpt.
    apply gpt_grows in Hgpt as (Gk & Gv & _ & _).
    split; by apply grown_all.
  - intros tokens k h st h' H.
    apply forward_positions_fed in H as [Hfed _].
    by apply (fed_lengths sd).
  - intros uchars rand h sample keys values h' H k.
    unfold generate in H.
    apply (sample_loop_fed _ _ _ _ _ _ _ _ _ _ _ 0) in H as [_ Hfed];
      [|apply fed_fresh].
    rewrite length_seq in Hfed. cbn [fst snd length] in Hfed.
    rewrite Nat.sub_0_r, Nat.add_0_l in Hfed.
    by apply (fed_lengths sd).
Qed.

End cache_claims.

(** ** The loop over the positions of a document *)

Section loss_specs.

Lemma gpt_data_shape h sd sdd vocab tok pos kd vd :
  sd_rel h sd sdd → sd_shape vocab sd → in_vocab vocab tok → pos < BLOCK_SIZE →
  cache_ok kd vd →
  let r := gpt_data sdd tok pos kd vd in
  length r.1.1 = vocab ∧ cache_ok r.1.2 r.2.
Proof.
  intros Hsd (Swte & Swpe & Slm & Slayers) Htok Hpos Hok.
  pose proof (sd_rel_layers _ _ _ Hsd Slayers) as Hrows.
  destruct (sd_rel_get _ _ _ _ _ _ Hsd Swte) as (wte & Gwte & Rwte & Shwte).
  destruct (embedding_row h wte _ (Z.to_nat tok) _ _ Rwte Shwte)
    as (tokEmb & tokEmbd & Gt & Gtd & Rt & Lt); [unfold in_vocab in Htok; lia|].
  destruct (sd_rel_get _ _ _ _ _ _ Hsd Swpe) as (wpe & Gwpe & Rwpe & Shwpe).
  destruct (embedding_row h wpe _ pos _ _ Rwpe Shwpe)
    as (posEmb & posEmbd & Gp & Gpd & Rp & Lp); [done|].
  destruct (sd_rel_get _ _ _ _ _ _ Hsd Slm) as (lm & Glm & Rlm & [Llm _]).
  unfold gpt_data. cbv zeta.
  assert (at_Z (mat sdd "wte") tok = Some tokEmbd) as ->.
  { unfold at_Z. destruct (decide (0 ≤ tok)%Z); [done | unfold in_vocab in Htok; lia]. }
  rewrite Gpd. simpl (default _ (Some _)).
  set (xd := rmsnorm_data (add_residual_data tokEmbd posEmbd)).
  assert (length xd = N_EMBD) as Hxlen.
  { unfold xd. rewrite rmsnorm_data_length, add_residual_data_length. lia. }
  destruct (layers_data_shape sdd xd kd vd N_LAYER Hrows) as (_ & Lok & _ & _);
    [done | done | done |].
  cbn [fst snd]. split; [|done].
  by rewrite linear_data_length.
Qed.

Lemma cache_ok_fresh : cache_ok fresh_cache_data fresh_cache_data.
Proof.
  unfold fresh_cache_data. split; [by rewrite length_replicate|].
  apply Forall2_same_length_lookup. split; [done|].
  intros i kl vl Hkl Hvl.
  apply lookup_replicate in Hkl as [-> _]. apply lookup_replicate in Hvl as [-> _].
  repeat split; constructor.
Qed.

Lemma cache_rel_fresh h : cache_rel h fresh_cache fresh_cache_data.
Proof.
  unfold fresh_cache, fresh_cache_data.
  apply Forall2_same_length_lookup. split; [by rewrite !length_replicate|].
  intros i l ld Hl Hld.
  apply lookup_replicate in Hl as [-> _]. apply lookup_replicate in Hld as [-> _].
  constructor.
Qed.

Lemma tokens_ok_lookup vocab tokens n p :
  tokens_ok vocab tokens n → p ≤ n →
  ∃ t, tokens !! p = Some t ∧ in_vocab vocab t.
Proof.
  intros (Hlen & _ & Hall) Hp.
  destruct (lookup_lt_is_Some_2 tokens p) as [t Ht]; [lia|].
  exists t. split; [done|]. rewrite Forall_lookup in Hall. eauto.
Qed.

Lemma forward_positions_data_S sdd tokens p :
  forward_positions_data sdd tokens (S p) =
  loss_at_data sdd tokens (forward_positions_data sdd tokens p) p.
Proof.
  unfold forward_positions_data. by rewrite seq_S, fold_left_app.
Qed.

Lemma forward_positions_data_shape h sd sdd vocab tokens n p :
  sd_rel h sd sdd → sd_shape vocab sd → tokens_ok vocab tokens n → p ≤ n →
  let st := forward_positions_data sdd tokens p in
  cache_ok st.1.2 st.2 ∧
  st.1.1 = (λ q, (ln (target_prob sdd tokens q) * -1)%R) <$> seq 0 p.
Proof.
  intros Hsd Hshape Htok. induction p as [|p IH]; intros Hp.
  - simpl. split; [apply cache_ok_fresh | done].
  - destruct IH as [IHok IHl]; [lia|].
    rewrite forward_positions_data_S. unfold loss_at_data. cbv zeta.
    destruct (tokens_ok_lookup _ _ _ p Htok) as (t & Ht & Hin); [lia|].
    rewrite Ht. simpl (default _ (Some _)).
    destruct (gpt_data_shape h sd sdd vocab t p
                (forward_positions_data sdd tokens p).1.2
                (forward_positions_data sdd tokens p).2 Hsd Hshape Hin) as [_ Hok];
      [destruct Htok as (_ & ? & _); lia | exact IHok |].
    cbn [fst snd]. split; [done|].
    rewrite seq_S, fmap_app, IHl. simpl. do 3 f_equal.
    unfold target_prob, logits_at. by rewrite Ht.
Qed.

Lemma loss_at_spec h sd sdd vocab tokens n st std pos :
  sd_rel h sd sdd → sd_shape vocab sd → tokens_ok vocab tokens n → pos < n →
  state_rel h st std → cache_ok std.1.2 std.2 →
  wp (loss_at sd tokens st pos) h
     (λ r h', state_rel h' r (loss_at_data sdd tokens std pos)).
Proof.
  intros Hsd Hshape Htok Hpos Hst Hok.
  destruct st as [[losses ks] vs]. destruct std as [[lossesd kd] vd].
  destruct Hst as (Hl & Hk & Hv). cbn [fst snd] in *.
  destruct (tokens_ok_lookup _ _ _ pos Htok) as (tok & Gtok & Itok); [lia|].
  destruct (tokens_ok_lookup _ _ _ (pos + 1) Htok) as (tgt & Gtgt & Itgt); [lia|].
  assert (pos < BLOCK_SIZE) as Hblock by (destruct Htok as (_ & ? & _); lia).
  destruct (gpt_data_shape h sd sdd vocab tok pos kd vd Hsd Hshape Itok Hblock Hok)
    as [Llogits _].
  unfold loss_at, loss_at_data. cbv zeta. rewrite Gtok, Gtgt. simpl (default _ (Some _)).
  cbn [fst snd].
  eapply wp_lift_bind; [reflexivity|].
  eapply wp_bind; [by eapply (gpt_spec h sd sdd vocab tok pos ks vs kd vd)|].
  intros [[logits ks'] vs'] h1 Hp1 (Hlogits & Hks' & Hvs'). cbn [fst snd] in *.
  advance Hp1.
  eapply wp_bind; [apply softmax_spec; exact Hlogits|].
  intros probs h2 Hp2 Hprobs. cbv beta in Hprobs. advance Hp2.
  eapply wp_lift_bind; [reflexivity|].
  set (probsd := softmax_data (gpt_data sdd tok pos kd vd).1.1) in *.
  assert (∃ p pd, at_Z probs tgt = Some p ∧ at_Z probsd tgt = Some pd ∧
                  data_of h2 p = Some pd) as (p & pd & Gp & Gpd & Hp).
  { unfold at_Z. unfold in_vocab in Itgt. destruct (decide (0 ≤ tgt)%Z); [|lia].
    destruct (lookup_lt_is_Some_2 probsd (Z.to_nat tgt)) as [pd Hpd].
    { unfold probsd. rewrite softmax_data_length, Llogits. lia. }
    destruct (Forall2_lookup_r _ _ _ _ _ Hprobs Hpd) as (p & Hp & Hdp). eauto 10. }
  eapply wp_lift_bind; [exact Gp|]. rewrite Gpd. simpl (default _ (Some _)).
  eapply wp_bind; [apply log_spec; exact Hp|].
  intros l h3 Hp3 Hlog. cbv beta in Hlog. advance Hp3.
  eapply wp_bind; [apply neg_spec; exact Hlog|].
  intros nl h4 Hp4 Hnl. cbv beta in Hnl. advance Hp4.
  apply wp_ret. split; [|split; done]. simpl.
  apply Forall2_app; [done|]. by repeat constructor.
Qed.

Lemma forward_positions_spec h sd sdd vocab tokens n :
  sd_rel h sd sdd → sd_shape vocab sd → tokens_ok vocab tokens n →
  wp (forward_positions sd tokens n) h
     (λ r h', sd_rel h' sd sdd ∧
              state_rel h' r (forward_positions_data sdd tokens n)).
Proof.
  intros Hsd Hshape Htok. unfold forward_positions, forward_positions_data.
  apply (wp_foldM _ (λ pre st h1,
           sd_rel h1 sd sdd ∧
           state_rel h1 st (fold_left (loss_at_data sdd tokens) pre
                              ([], fresh_cache_data, fresh_cache_data)))).
  - split; [done|]. split; [constructor|]. split; apply cache_rel_fresh.
  - intros pre pos post st h1 E Hp1 (Hsd1 & Hst).
    destruct (seq_split _ _ _ _ E) as [-> Hpos].
    destruct (forward_positions_data_shape h1 sd sdd vocab tokens n pos Hsd1 Hshape Htok)
      as [Hok _]; [lia|].
    eapply wp_consequence.
    { eapply (loss_at_spec h1 sd sdd vocab tokens n); try done. }
    intros r h2 Hp2 Hr. cbv beta in Hr. split; [by eapply sd_rel_mono|].
    by rewrite fold_left_app.
Qed.

End loss_specs.

(** ** Claims about the training loss *)

Section training_claims.

(** C6.  For a token list of length [L >= 2] whose ids are in the
    vocabulary, the forward part of a training step returns
    [n = min(BLOCK_SIZE, L - 1)] losses; the loss of position [p] is the
    negated natural logarithm of the softmax probability, at position [p],
    of [tokens[p + 1]]; and the node on which the step calls [backward] is
    the sum of the [n] losses divided by [n]. *)
Theorem training_loss (h : Heap) (sd : StateDict) (sdd : StateDictD)
    (vocab : nat) (tokens : list Z) :
  sd_rel h sd sdd → sd_shape vocab sd →
  2 ≤ length tokens → Forall (in_vocab vocab) tokens →
  let n := Nat.min BLOCK_SIZE (length tokens - 1) in
  ∃ losses loss h' ld,
    forward_loss sd tokens h = Some ((losses, loss), h') ∧
    length losses = n ∧
    datas h' losses ld ∧
    (∀ p, p < n → ld !! p = Some (- ln (target_prob sdd tokens p))%R) ∧
    data_of h' loss = Some (Rsum ld / INR n)%R ∧
    (∀ fuel uchars docs step mv doc,
       docs !! (step `mod` length docs) = Some doc →
       tokenize uchars doc = tokens →
       train_step fuel sd uchars docs (h, mv) step =
         (h2 ← backward fuel loss h'; adam_update step (params_of sd) (h2, mv))).
Proof.
  intros Hsd Hshape Hlen Hall n.
  assert (tokens_ok vocab tokens n) as Htok.
  { unfold tokens_ok, n. split; [lia|]. split; [lia | done]. }
  destruct (forward_positions_data_shape h sd sdd vocab tokens n n Hsd Hshape Htok)
    as [_ Eld]; [done|].
  assert (wp (forward_loss sd tokens) h
            (λ r h', datas h' r.1 (forward_positions_data sdd tokens n).1.1 ∧
                     data_of h' r.2 =
                       Some (sum_data (forward_positions_data sdd tokens n).1.1 *
                             js_pow (INR n) (-1))%R)) as Hwp.
  { unfold forward_loss. fold n.
    eapply wp_bind; [by eapply forward_positions_spec|].
    intros [[losses ks] vs] h1 Hp1 (Hsd1 & Hl & _ & _). cbn [fst snd] in *.
    eapply wp_bind; [apply sum_values_spec; exact Hl|].
    intros s h2 Hp2 Hs. cbv beta in Hs. advance Hp2.
    eapply wp_bind; [apply (div_spec h2 s (ONumber (INR n))); [exact Hs | reflexivity]|].
    intros loss h3 Hp3 Hloss. cbv beta in Hloss. advance Hp3.
    apply wp_ret. by split. }
  destruct Hwp as ([losses loss] & h' & Hrun & _ & _ & Hl & Hloss).
  cbn [fst snd] in *.
  exists losses, loss, h', (forward_positions_data sdd tokens n).1.1.
  split; [done|]. split.
  { rewrite (datas_length _ _ _ Hl), Eld. by rewrite length_fmap, length_seq. }
  split; [done|]. split.
  { intros p Hp. rewrite Eld, list_lookup_fmap, lookup_seq_lt by done.
    simpl. f_equal. lra. }
  split.
  { rewrite Hloss, sum_data_Rsum, js_pow_inverse. done. }
  intros fuel uchars docs step mv doc Hdoc Htokens.
  unfold train_step. rewrite Hdoc. simpl. rewrite Htokens, Hrun. done.
Qed.

End training_claims.

(** ** Feeding a sequence computes [feed_data] *)

Section feed_specs.

Lemma wp_mapM_read {A D} (f : A → M D) (rel : A → D → Prop) h l ds :
  Forall2 rel l ds →
  (∀ x d, rel x d → wp (f x) h (λ r h', r = d ∧ h' = h)) →
  wp (mapM f l) h (λ rs h', rs = ds ∧ h' = h).
Proof.
  intros Hl Hf. induction Hl as [|x d l ds Hx _ IH]; simpl.
  - by apply wp_ret.
  - eapply wp_bind; [by apply Hf|]. intros ? ? _ [-> ->].
    eapply wp_bind; [exact IH|]. intros ? ? _ [-> ->]. by apply wp_ret.
Qed.

Lemma read_vector h vs ds :
  datas h vs ds → wp (mapM get_data vs) h (λ rs h', rs = ds ∧ h' = h).
Proof.
  intros Hd. apply (wp_mapM_read _ (λ v d, data_of h v = Some d)); [done|].
  intros v d Hv. by apply (wp_get_data v d).
Qed.

Lemma read_cache h c cd :
  cache_rel h c cd →
  wp (mapM (mapM (mapM get_data)) c) h (λ rs h', rs = cd ∧ h' = h).
Proof.
  intros Hc. apply (wp_mapM_read _ (mat_rel h)); [done|].
  intros w wd Hw. apply (wp_mapM_read _ (datas h)); [done|].
  intros vs ds. apply read_vector.
Qed.

Lemma observe_spec h r rd :
  state_rel h r rd → wp (observe r) h (λ o h', o = rd ∧ h' = h).
Proof.
  intros (Hl & Hk & Hv). unfold observe.
  eapply wp_bind; [by apply read_vector|]. intros ? ? _ [-> ->].
  eapply wp_bind; [by apply read_cache|]. intros ? ? _ [-> ->].
  eapply wp_bind; [by apply read_cache|]. intros ? ? _ [-> ->].
  apply wp_ret. by destruct rd as [[? ?] ?].
Qed.

Lemma feed_from_spec sd sdd vocab tokens :
  sd_shape vocab sd → Forall (in_vocab vocab) tokens →
  ∀ h pos keys values kd vd,
    sd_rel h sd sdd → pos + length tokens ≤ BLOCK_SIZE →
    cache_rel h keys kd → cache_rel h values vd → cache_ok kd vd →
    wp (feed_from sd tokens pos keys values) h
       (λ os h', os = feed_data sdd tokens pos kd vd).
Proof.
  intros Hshape Hall. induction Hall as [|tok rest Htok _ IH];
    intros h pos keys values kd vd Hsd Hpos Hk Hv Hok; simpl.
  - by apply wp_ret.
  - simpl in Hpos.
    destruct (gpt_data_shape h sd sdd vocab tok pos kd vd Hsd Hshape Htok) as [_ Hok'];
      [lia | done |].
    eapply wp_bind; [eapply (gpt_spec h sd sdd vocab); try done; lia|].
    intros r h1 Hp1 Hr. cbv beta in Hr. advance Hp1.
    eapply wp_bind; [apply observe_spec; exact Hr|].
    intros ? ? _ [-> ->]. destruct Hr as (_ & Hk1 & Hv1).
    eapply wp_bind; [apply (IH h1 (S pos)); try done; lia|].
    intros os h2 _ ->. by apply wp_ret.
Qed.

Lemma feed_data_length sdd tokens pos kd vd :
  length (feed_data sdd tokens pos kd vd) = length tokens.
Proof.
  revert pos kd vd. induction tokens as [|tok rest IH]; intros pos kd vd; simpl; [done|].
  by rewrite IH.
Qed.

(** What is recorded at a position depends only on the tokens up to it. *)
Lemma feed_data_prefix sdd tokens1 tokens2 pos kd vd q :
  (∀ i, i ≤ q → tokens1 !! i = tokens2 !! i) →
  feed_data sdd tokens1 pos kd vd !! q = feed_data sdd tokens2 pos kd vd !! q.
Proof.
  revert tokens1 tokens2 pos kd vd.
  induction q as [|q IH]; intros tokens1 tokens2 pos kd vd Hsame.
  - pose proof (Hsame 0 ltac:(lia)) as H0.
    destruct tokens1 as [|t1 r1], tokens2 as [|t2 r2]; simplify_eq/=; done.
  - pose proof (Hsame 0 ltac:(lia)) as H0.
    destruct tokens1 as [|t1 r1], tokens2 as [|t2 r2]; simplify_eq/=; [done|].
    apply IH. intros i Hi. apply (Hsame (S i)). lia.
Qed.

End feed_specs.

(** ** Claims about causality *)

Section causality_claims.

(** C2.  Two token sequences that differ only at position [p] are fed,
    each from fresh caches, on stores in which the parameters hold the same
    numbers.  Both runs return, and at every position [q < p] they record
    the same logits and the same contents of the key and value caches. *)
Theorem causal_masking (h1 h2 : Heap) (sd : StateDict) (sdd : StateDictD)
    (vocab : nat) (tokens1 tokens2 : list Z) (p : nat) :
  sd_rel h1 sd sdd → sd_rel h2 sd sdd → sd_shape vocab sd →
  Forall (in_vocab vocab) tokens1 → Forall (in_vocab vocab) tokens2 →
  length tokens1 = length tokens2 → length tokens1 ≤ BLOCK_SIZE →
  (∀ i, i ≠ p → tokens1 !! i = tokens2 !! i) →
  ∃ obs1 h1' obs2 h2',
    feed sd tokens1 h1 = Some (obs1, h1') ∧
    feed sd tokens2 h2 = Some (obs2, h2') ∧
    length obs1 = length tokens1 ∧ length obs2 = length tokens2 ∧
    ∀ q, q < p → obs1 !! q = obs2 !! q.
Proof.
  intros Hsd1 Hsd2 Hshape Hall1 Hall2 Hlen Hblock Hsame.
  destruct (feed_from_spec sd sdd vocab tokens1 Hshape Hall1 h1 0
              fresh_cache fresh_cache fresh_cache_data fresh_cache_data)
    as (obs1 & h1' & Hrun1 & _ & _ & ->);
    [done | lia | apply cache_rel_fresh | apply cache_rel_fresh | apply cache_ok_fresh |].
  destruct (feed_from_spec sd sdd vocab tokens2 Hshape Hall2 h2 0
              fresh_cache fresh_cache fresh_cache_data fresh_cache_data)
    as (obs2 & h2' & Hrun2 & _ & _ & ->);
    [done | lia | apply cache_rel_fresh | apply cache_rel_fresh | apply cache_ok_fresh |].
  eexists _, h1', _, h2'. split; [exact Hrun1|]. split; [exact Hrun2|].
  rewrite !feed_data_length. split; [done|]. split; [done|].
  intros q Hq. apply feed_data_prefix. intros i Hi. apply Hsame. lia.
Qed.

End causality_claims.

(** ** The parameters that the program creates *)

Section initialization.

Lemma datas_exist h vs :
  Forall (λ v, ∃ d, data_of h v = Some d) vs → ∃ ds, datas h vs ds.
Proof.
  induction 1 as [|v vs [d Hd] _ [ds IH]]; [exists []; constructor|].
  exists (d :: ds). by constructor.
Qed.

Lemma Forall2_right {A B} (Q : B → Prop) (l : list A) (k : list B) :
  Forall2 (λ _ y, Q y) l k → Forall Q k.
Proof. induction 1; by constructor. Qed.

Lemma matrix_spec init nout nin h :
  wp (matrix init nout nin) h (λ w h', rows nout nin w ∧ ∃ wd, mat_rel h' w wd).
Proof.
  unfold matrix.
  eapply wp_consequence.
  { apply (wp_mapM _ (λ _ row h1, length row = nin ∧ ∃ rd, datas h1 row rd)).
    - intros _ row h1 h2 [Hlen [rd Hrd]] Hp. split; [done|].
      exists rd. by eapply datas_mono.
    - intros _ h1 _ _.
      eapply wp_consequence.
      { apply (wp_mapM _ (λ _ v h2, ∃ d, data_of h2 v = Some d)).
        - intros _ v h2 h3 [d Hd] Hp. exists d. by eapply data_of_mono.
        - intros _ h2 _ _. apply wp_new_Value; [done | done|].
          eexists. apply data_of_snoc. }
      intros row h2 _ Hrow. cbv beta in Hrow. split.
      + rewrite <- (Forall2_length _ _ _ Hrow). apply length_seq.
      + apply datas_exist.
        apply (Forall2_right (λ v, ∃ d, data_of h2 v = Some d) _ _ Hrow). }
  intros w h1 _ Hw. cbv beta in Hw. split.
  - split.
    + rewrite <- (Forall2_length _ _ _ Hw). apply length_seq.
    + eapply Forall_impl;
        [exact (Forall2_right (λ row, length row = nin ∧ ∃ rd, datas h1 row rd) _ _ Hw)|].
      by intros row [Hlen _].
  - assert (Forall (λ row, ∃ rd, datas h1 row rd) w) as Hall.
    { eapply Forall_impl;
        [exact (Forall2_right (λ row, length row = nin ∧ ∃ rd, datas h1 row rd) _ _ Hw)|].
      by intros row [_ Hrd]. }
    clear Hw. induction Hall as [|row w [rd Hrd] _ [wd IH]]; [exists []; constructor|].
    exists (rd :: wd). by constructor.
Qed.

Lemma init_layer_spec init sd sdd li h :
  sd_rel h sd sdd →
  wp (init_layer init sd li) h
     (λ sd' h', ∃ wq wk wv wo fc1 fc2,
        sd' = sd ++ [ (layer_key li "attn_wq", wq); (layer_key li "attn_wk", wk);
                      (layer_key li "attn_wv", wv); (layer_key li "attn_wo", wo);
                      (layer_key li "mlp_fc1", fc1); (layer_key li "mlp_fc2", fc2) ] ∧
        rows N_EMBD N_EMBD wq ∧ rows N_EMBD N_EMBD wk ∧ rows N_EMBD N_EMBD wv ∧
        rows N_EMBD N_EMBD wo ∧ rows (4 * N_EMBD) N_EMBD fc1 ∧
        rows N_EMBD (4 * N_EMBD) fc2 ∧
        ∃ sdd', sd_rel h' sd' sdd').
Proof.
  intros Hsd. unfold init_layer.
  eapply wp_bind; [apply matrix_spec|]. intros wq h4 Hp4 [Swq [wqd Rwq]].
  advance Hp4.
  eapply wp_bind; [apply matrix_spec|]. intros wk h5 Hp5 [Swk [wkd Rwk]].
  advance Hp5.
  eapply wp_bind; [apply matrix_spec|]. intros wv h6 Hp6 [Swv [wvd Rwv]].
  advance Hp6.
  eapply wp_bind; [apply matrix_spec|]. intros wo h7 Hp7 [Swo [wod Rwo]].
  advance Hp7.
  eapply wp_bind; [apply matrix_spec|]. intros fc1 h8 Hp8 [Sfc1 [fc1d Rfc1]].
  advance Hp8.
  eapply wp_bind; [apply matrix_spec|]. intros fc2 h9 Hp9 [Sfc2 [fc2d Rfc2]].
  advance Hp9.
  apply wp_ret. exists wq, wk, wv, wo, fc1, fc2. repeat (split; [done|]).
  exists (sdd ++ [ (layer_key li "attn_wq", wqd); (layer_key li "attn_wk", wkd);
                   (layer_key li "attn_wv", wvd); (layer_key li "attn_wo", wod);
                   (layer_key li "mlp_fc1", fc1d); (layer_key li "mlp_fc2", fc2d) ]).
  apply Forall2_app; [done|]. by repeat constructor.
Qed.

(** The dictionary that the program builds has the shapes [sd_shape], and
    its entries are nodes of the store. *)
Lemma init_stateDict_spec init vocab h :
  wp (init_stateDict init vocab) h
     (λ sd h', sd_shape vocab sd ∧ ∃ sdd, sd_rel h' sd sdd).
Proof.
  unfold init_stateDict.
  eapply wp_bind; [apply matrix_spec|]. intros wte h1 Hp1 [Swte [wted Rwte]].
  advance Hp1.
  eapply wp_bind; [apply matrix_spec|]. intros wpe h2 Hp2 [Swpe [wped Rwpe]].
  advance Hp2.
  eapply wp_bind; [apply matrix_spec|]. intros lm h3 Hp3 [Slm [lmd Rlm]].
  advance Hp3.
  change (seq 0 N_LAYER) with [0]. cbn [foldM].
  eapply wp_bind.
  { apply (init_layer_spec init _
             [("wte"%string, wted); ("wpe"%string, wped); ("lm_head"%string, lmd)]).
    unfold sd_rel. by repeat constructor. }
  intros sd h4 _ (wq & wk & wv & wo & fc1 & fc2 & -> & Swq & Swk & Swv & Swo &
                  Sfc1 & Sfc2 & Hrel).
  apply wp_ret. split; [|done].
  change (layer_key 0 "attn_wq") with "layer0.attn_wq"%string.
  change (layer_key 0 "attn_wk") with "layer0.attn_wk"%string.
  change (layer_key 0 "attn_wv") with "layer0.attn_wv"%string.
  change (layer_key 0 "attn_wo") with "layer0.attn_wo"%string.
  change (layer_key 0 "mlp_fc1") with "layer0.mlp_fc1"%string.
  change (layer_key 0 "mlp_fc2") with "layer0.mlp_fc2"%string.
  unfold sd_shape. change (seq 0 N_LAYER) with [0].
  split; [exact Swte|]. split; [exact Swpe|]. split; [exact Slm|].
  apply Forall_singleton. unfold layer_shape.
  change (layer_key 0 "attn_wq") with "layer0.attn_wq"%string.
  change (layer_key 0 "attn_wk") with "layer0.attn_wk"%string.
  change (layer_key 0 "attn_wv") with "layer0.attn_wv"%string.
  change (layer_key 0 "attn_wo") with "layer0.attn_wo"%string.
  change (layer_key 0 "mlp_fc1") with "layer0.mlp_fc1"%string.
  change (layer_key 0 "mlp_fc2") with "layer0.mlp_fc2"%string.
  split; [exact Swq|]. split; [exact Swk|]. split; [exact Swv|].
  split; [exact Swo|]. split; [exact Sfc1 | exact Sfc2].
Qed.

End initialization.

(** ** The example parameter store *)

Section example_store.

Lemma sd_rel_const n c sd :
  refs_below n sd → sd_rel (replicate n (mkValue c 0 [] [])) sd (const_view c sd).
Proof.
  intros Hsd. unfold sd_rel, const_view. apply Forall2_fmap_r.
  apply Forall_Forall2_diag. eapply Forall_impl; [exact Hsd|].
  intros [k w] Hw. simpl in *. split; [done|].
  unfold mat_rel. apply Forall2_fmap_r. apply Forall_Forall2_diag.
  eapply Forall_impl; [exact Hw|]. intros row Hrow. simpl in *.
  unfold datas. apply Forall2_fmap_r. apply Forall_Forall2_diag.
  eapply Forall_impl; [exact Hrow|]. intros v Hv. simpl in *.
  unfold data_of. by rewrite lookup_replicate_2.
Qed.

Lemma example_sd_refs : refs_below 3392 example_sd.
Proof. apply (bool_decide_unpack _). vm_compute. reflexivity. Qed.

Lemma example_sd_shape : sd_shape 2 example_sd.
Proof. apply (bool_decide_unpack _). vm_compute. reflexivity. Qed.

Lemma example_sd_rel c : sd_rel (example_heap c) example_sd (const_view c example_sd).
Proof. apply sd_rel_const, example_sd_refs. Qed.


End example_store.

(** ** The tokens of a document of the corpus *)

Section tokenizer_lemmas.

Lemma indexOf_found (uchars : list ascii) (ch : ascii) :
  ch ∈ uchars → (0 ≤ indexOf uchars ch)%Z.
Proof.
  induction uchars as [|c rest IH]; intros Hin; [by apply elem_of_nil in Hin|].
  simpl. destruct (decide (c = ch)) as [|Hne]; [lia|].
  apply elem_of_cons in Hin as [->|Hin]; [done|].
  specialize (IH Hin). destruct (decide (indexOf rest ch = (-1)%Z)); lia.
Qed.

Lemma elem_of_uchars_of (docs : list string) (doc : string) (ch : ascii) :
  doc ∈ docs → ch ∈ String.list_ascii_of_string doc → ch ∈ uchars_of docs.
Proof.
  intros Hdoc Hch. unfold uchars_of.
  rewrite merge_sort_Permutation. apply elem_of_remove_dups.
  apply list_elem_of_In, in_concat.
  exists (String.list_ascii_of_string doc). split.
  - apply list_elem_of_In. by apply list_elem_of_fmap_2.
  - by apply list_elem_of_In.
Qed.

(** The token list of a document of the corpus: at least the two BOS, and
    only ids of the vocabulary. *)
Lemma tokenize_in_vocab (docs : list string) (doc : string) :
  doc ∈ docs →
  2 ≤ length (tokenize (uchars_of docs) doc) ∧
  Forall (in_vocab (vocabSize (uchars_of docs))) (tokenize (uchars_of docs) doc).
Proof.
  intros Hdoc. unfold tokenize, vocabSize, BOS. split.
  { rewrite !length_app. simpl. lia. }
  assert (in_vocab (length (uchars_of docs) + 1) (Z.of_nat (length (uchars_of docs))))
    as Hbos by (unfold in_vocab; lia).
  apply Forall_app. split; [by apply Forall_singleton|].
  apply Forall_app. split; [|by apply Forall_singleton].
  apply Forall_fmap, Forall_forall. intros ch Hch. simpl.
  pose proof (indexOf_range (uchars_of docs) ch).
  pose proof (indexOf_found (uchars_of docs) ch (elem_of_uchars_of docs doc ch Hdoc Hch)).
  unfold in_vocab. lia.
Qed.

End tokenizer_lemmas.

(** ** The engine on a small graph *)

Section small_graph.

(** [a = 2], [b = 3], [c = a.mul(b)], [y = c.add(a)]: the node [a] has the
    two parents [c] and [y]. *)
Example shared_node_topo :
  snd <$> buildTopo 4
    [mkValue 2 0 [] []; mkValue 3 0 [] [];
     mkValue 6 0 [0; 1] [3%R; 2%R]; mkValue 8 0 [2; 0] [1%R; 1%R]] 3 (∅, [])
  = Some [0; 1; 2; 3].
Proof. vm_compute. reflexivity. Qed.

(** [y.backward()] leaves [a.grad = b.data + 1] and [b.grad = a.data]. *)
Example shared_node_backward :
  ∃ h', backward 4 3
          [mkValue 2 0 [] []; mkValue 3 0 [] [];
           mkValue 6 0 [0; 1] [3%R; 2%R]; mkValue 8 0 [2; 0] [1%R; 1%R]] = Some h' ∧
        grad_of h' 0 = Some 4%R ∧ grad_of h' 1 = Some 2%R.
Proof.
  eexists. split.
  - unfold backward.
    match goal with
    | |- context [buildTopo ?f ?h ?v ?st] =>
        assert (buildTopo f h v st = Some ({[0; 1; 2; 3]}, [0; 1; 2; 3])) as ->
          by (vm_compute; reflexivity)
    end.
    simpl. reflexivity.
  - unfold grad_of. simpl. split; f_equal; lra.
Qed.

End small_graph.

(** ** backward: the topological order and the chain rule *)

Section chain_rule.

Lemma reach_trans h a b c : reach h a b → reach h b c → reach h a c.
Proof.
  intros Hab Hbc. induction Hbc as [|p nd c Hp IH Hnd Hc]; [done|].
  by eapply reach_child.
Qed.

Lemma reach_le h a b : wf_heap h → reach h a b → b ≤ a.
Proof.
  intros Hwf Hab. induction Hab as [|p nd c Hp IH Hnd Hc]; [done|].
  destruct (Hwf p nd Hnd) as [Hlt _]. rewrite Forall_forall in Hlt.
  specialize (Hlt c Hc). lia.
Qed.

Lemma proc_order_frame h h' l : frame h h' → proc_order h l → proc_order h' l.
Proof.
  intros Hf Hl. induction Hl as [|p l Hp Hc Hl IH]; constructor; [done| |done].
  intros nd' c Hnd' Hin.
  destruct (frame_lookup_r _ _ _ _ Hf Hnd') as (nd & Hnd & _ & Hch & _).
  apply (Hc nd c Hnd). by rewrite Hch.
Qed.

Lemma proc_order_children h l q nd c :
  proc_order h l → q ∈ l → h !! q = Some nd → c ∈ children nd → c ∈ l.
Proof.
  intros Hl. induction Hl as [|p l Hp Hc Hl IH]; intros Hq Hnd Hin.
  - by apply elem_of_nil in Hq.
  - apply elem_of_cons in Hq as [->|Hq].
    + right. by eapply Hc.
    + right. by apply IH.
Qed.

Lemma proc_order_NoDup h l : proc_order h l → NoDup l.
Proof. induction 1; by constructor. Qed.

Lemma buildTopo_spec h :
  wf_heap h → ∀ fuel v st, v < length h → v < fuel →
  (∀ x, x ∈ st.1 → x ∈ st.2 ∨ v < x) →
  (∀ x, x ∈ st.2 → x ∈ st.1) →
  proc_order h (reverse st.2) →
  ∃ st' new, buildTopo fuel h v st = Some st' ∧
    st'.2 = st.2 ++ new ∧
    st.1 ⊆ st'.1 ∧
    (∀ x, x ∈ st'.1 → x ∈ st.1 ∨ x ∈ st'.2) ∧
    (∀ x, x ∈ st'.2 → x ∈ st'.1) ∧
    v ∈ st'.2 ∧
    proc_order h (reverse st'.2) ∧
    (∀ x, x ∈ new → reach h v x) ∧
    (v ∉ st.1 → ∃ new', new = new' ++ [v]).
Proof.
  intros Hwf. induction fuel as [|fuel IH]; intros v st Hv Hfuel HQ Hsub Hord; [lia|].
  simpl. destruct (decide (v ∈ st.1)) as [Hin|Hnin].
  - exists st, []. rewrite app_nil_r. repeat split; try done.
    + intros x Hx. by left.
    + destruct (HQ v Hin); [done | lia].
    + intros x Hx. by apply elem_of_nil in Hx.
  - destruct (lookup_lt_is_Some_2 h v Hv) as [nd Hnd]. rewrite Hnd. simpl.
    destruct (Hwf v nd Hnd) as [Hlt _].
    assert (∀ cs s news,
      Forall (λ c, c < v) cs → (∀ c, c ∈ cs → c ∈ children nd) →
      s.2 = st.2 ++ news →
      ({[v]} ∪ st.1) ⊆ s.1 →
      (∀ x, x ∈ s.1 → x ∈ {[v]} ∪ st.1 ∨ x ∈ s.2) →
      (∀ x, x ∈ s.2 → x ∈ s.1) →
      v ∉ s.2 →
      proc_order h (reverse s.2) →
      (∀ x, x ∈ news → reach h v x) →
      ∃ s' news', foldlM (λ s child, buildTopo fuel h child s) s cs = Some s' ∧
        s'.2 = st.2 ++ news' ∧
        ({[v]} ∪ st.1) ⊆ s'.1 ∧
        (∀ x, x ∈ s'.1 → x ∈ {[v]} ∪ st.1 ∨ x ∈ s'.2) ∧
        (∀ x, x ∈ s'.2 → x ∈ s'.1) ∧
        (v ∉ s'.2) ∧
        proc_order h (reverse s'.2) ∧
        (∀ x, x ∈ news' → reach h v x) ∧
        (∀ x, x ∈ s.2 → x ∈ s'.2) ∧
        (∀ c, c ∈ cs → c ∈ s'.2)) as Hfold.
    { induction cs as [|c cs IHcs]; intros s news Hcs Hch E Hv1 Hnew Hsub1 Hvn Hord1 Hreach.
      - exists s, news. simpl. repeat split; try done.
        intros c Hc. by apply elem_of_nil in Hc.
      - apply Forall_cons in Hcs as [Hcv Hcs]. simpl.
        destruct (IH c s) as (s1 & new1 & Hrun & E1 & S1 & N1 & Sub1 & Hc1 & O1 & R1 & _);
          [lia | lia | | done | done |].
        { intros x Hx. destruct (Hnew x Hx) as [Hx'|Hx']; [|by left].
          apply elem_of_union in Hx' as [Hx'|Hx'].
          - apply elem_of_singleton in Hx'. subst x. right. lia.
          - destruct (HQ x Hx'); [left | right; lia].
            rewrite E. apply elem_of_app. by left. }
        rewrite Hrun. simpl.
        assert (reach h v c) as Hvc.
        { eapply reach_child; [apply reach_root | exact Hnd |]. apply Hch. by left. }
        destruct (IHcs s1 (news ++ new1)) as
          (s' & news' & Hrun' & E' & S' & N' & Sub' & Hvn' & O' & R' & Mono' & Hcs');
          [done | | | | | done | | done | |].
        { intros c' Hc'. apply Hch. by right. }
        { by rewrite E1, E, app_assoc. }
        { by etrans. }
        { intros x Hx. destruct (N1 x Hx) as [Hx'|Hx']; [|by right].
          destruct (Hnew x Hx') as [?|Hx'']; [by left|]. right.
          rewrite E1. apply elem_of_app. by left. }
        { rewrite E1. intros Hx. apply elem_of_app in Hx as [Hx|Hx]; [done|].
          pose proof (reach_le h c v Hwf (R1 v Hx)). lia. }
        { intros x Hx. apply elem_of_app in Hx as [Hx|Hx]; [by apply Hreach|].
          eapply reach_trans; [exact Hvc | by apply R1]. }
        exists s', news'. repeat split; try done.
        + intros x Hx. apply Mono'. rewrite E1. apply elem_of_app. by left.
        + intros c' Hc'. apply elem_of_cons in Hc' as [->|Hc'].
          * by apply Mono'.
          * by apply Hcs'. }
    destruct (Hfold (children nd) ({[v]} ∪ st.1, st.2) [])
      as (s' & news' & Hrun & E' & S' & N' & Sub' & Hvn' & O' & R' & Mono' & Hcs');
      simpl; try done.
    { by rewrite app_nil_r. }
    { intros x Hx. by left. }
    { intros x Hx. apply elem_of_union. right. by apply Hsub. }
    { intros Hx. apply Hnin. by apply Hsub. }
    { intros x Hx. by apply elem_of_nil in Hx. }
    rewrite Hrun. simpl.
    exists (s'.1, s'.2 ++ [v]), (news' ++ [v]). simpl. repeat split.
    + by rewrite E', app_assoc.
    + set_solver.
    + intros x Hx. destruct (N' x Hx) as [Hx'|Hx'].
      * apply elem_of_union in Hx' as [Hx'|Hx']; [|by left].
        apply elem_of_singleton in Hx'. subst x. right. apply elem_of_app. right. by left.
      * right. apply elem_of_app. by left.
    + intros x Hx. apply elem_of_app in Hx as [Hx|Hx]; [by apply Sub'|].
      apply list_elem_of_singleton in Hx. subst x. set_solver.
    + apply elem_of_app. right. by left.
    + rewrite reverse_snoc. constructor; [|  | done].
      * by rewrite elem_of_reverse.
      * intros nd' c Hnd' Hc. rewrite elem_of_reverse. apply Hcs'. congruence.
    + intros x Hx. apply elem_of_app in Hx as [Hx|Hx]; [by apply R'|].
      apply list_elem_of_singleton in Hx. subst x. apply reach_root.
    + intros _. by exists news'.
Qed.


Lemma Rsum_cons x l : Rsum (x :: l) = (x + Rsum l)%R.
Proof. done. Qed.

Lemma grad_of_insert h c nd v g :
  h !! c = Some nd →
  grad_of (<[c := with_grad g nd]> h) v =
    if decide (v = c) then Some g else grad_of h v.
Proof.
  intros Hc. unfold grad_of. destruct (decide (v = c)) as [->|Hne].
  - rewrite list_lookup_insert_eq; [done|]. by eapply lookup_lt_Some.
  - by rewrite list_lookup_insert_ne.
Qed.

Lemma backward_children_grads g p nd v :
  wf_heap g → ∀ m k g0,
  k + m = length (children nd) → g0 !! p = Some nd → frame g g0 →
  ∃ g', foldlM (backward_child p) g0 (seq k m) = Some g' ∧
    frame g0 g' ∧ g' !! p = Some nd ∧
    grad_of g' v =
      (λ x, x + Rsum ((λ cl : nat * R, if decide (cl.1 = v) then cl.2 * grad nd else 0)
                        <$> drop k (zip (children nd) (localGrads nd))))%R
        <$> grad_of g0 v.
Proof.
  intros Hwf. induction m as [|m IH]; intros k g0 Hk Hp Hf.
  - exists g0. simpl. split; [done|]. split; [apply frame_refl|]. split; [done|].
    rewrite drop_ge; [|rewrite length_zip_with; lia]. simpl.
    unfold grad_of. destruct (g0 !! v); simpl; [f_equal; lra | done].
  - pose proof (frame_wf _ _ Hf Hwf) as Hwf0.
    destruct (Hwf0 p nd Hp) as [Hlt Hlen].
    destruct (lookup_lt_is_Some_2 (children nd) k) as [c Hc]; [lia|].
    destruct (lookup_lt_is_Some_2 (localGrads nd) k) as [lg Hlg]; [lia|].
    assert (c < p) as Hcp.
    { rewrite Forall_forall in Hlt. apply Hlt. by eapply list_elem_of_lookup_2. }
    assert (p < length g0) as Hpl by (by eapply lookup_lt_Some).
    destruct (lookup_lt_is_Some_2 g0 c) as [cn Hcn]; [lia|].
    set (g1 := <[c := with_grad (grad cn + lg * grad nd) cn]> g0).
    assert (backward_child p g0 k = Some g1) as Hstep.
    { unfold backward_child, add_grad. rewrite Hp. simpl. rewrite Hc, Hlg. simpl.
      by rewrite Hcn. }
    assert (frame g0 g1) as Hf1 by (by apply frame_with_grad).
    destruct (IH (S k) g1) as (g' & Hrun & Hf' & Hp' & Hg'); [lia | | |].
    { unfold g1. rewrite list_lookup_insert_ne; [done | lia]. }
    { by eapply frame_trans. }
    exists g'. split.
    { change (seq k (S m)) with (k :: seq (S k) m).
      change (foldlM (backward_child p) g0 (k :: seq (S k) m))
        with (backward_child p g0 k ≫= λ a, foldlM (backward_child p) a (seq (S k) m)).
      by rewrite Hstep. }
    split; [by eapply frame_trans|]. split; [done|].
    rewrite Hg'. unfold g1. rewrite (grad_of_insert _ _ _ _ _ Hcn).
    assert (zip (children nd) (localGrads nd) !! k = Some (c, lg)) as Hz.
    { apply lookup_zip_with_Some. by exists c, lg. }
    rewrite (drop_S _ _ _ Hz), fmap_cons, Rsum_cons. cbn [fst snd].
    destruct (decide (v = c)) as [->|Hne].
    + rewrite decide_True by done. unfold grad_of. rewrite Hcn. simpl. f_equal. lra.
    + rewrite decide_False by done.
      unfold grad_of. destruct (g0 !! v); simpl; [f_equal; lra | done].
Qed.

Lemma backward_node_grads g p nd :
  wf_heap g → g !! p = Some nd →
  ∃ g', backward_node g p = Some g' ∧ frame g g' ∧
    ∀ v, grad_of g' v = (λ x, x + contrib g p v)%R <$> grad_of g v.
Proof.
  intros Hwf Hp. unfold backward_node. rewrite Hp. simpl.
  assert (∃ g', foldlM (backward_child p) g (seq 0 (length (children nd))) = Some g' ∧
            frame g g' ∧ g' !! p = Some nd) as (g' & Hrun & Hf & Hp').
  { destruct (backward_children_grads g p nd 0 Hwf (length (children nd)) 0 g)
      as (g' & ? & ? & ? & _); [lia | done | apply frame_refl |]. by exists g'. }
  exists g'. split; [done|]. split; [done|]. intros v.
  destruct (backward_children_grads g p nd v Hwf (length (children nd)) 0 g)
    as (g'' & Hrun' & _ & _ & Hg); [lia | done | apply frame_refl |].
  rewrite Hrun in Hrun'. simplify_eq. rewrite Hg.
  unfold contrib. by rewrite Hp.
Qed.

Lemma contrib_zero h p v :
  (∀ nd, h !! p = Some nd → v ∉ children nd) → contrib h p v = 0%R.
Proof.
  intros Hno. unfold contrib. destruct (h !! p) as [nd|] eqn:Hp; [|done].
  specialize (Hno nd eq_refl).
  assert (∀ l : list (nat * R), Forall (λ cl, cl.1 ≠ v) l →
    Rsum ((λ cl : nat * R, if decide (cl.1 = v) then cl.2 * grad nd else 0)%R <$> l) = 0%R)
    as Hz.
  { induction l as [|cl l IH]; intros Hl; [done|].
    apply Forall_cons in Hl as [Hcl Hl].
    rewrite fmap_cons, Rsum_cons, (IH Hl), decide_False by done. lra. }
  apply Hz. apply Forall_forall. intros [c lg] Hin. simpl. intros ->.
  apply Hno. apply elem_of_zip_l in Hin. done.
Qed.

Lemma contrib_frame h h' p v :
  frame h h' → grad_of h' p = grad_of h p → contrib h' p v = contrib h p v.
Proof.
  intros Hf Hg. unfold contrib, grad_of in *.
  destruct (h !! p) as [nd|] eqn:Hp.
  - destruct (frame_lookup _ _ _ _ Hf Hp) as (nd' & Hp' & _ & Hc & Hl).
    rewrite Hp' in *. simpl in Hg. simplify_eq. by rewrite Hc, Hl, Hg.
  - destruct (h' !! p) as [nd'|] eqn:Hp'; [|done].
    destruct (frame_lookup_r _ _ _ _ Hf Hp') as (nd & Hnd & _). congruence.
Qed.

Lemma backward_loop_grads L :
  ∀ g, wf_heap g → Forall (λ p, p < length g) L → proc_order g L →
  ∃ g', foldlM backward_node g L = Some g' ∧ frame g g' ∧
    ∀ v, grad_of g' v =
           (λ x, x + Rsum ((λ p, contrib g' p v) <$> L))%R <$> grad_of g v.
Proof.
  induction L as [|p L IH]; intros g Hwf Hlen Hord.
  - exists g. split; [done|]. split; [apply frame_refl|]. intros v. simpl.
    unfold grad_of. destruct (g !! v); simpl; [f_equal; lra | done].
  - apply Forall_cons in Hlen as [Hp Hlen].
    inversion Hord as [|p' L' Hnotin Hch Hord' E]; subst.
    destruct (lookup_lt_is_Some_2 g p Hp) as [nd Hnd].
    destruct (backward_node_grads g p nd Hwf Hnd) as (g1 & Hrun1 & Hf1 & Hg1).
    destruct (IH g1) as (g' & Hrun & Hf & Hg).
    { by eapply frame_wf. }
    { by rewrite (frame_length _ _ Hf1). }
    { by eapply proc_order_frame. }
    exists g'. split.
    { change (foldlM backward_node g (p :: L))
        with (backward_node g p ≫= λ a, foldlM backward_node a L).
      by rewrite Hrun1. }
    split; [by eapply frame_trans|].
    assert (grad_of g' p = grad_of g p) as Hgp.
    { rewrite Hg, Hg1.
      assert (contrib g p p = 0%R) as ->.
      { apply contrib_zero. intros nd' Hnd' Hin.
        destruct (Hwf p nd' Hnd') as [Hlt _]. rewrite Forall_forall in Hlt.
        specialize (Hlt p Hin). lia. }
      assert (Rsum ((λ q, contrib g' q p) <$> L) = 0%R) as ->.
      { assert (∀ l, l ⊆ L → Rsum ((λ q, contrib g' q p) <$> l) = 0%R) as Hz.
        { induction l as [|q l IHl]; intros Hsub; [done|].
          rewrite fmap_cons, Rsum_cons, IHl by set_solver.
          rewrite contrib_zero; [lra|].
          intros ndq Hq Hin. apply Hnotin.
          assert (frame g g') as Hgg' by (by eapply frame_trans).
          destruct (frame_lookup_r _ _ _ _ Hgg' Hq) as (ndq0 & Hq0 & _ & Hc0 & _).
          eapply (proc_order_children g L q ndq0 p); [done | set_solver | done |].
          by rewrite Hc0. }
        by apply Hz. }
      unfold grad_of. destruct (g !! p); simpl; [f_equal; lra | done]. }
    intros v. rewrite Hg, Hg1, fmap_cons, Rsum_cons.
    rewrite (contrib_frame g g' p v); [|by eapply frame_trans|done].
    unfold grad_of. destruct (g !! v); simpl; [f_equal; lra | done].
Qed.

Lemma Rsum_zero {A} (f : A → R) (l : list A) :
  (∀ x, x ∈ l → f x = 0%R) → Rsum (f <$> l) = 0%R.
Proof.
  induction l as [|x l IH]; intros Hz; [done|].
  rewrite fmap_cons, Rsum_cons, IH, Hz; [lra | by left |].
  intros y Hy. apply Hz. by right.
Qed.

Lemma backward_grads h root fuel :
  wf_heap h → root < length h → root < fuel →
  ∃ h' st,
    buildTopo fuel h root (∅, []) = Some st ∧
    backward fuel root h = Some h' ∧ frame h h' ∧
    proc_order h (reverse st.2) ∧
    (∃ l, st.2 = l ++ [root]) ∧
    (∀ v, v ∈ st.2 ↔ reach h root v) ∧
    (∀ v, grad_of h' v =
            (λ x, if decide (v = root) then 1
                  else x + Rsum ((λ p, contrib h' p v) <$> reverse st.2))%R
              <$> grad_of h v).
Proof.
  intros Hwf Hroot Hfuel.
  destruct (buildTopo_spec h Hwf fuel root (∅, [])) as
    (st & new & Hrun & E & _ & _ & _ & Hin & Hord & Hreach & Hlast);
    [done | done | set_solver | | constructor |].
  { intros x Hx. by apply elem_of_nil in Hx. }
  simpl in E. subst new.
  destruct Hlast as [l Hl]; [set_solver|].
  destruct (lookup_lt_is_Some_2 h root Hroot) as [nd Hnd].
  set (h1 := <[root := with_grad 1 nd]> h).
  assert (frame h h1) as Hf1 by (by apply frame_with_grad).
  destruct (backward_loop_grads (reverse st.2) h1) as (h' & Hloop & Hf & Hg).
  { by eapply frame_wf. }
  { apply Forall_forall. intros x Hx. rewrite elem_of_reverse in Hx.
    rewrite (frame_length _ _ Hf1).
    pose proof (reach_le h root x Hwf (Hreach x Hx)). lia. }
  { by eapply proc_order_frame. }
  exists h', st. split; [done|]. split.
  { unfold backward. rewrite Hrun. simpl. unfold set_grad. rewrite Hnd. done. }
  split; [by eapply frame_trans|]. split; [done|]. split; [by exists l|]. split.
  { intros v. split; [apply Hreach|]. intros Hv.
    induction Hv as [|p ndp c Hp IH Hndp Hc]; [done|].
    rewrite <- elem_of_reverse.
    eapply (proc_order_children h (reverse st.2) p ndp c); [done | | done | done].
    by rewrite elem_of_reverse. }
  intros v. rewrite Hg. unfold h1. rewrite (grad_of_insert _ _ _ _ _ Hnd).
  destruct (decide (v = root)) as [->|Hne].
  - unfold grad_of. rewrite Hnd. simpl. f_equal.
    rewrite Rsum_zero; [lra|].
    intros p Hp. apply contrib_zero. intros ndp Hndp Hc.
    rewrite elem_of_reverse in Hp.
    pose proof (reach_le h root p Hwf (Hreach p Hp)) as Hle.
    assert (frame h h') as Hhh' by (by eapply frame_trans).
    destruct (frame_lookup_r _ _ _ _ Hhh' Hndp) as (nd0 & Hnd0 & _ & Hc0 & _).
    destruct (Hwf p nd0 Hnd0) as [Hlt _]. rewrite Forall_forall in Hlt.
    rewrite <- Hc0 in Hc. specialize (Hlt root Hc). lia.
  - done.
Qed.


Lemma Rsum_app l k : Rsum (l ++ k) = (Rsum l + Rsum k)%R.
Proof.
  induction l as [|x l IH]; [rewrite app_nil_l; unfold Rsum at 2; simpl; lra|].
  rewrite <- app_comm_cons, !Rsum_cons, IH. lra.
Qed.

Lemma Rsum_reverse l : Rsum (reverse l) = Rsum l.
Proof.
  induction l as [|x l IH]; [done|].
  rewrite reverse_cons, Rsum_app, IH, !Rsum_cons. unfold Rsum at 2. simpl. lra.
Qed.

Lemma proc_order_before h topo :
  proc_order h (reverse topo) →
  ∀ i p nd c, topo !! i = Some p → h !! p = Some nd → c ∈ children nd →
    ∃ j, j < i ∧ topo !! j = Some c.
Proof.
  induction topo as [|x t IH] using rev_ind; intros Hord i p nd c Hi Hp Hc.
  - by rewrite lookup_nil in Hi.
  - rewrite reverse_snoc in Hord.
    inversion Hord as [|x' l' Hnotin Hch Hord' E]; subst.
    apply lookup_app_Some in Hi as [Hi|[Hge Hi]].
    + destruct (IH Hord' i p nd c Hi Hp Hc) as (j & Hj & Hjc).
      exists j. split; [done|]. by apply lookup_app_l_Some.
    + apply list_lookup_singleton_Some in Hi as [Hi ->].
      specialize (Hch nd c Hp Hc). rewrite elem_of_reverse in Hch.
      apply list_elem_of_lookup in Hch as [j Hj].
      exists j. split; [|by apply lookup_app_l_Some].
      apply lookup_lt_Some in Hj. lia.
Qed.

(** X1.  [buildTopo] from a root returns the nodes that the root reaches,
    each of them once, every node after all of its children and the root
    last; the [visited] set holds the same nodes. *)
Theorem buildTopo_topological_order (h : Heap) (root : Ref) (fuel : nat) :
  wf_heap h → root < length h → root < fuel →
  ∃ visited topo,
    buildTopo fuel h root (∅, []) = Some (visited, topo) ∧
    NoDup topo ∧
    last topo = Some root ∧
    (∀ v, v ∈ topo ↔ reach h root v) ∧
    (∀ v, v ∈ visited ↔ v ∈ topo) ∧
    (∀ i p nd c, topo !! i = Some p → h !! p = Some nd → c ∈ children nd →
       ∃ j, j < i ∧ topo !! j = Some c).
Proof.
  intros Hwf Hroot Hfuel.
  destruct (buildTopo_spec h Hwf fuel root (∅, [])) as
    (st & new & Hrun & E & _ & Hvis & Hsub & Hin & Hord & Hreach & Hlast);
    [done | done | set_solver | | constructor |].
  { intros x Hx. by apply elem_of_nil in Hx. }
  simpl in E. subst new. destruct Hlast as [l Hl]; [set_solver|].
  destruct st as [visited topo]. simpl in *.
  exists visited, topo. split; [done|]. split.
  { rewrite <- reverse_Permutation. by eapply proc_order_NoDup. }
  split; [by rewrite Hl, last_snoc|]. split.
  { intros v. split; [apply Hreach|]. intros Hv.
    induction Hv as [|p ndp c Hp IH Hndp Hc]; [done|].
    rewrite <- elem_of_reverse.
    eapply (proc_order_children h (reverse topo) p ndp c); [done | | done | done].
    by rewrite elem_of_reverse. }
  split.
  { intros v. split; [|apply Hsub]. intros Hv.
    destruct (Hvis v Hv) as [Hv'|Hv']; [set_solver | done]. }
  by apply proc_order_before.
Qed.

(** X2.  The chain rule.  [backward] from a root leaves the root with
    [grad] 1 and every other node [v] with its former [grad] plus, for each
    node [p] that the root reaches and each child edge of [p] that leads to
    [v], the local gradient of the edge times the final [grad] of [p]. *)
Theorem backward_chain_rule (h : Heap) (root : Ref) (fuel : nat) :
  wf_heap h → root < length h → root < fuel →
  ∃ h' nodes,
    backward fuel root h = Some h' ∧
    NoDup nodes ∧
    (∀ v, v ∈ nodes ↔ reach h root v) ∧
    grad_of h' root = Some 1%R ∧
    ∀ v nd, v ≠ root → h !! v = Some nd →
      grad_of h' v = Some (grad nd + Rsum ((λ p, contrib h' p v) <$> nodes))%R.
Proof.
  intros Hwf Hroot Hfuel.
  destruct (backward_grads h root fuel Hwf Hroot Hfuel)
    as (h' & st & _ & Hback & _ & Hord & _ & Hreach & Hg).
  exists h', st.2. split; [done|]. split.
  { rewrite <- reverse_Permutation. by eapply proc_order_NoDup. }
  split; [done|]. split.
  - destruct (lookup_lt_is_Some_2 h root Hroot) as [nd Hnd].
    rewrite Hg. unfold grad_of. rewrite Hnd. simpl. by rewrite decide_True.
  - intros v nd Hne Hv. rewrite Hg. unfold grad_of. rewrite Hv. simpl.
    rewrite decide_False by done.
    by rewrite fmap_reverse, Rsum_reverse.
Qed.

(** X3.  [backward] leaves a node that the root does not reach exactly as
    it was, its [grad] included. *)
Theorem backward_leaves_unreachable (h : Heap) (root : Ref) (fuel : nat) (v : Ref) :
  wf_heap h → root < length h → root < fuel → ¬ reach h root v →
  ∃ h', backward fuel root h = Some h' ∧ h' !! v = h !! v.
Proof.
  intros Hwf Hroot Hfuel Hv.
  destruct (backward_grads h root fuel Hwf Hroot Hfuel)
    as (h' & st & _ & Hback & Hf & Hord & _ & Hreach & Hg).
  exists h'. split; [done|].
  specialize (Hg v).
  assert (Rsum ((λ p, contrib h' p v) <$> reverse st.2) = 0%R) as Hz.
  { apply Rsum_zero. intros p Hp. apply contrib_zero. intros ndp Hndp Hc.
    rewrite elem_of_reverse in Hp. apply Hv.
    destruct (frame_lookup_r _ _ _ _ Hf Hndp) as (nd0 & Hnd0 & _ & Hc0 & _).
    eapply reach_child; [by apply Hreach | exact Hnd0 | by rewrite Hc0]. }
  unfold grad_of in Hg.
  destruct (h !! v) as [nd|] eqn:Hnd.
  - destruct (frame_lookup _ _ _ _ Hf Hnd) as (nd' & Hnd' & Hd & Hc & Hl).
    rewrite Hnd' in *. simpl in Hg. rewrite Hz in Hg.
    rewrite decide_False in Hg.
    2:{ intros ->. apply Hv. apply reach_root. }
    simplify_eq.
    destruct nd, nd'. simpl in *. f_equal. f_equal; [done | lra | done | done].
  - destruct (h' !! v) as [nd'|] eqn:Hnd'; [|done].
    destruct (frame_lookup_r _ _ _ _ Hf Hnd') as (nd0 & Hnd0 & _). congruence.
Qed.


Lemma Rsum_only {A} (f : A → R) (l : list A) (x0 : A) :
  NoDup l → x0 ∈ l → (∀ x, x ∈ l → x ≠ x0 → f x = 0%R) → Rsum (f <$> l) = f x0.
Proof.
  induction l as [|x l IH]; intros Hnd Hin Hz; [by apply elem_of_nil in Hin|].
  apply NoDup_cons in Hnd as [Hx Hnd]. rewrite fmap_cons, Rsum_cons.
  apply elem_of_cons in Hin as [->|Hin].
  - rewrite Rsum_zero; [lra|]. intros y Hy. apply Hz; [by right|].
    intros ->. done.
  - rewrite IH; [|done|done|].
    + rewrite Hz; [lra | by left |]. intros ->. done.
    + intros y Hy Hne. apply Hz; [by right | done].
Qed.

Lemma div_run h a b na nb :
  h !! a = Some na → h !! b = Some nb →
  div a (OValue b) h =
    Some (S (length h),
          h ++ [mkValue (js_pow (data nb) (-1)) 0 [b]
                        [(-1 * js_pow (data nb) (-1 - 1))%R];
                mkValue (data na * js_pow (data nb) (-1)) 0 [a; length h]
                        [js_pow (data nb) (-1); data na]]).
Proof.
  intros Ha Hb.
  unfold div, toValue, pow, mul, toValue, mbind, M_bind, mret, M_ret, get_data, new_Value.
  rewrite Hb. rewrite lookup_app_l by (by eapply lookup_lt_Some). rewrite Ha.
  rewrite list_lookup_middle by done. simpl.
  rewrite length_app. simpl. rewrite <- app_assoc. simpl.
  do 3 f_equal. lia.
Qed.

(** X4.  The quotient rule, through the two nodes that [div] creates (a
    [pow] with exponent -1 and a [mul]).  For two distinct leaves [a] and
    [b] with [b.data] not 0, [y = a.div(b)] holds [a.data / b.data], and
    [y.backward()] adds [1 / b.data] to [a.grad] and
    [- a.data / b.data^2] to [b.grad]. *)
Theorem div_backward_quotient_rule
    (h : Heap) (a b : Ref) (na nb : Value) (fuel : nat) :
  wf_heap h → h !! a = Some na → h !! b = Some nb → a ≠ b →
  children na = [] → children nb = [] → data nb ≠ 0%R → S (length h) < fuel →
  ∃ y h1 h2,
    div a (OValue b) h = Some (y, h1) ∧
    data_of h1 y = Some (data na / data nb)%R ∧
    backward fuel y h1 = Some h2 ∧
    grad_of h2 a = Some (grad na + 1 / data nb)%R ∧
    grad_of h2 b = Some (grad nb - data na / (data nb) ^ 2)%R.
Proof.
  intros Hwf Ha Hb Hab Hca Hcb Hnz Hfuel.
  assert (a < length h) as Hal by (by eapply lookup_lt_Some).
  assert (b < length h) as Hbl by (by eapply lookup_lt_Some).
  set (op := length h). set (y := S (length h)).
  set (ndo := mkValue (js_pow (data nb) (-1)) 0 [b] [(-1 * js_pow (data nb) (-1 - 1))%R]).
  set (ndy := mkValue (data na * js_pow (data nb) (-1)) 0 [a; op]
                      [js_pow (data nb) (-1); data na]).
  set (h1 := h ++ [ndo; ndy]).
  assert (h1 !! a = Some na) as Ha1 by (unfold h1; by rewrite lookup_app_l).
  assert (h1 !! b = Some nb) as Hb1 by (unfold h1; by rewrite lookup_app_l).
  assert (h1 !! op = Some ndo) as Ho1 by (unfold h1, op; by rewrite list_lookup_middle).
  assert (h1 !! y = Some ndy) as Hy1.
  { unfold h1, y. rewrite lookup_app_r by lia.
    by replace (S (length h) - length h) with 1 by lia. }
  assert (length h1 = S (S (length h))) as Hlen1.
  { unfold h1. rewrite length_app. simpl. lia. }
  assert (wf_heap h1) as Hwf1.
  { unfold h1. change [ndo; ndy] with ([ndo] ++ [ndy]). rewrite app_assoc.
    apply wf_heap_snoc.
    - apply wf_heap_snoc; [done|]. split; [|done]. simpl. by repeat constructor.
    - rewrite length_app. simpl. split; [|done]. simpl.
      repeat constructor; unfold op; lia. }
  destruct (backward_grads h1 y fuel Hwf1) as
    (h2 & st & _ & Hback & Hf & Hord & _ & Hreach & Hg); [lia | done |].
  assert (∀ p, p ∈ reverse st.2 → p = y ∨ p = op ∨ p = a ∨ p = b) as Hnodes.
  { intros p Hp. rewrite elem_of_reverse in Hp. apply Hreach in Hp.
    induction Hp as [|p ndp c Hp IH Hndp Hc]; [by left|].
    destruct IH as [-> | [-> | [-> | ->]]]; simplify_eq; simpl in Hc.
    - apply elem_of_cons in Hc as [->|Hc]; [by right; right; left|].
      apply list_elem_of_singleton in Hc as ->. by right; left.
    - apply list_elem_of_singleton in Hc as ->. by right; right; right.
    - rewrite Hca in Hc. by apply elem_of_nil in Hc.
    - rewrite Hcb in Hc. by apply elem_of_nil in Hc. }
  assert (NoDup (reverse st.2)) as Hnodup by (by eapply proc_order_NoDup).
  assert (y ∈ reverse st.2) as Hyin.
  { rewrite elem_of_reverse. apply Hreach. apply reach_root. }
  assert (op ∈ reverse st.2) as Hoin.
  { rewrite elem_of_reverse. apply Hreach.
    eapply reach_child; [apply reach_root | exact Hy1 |]. simpl. right. by left. }
  (* the nodes of the final store *)
  destruct (frame_lookup _ _ _ _ Hf Hy1) as (ndy' & Hy2 & _ & Hcy & Hly).
  destruct (frame_lookup _ _ _ _ Hf Ho1) as (ndo' & Ho2 & _ & Hco & Hlo).
  destruct (frame_lookup _ _ _ _ Hf Ha1) as (na' & Ha2 & _ & Hca' & _).
  destruct (frame_lookup _ _ _ _ Hf Hb1) as (nb' & Hb2 & _ & Hcb' & _).
  simpl in Hcy, Hly, Hco, Hlo.
  assert (grad ndy' = 1%R) as Hgy.
  { pose proof (Hg y) as Hgy. unfold grad_of in Hgy. rewrite Hy1, Hy2 in Hgy.
    simpl in Hgy. rewrite decide_True in Hgy by done. congruence. }
  assert (∀ p v, p ∈ reverse st.2 → p ≠ y → p ≠ op → contrib h2 p v = 0%R) as Hleaf.
  { intros p v Hp Hpy Hpo. apply contrib_zero. intros ndp Hndp.
    destruct (Hnodes p Hp) as [-> | [-> | [-> | ->]]]; try done; simplify_eq.
    - rewrite <- Hca', Hca. apply not_elem_of_nil.
    - rewrite <- Hcb', Hcb. apply not_elem_of_nil. }
  assert (grad ndo' = data na) as Hgo.
  { pose proof (Hg op) as Hgo. unfold grad_of in Hgo. rewrite Ho1, Ho2 in Hgo.
    simpl in Hgo. rewrite decide_False in Hgo by (unfold op, y; lia).
    rewrite (Rsum_only _ _ y) in Hgo; [|done|done|].
    - unfold contrib in Hgo. rewrite Hy2, <- Hcy, <- Hly, Hgy in Hgo.
      cbn [zip zip_with fmap list_fmap fst snd] in Hgo.
      rewrite !Rsum_cons in Hgo.
      rewrite decide_False in Hgo by (unfold op; lia).
      rewrite decide_True in Hgo by done.
      injection Hgo as ->. unfold Rsum. simpl. lra.
    - intros p Hp Hne. destruct (decide (p = op)) as [->|Hpo]; [|by apply Hleaf].
      apply contrib_zero. intros ndp Hndp. simplify_eq. rewrite <- Hco.
      intros Hin. apply list_elem_of_singleton in Hin. unfold op in Hin. lia. }
  exists y, h1, h2. split; [by apply div_run|]. split.
  { unfold data_of. rewrite Hy1. simpl. by rewrite js_pow_inverse. }
  split; [done|]. split.
  - rewrite Hg. unfold grad_of. rewrite Ha1. simpl.
    rewrite decide_False by (unfold y; lia). f_equal.
    rewrite (Rsum_only _ _ y); [|done|done|].
    + unfold contrib. rewrite Hy2, <- Hcy, <- Hly, Hgy.
      cbn [zip zip_with fmap list_fmap fst snd]. rewrite !Rsum_cons.
      rewrite decide_True by done.
      rewrite decide_False by (unfold op; lia).
      rewrite js_pow_inverse. unfold Rsum. simpl. lra.
    + intros p Hp Hne. destruct (decide (p = op)) as [->|Hpo]; [|by apply Hleaf].
      apply contrib_zero. intros ndp Hndp. simplify_eq. rewrite <- Hco.
      intros Hin. apply list_elem_of_singleton in Hin. done.
  - rewrite Hg. unfold grad_of. rewrite Hb1. simpl.
    rewrite decide_False by (unfold y; lia). f_equal.
    rewrite (Rsum_only _ _ op); [|done|done|].
    + unfold contrib. rewrite Ho2, <- Hco, <- Hlo, Hgo.
      cbn [zip zip_with fmap list_fmap fst snd]. rewrite !Rsum_cons.
      rewrite decide_True by done.
      replace (-1 - 1)%R with (IZR (-2)) by lra.
      rewrite js_pow_int. unfold Rsum. simpl. field. done.
    + intros p Hp Hne. destruct (decide (p = y)) as [->|Hpy]; [|by apply Hleaf].
      apply contrib_zero. intros ndp Hndp. simplify_eq. rewrite <- Hcy.
      intros Hin. apply elem_of_cons in Hin as [->|Hin]; [done|].
      apply list_elem_of_singleton in Hin. unfold op in Hin. lia.
Qed.

(** X5.  For [x.data > 0], [relu(x)] is a node with the [data] of [x] and
    local gradient 1, and [backward] from it adds 1 to [x.grad]. *)
Theorem relu_positive (h : Heap) (x : Ref) (nd : Value) (fuel : nat) :
  wf_heap h → h !! x = Some nd → (0 < data nd)%R → length h < fuel →
  ∃ y h1 h2,
    relu x h = Some (y, h1) ∧
    h1 !! y = Some (mkValue (data nd) 0 [x] [1%R]) ∧
    backward fuel y h1 = Some h2 ∧
    grad_of h2 x = Some (grad nd + 1)%R.
Proof.
  intros Hwf Hx Hd Hfuel.
  assert (x < length h) as Hlt by (by eapply lookup_lt_Some).
  set (ynd := mkValue (data nd) 0 [x] [1%R]).
  set (h1 := h ++ [ynd]).
  assert (relu x h = Some (length h, h1)) as Hrun.
  { rewrite (relu_run h x nd Hx). unfold h1, ynd.
    rewrite Rmax_right by lra.
    destruct (Rgt_dec (data nd) 0) as [_|Hn]; [done | lra]. }
  assert (wf_heap h1) as Hwf1.
  { apply wf_heap_snoc; [done|]. split; [|done]. simpl. by repeat constructor. }
  assert (h1 !! length h = Some ynd) as Hy by (by apply list_lookup_middle).
  assert (h1 !! x = Some nd) as Hx1 by (unfold h1; by rewrite lookup_app_l).
  destruct (backward_root h1 (length h) ynd x fuel) as (h2 & h3 & H2 & H3 & Hk);
    [done | done | simpl; by repeat constructor | done |].
  exists (length h), h1, h3. split; [done|]. split; [done|]. split; [done|].
  unfold grad_of. rewrite (proj2 Hk x); [|done].
  revert H2. unfold backward_node.
  assert (length h1 = S (length h)) as Hlen1.
  { unfold h1. rewrite length_app. simpl. lia. }
  rewrite list_lookup_insert_eq by lia. simpl.
  unfold backward_child, add_grad.
  rewrite list_lookup_insert_eq by lia. simpl.
  rewrite list_lookup_insert_ne by lia. rewrite Hx1. simpl.
  intros [= <-].
  rewrite list_lookup_insert_eq by (rewrite !length_insert; lia). simpl.
  f_equal. lra.
Qed.

Lemma contrib_above h p v :
  wf_heap h → p ≤ v → contrib h p v = 0%R.
Proof.
  intros Hwf Hle. apply contrib_zero. intros nd Hnd Hin.
  destruct (Hwf p nd Hnd) as [Hlt _]. rewrite Forall_forall in Hlt.
  specialize (Hlt v Hin). lia.
Qed.

Lemma neg_log_run h p np :
  h !! p = Some np →
  (l ← log p; neg l) h =
    Some (S (S (length h)),
          h ++ [mkValue (ln (data np)) 0 [p] [(1 / data np)%R];
                mkValue (-1) 0 [] [];
                mkValue (ln (data np) * -1) 0 [length h; S (length h)]
                        [(-1)%R; ln (data np)]]).
Proof.
  intros Hp.
  unfold neg, log, mul, toValue, mbind, M_bind, mret, M_ret, get_data, new_Value.
  rewrite Hp. simpl. rewrite length_app. simpl.
  rewrite lookup_app_l by (rewrite length_app; simpl; lia).
  rewrite list_lookup_middle by done.
  rewrite list_lookup_middle by (rewrite length_app; simpl; lia). simpl.
  rewrite !length_app. simpl. rewrite <- !app_assoc. simpl.
  replace (length h + 1) with (S (length h)) by lia.
  replace (length h + 1 + 1) with (S (S (length h))) by lia.
  do 2 f_equal. lia.
Qed.

(** X6.  The loss term of a position, [p.log().neg()], for a node [p]
    with [p.data > 0], a leaf or not: the new node holds [- ln p.data], and
    [backward] from it adds [- 1 / p.data] to [p.grad]. *)
Theorem neg_log_backward (h : Heap) (p : Ref) (np : Value) (fuel : nat) :
  wf_heap h → h !! p = Some np → (0 < data np)%R → S (S (length h)) < fuel →
  ∃ y h1 h2,
    (l ← log p; neg l) h = Some (y, h1) ∧
    data_of h1 y = Some (ln (data np) * -1)%R ∧
    backward fuel y h1 = Some h2 ∧
    grad_of h2 p = Some (grad np - 1 / data np)%R.
Proof.
  intros Hwf Hp Hpos Hfuel.
  assert (p < length h) as Hpl by (by eapply lookup_lt_Some).
  set (l := length h). set (c := S (length h)). set (y := S (S (length h))).
  set (ndl := mkValue (ln (data np)) 0 [p] [(1 / data np)%R]).
  set (ndc := mkValue (-1) 0 [] []).
  set (ndy := mkValue (ln (data np) * -1) 0 [l; c] [(-1)%R; ln (data np)]).
  set (h1 := h ++ [ndl; ndc; ndy]).
  assert (h1 !! p = Some np) as Hp1 by (unfold h1; by rewrite lookup_app_l).
  assert (h1 !! l = Some ndl) as Hl1 by (unfold h1, l; by rewrite list_lookup_middle).
  assert (h1 !! c = Some ndc) as Hc1.
  { unfold h1, c. rewrite lookup_app_r by lia.
    by replace (S (length h) - length h) with 1 by lia. }
  assert (h1 !! y = Some ndy) as Hy1.
  { unfold h1, y. rewrite lookup_app_r by lia.
    by replace (S (S (length h)) - length h) with 2 by lia. }
  assert (length h1 = S (S (S (length h)))) as Hlen1.
  { unfold h1. rewrite length_app. simpl. lia. }
  assert (wf_heap h1) as Hwf1.
  { unfold h1. change [ndl; ndc; ndy] with ([ndl] ++ [ndc] ++ [ndy]).
    rewrite !app_assoc. apply wf_heap_snoc; [apply wf_heap_snoc; [apply wf_heap_snoc|]|].
    - done.
    - split; [|done]. simpl. by repeat constructor.
    - split; [|done]. simpl. constructor.
    - rewrite !length_app. simpl. split; [|done]. simpl.
      repeat constructor; unfold l, c; lia. }
  destruct (backward_grads h1 y fuel Hwf1) as
    (h2 & st & _ & Hback & Hf & Hord & _ & Hreach & Hg); [lia | done |].
  assert (wf_heap h2) as Hwf2 by (by eapply frame_wf).
  assert (NoDup (reverse st.2)) as Hnodup by (by eapply proc_order_NoDup).
  assert (y ∈ reverse st.2) as Hyin.
  { rewrite elem_of_reverse. apply Hreach. apply reach_root. }
  assert (l ∈ reverse st.2) as Hlin.
  { rewrite elem_of_reverse. apply Hreach.
    eapply reach_child; [apply reach_root | exact Hy1 |]. simpl. by left. }
  destruct (frame_lookup _ _ _ _ Hf Hy1) as (ndy' & Hy2 & _ & Hcy & Hly).
  destruct (frame_lookup _ _ _ _ Hf Hl1) as (ndl' & Hl2 & _ & Hcl & Hll).
  destruct (frame_lookup _ _ _ _ Hf Hc1) as (ndc' & Hc2 & _ & Hcc & _).
  simpl in Hcy, Hly, Hcl, Hll, Hcc.
  assert (grad ndy' = 1%R) as Hgy.
  { pose proof (Hg y) as Hgy. unfold grad_of in Hgy. rewrite Hy1, Hy2 in Hgy.
    simpl in Hgy. rewrite decide_True in Hgy by done. congruence. }
  (* only [y] has the node of the logarithm as a child *)
  assert (grad ndl' = (-1)%R) as Hgl.
  { pose proof (Hg l) as Hgl. unfold grad_of in Hgl. rewrite Hl1, Hl2 in Hgl.
    simpl in Hgl. rewrite decide_False in Hgl by (unfold l, y; lia).
    rewrite (Rsum_only _ _ y) in Hgl; [|done|done|].
    - unfold contrib in Hgl. rewrite Hy2, <- Hcy, <- Hly, Hgy in Hgl.
      cbn [zip zip_with fmap list_fmap fst snd] in Hgl.
      rewrite !Rsum_cons in Hgl.
      rewrite decide_True in Hgl by done.
      rewrite decide_False in Hgl by (unfold l, c; lia).
      injection Hgl as ->. unfold Rsum. simpl. lra.
    - intros q Hq Hne. rewrite elem_of_reverse in Hq. apply Hreach in Hq.
      apply (reach_le _ _ _ Hwf1) in Hq.
      destruct (decide (q = c)) as [->|Hqc].
      + apply contrib_zero. intros nd Hnd. simplify_eq. rewrite <- Hcc.
        apply not_elem_of_nil.
      + apply contrib_above; [done|]. unfold l, c, y in *. lia. }
  exists y, h1, h2. split; [by apply neg_log_run|]. split.
  { unfold data_of. by rewrite Hy1. }
  split; [done|].
  rewrite Hg. unfold grad_of. rewrite Hp1. simpl.
  rewrite decide_False by (unfold y; lia). f_equal.
  rewrite (Rsum_only _ _ l); [|done|done|].
  - unfold contrib. rewrite Hl2, <- Hcl, <- Hll, Hgl.
    cbn [zip zip_with fmap list_fmap fst snd]. rewrite !Rsum_cons.
    rewrite decide_True by done. unfold Rsum. simpl. lra.
  - intros q Hq Hne. rewrite elem_of_reverse in Hq. apply Hreach in Hq.
    destruct (decide (q = y)) as [->|Hqy].
    { apply contrib_zero. intros nd Hnd. simplify_eq. rewrite <- Hcy.
      intros Hin. apply elem_of_cons in Hin as [Hin|Hin]; [unfold l in Hin; lia|].
      apply list_elem_of_singleton in Hin. unfold c in Hin. lia. }
    destruct (decide (q = c)) as [->|Hqc].
    { apply contrib_zero. intros nd Hnd. simplify_eq. rewrite <- Hcc.
      apply not_elem_of_nil. }
    (* the other nodes are [p] and what [p] was computed from *)
    apply contrib_above; [done|].
    assert (q = y ∨ q = c ∨ q = l ∨ q ≤ p) as Hcases.
    { clear Hne Hqy Hqc. induction Hq as [|q nd ch Hq IH Hnd Hch]; [by left|].
      destruct IH as [-> | [-> | [-> | Hle]]]; simplify_eq; simpl in Hch.
      - apply elem_of_cons in Hch as [->|Hch]; [by right; right; left|].
        apply list_elem_of_singleton in Hch as ->. by right; left.
      - by apply elem_of_nil in Hch.
      - apply list_elem_of_singleton in Hch as ->. by right; right; right.
      - destruct (Hwf1 q nd Hnd) as [Hlt _]. rewrite Forall_forall in Hlt.
        specialize (Hlt ch Hch). right; right; right. lia. }
    destruct Hcases as [? | [? | [? | ?]]]; done.
Qed.

End chain_rule.

(** ** The random number generator, the Gaussian draw and the shuffle *)

Section prng.

Lemma ToInt32_range z : (- 2 ^ 31 ≤ ToInt32 z < 2 ^ 31)%Z.
Proof. unfold ToInt32. pose proof (Z.mod_pos_bound (z + 2 ^ 31) (2 ^ 32)). lia. Qed.

Lemma ToInt32_eq a b : ToInt32 a = ToInt32 b ↔ ((a - b) `mod` 2 ^ 32 = 0)%Z.
Proof.
  unfold ToInt32. split; intros H.
  - assert (((a + 2 ^ 31) `mod` 2 ^ 32 = (b + 2 ^ 31) `mod` 2 ^ 32)%Z) as H' by lia.
    apply Z.cong_iff_0 in H'.
    by replace ((a + 2 ^ 31) - (b + 2 ^ 31))%Z with (a - b)%Z in H' by lia.
  - assert (((a + 2 ^ 31) `mod` 2 ^ 32 = (b + 2 ^ 31) `mod` 2 ^ 32)%Z) as ->; [|done].
    apply Z.cong_iff_0.
    by replace ((a + 2 ^ 31) - (b + 2 ^ 31))%Z with (a - b)%Z by lia.
Qed.

Lemma js_or_0 z : js_or z 0 = ToInt32 z.
Proof. unfold js_or. change (ToInt32 0) with 0%Z. apply Z.lor_0_r. Qed.

Lemma js_ushr_0 z : js_ushr z 0 = (z `mod` 2 ^ 32)%Z.
Proof. unfold js_ushr, ToUint32. change (0 `mod` 32)%Z with 0%Z. apply Z.shiftr_0_r. Qed.

Lemma mulberry32_bits_range s :
  (0 ≤ (mulberry32_bits s).1 < 2 ^ 32)%Z ∧
  (mulberry32_bits s).2 = ToInt32 (s + 0x6d2b79f5).
Proof.
  unfold mulberry32_bits. cbn [fst snd]. rewrite js_ushr_0, js_or_0.
  split; [|done]. by apply Z.mod_pos_bound.
Qed.

Lemma rand_bits s :
  rand s = ((IZR (mulberry32_bits s).1 / 4294967296)%R, (mulberry32_bits s).2).
Proof. unfold rand. by destruct (mulberry32_bits s). Qed.

Lemma rand_range s : (0 <= (rand s).1 < 1)%R.
Proof.
  rewrite rand_bits. cbn [fst].
  destruct (mulberry32_bits_range s) as [[H0 H1] _].
  apply IZR_le in H0. apply IZR_lt in H1.
  change (2 ^ 32)%Z with 4294967296%Z in H1.
  split.
  - apply Rmult_le_reg_r with 4294967296%R; [lra|].
    unfold Rdiv. rewrite Rmult_assoc, Rinv_l by lra. lra.
  - apply Rmult_lt_reg_r with 4294967296%R; [lra|].
    unfold Rdiv. rewrite Rmult_assoc, Rinv_l by lra. lra.
Qed.

(** X7.  [rand()] returns a number of [0, 1), a multiple of 2^-32. *)
Theorem rand_unit_interval (s : Z) :
  (0 <= (rand s).1 < 1)%R ∧
  ∃ bits, (0 ≤ bits < 2 ^ 32)%Z ∧ (rand s).1 = (IZR bits / 4294967296)%R.
Proof.
  split; [apply rand_range|].
  rewrite rand_bits. cbn [fst].
  destruct (mulberry32_bits_range s) as [Hbits _]. by eexists.
Qed.

Lemma rand_state_S n seed :
  rand_state (S n) seed = ToInt32 (rand_state n seed + 0x6d2b79f5).
Proof.
  change (rand_state (S n) seed) with ((rand (rand_state n seed)).2).
  rewrite rand_bits. cbn [snd]. apply mulberry32_bits_range.
Qed.

Lemma rand_state_closed n seed :
  rand_state n seed = ToInt32 (seed + Z.of_nat n * 0x6d2b79f5).
Proof.
  induction n as [|n IH].
  - unfold rand_state, mulberry32. simpl. rewrite js_or_0. f_equal. lia.
  - rewrite rand_state_S, IH. apply ToInt32_eq.
    set (x := (seed + Z.of_nat n * 0x6d2b79f5)%Z).
    replace (ToInt32 x + 0x6d2b79f5 - (seed + Z.of_nat (S n) * 0x6d2b79f5))%Z
      with (ToInt32 x - x)%Z by (unfold x; lia).
    apply ToInt32_eq. clear. unfold ToInt32.
    set (y := (x + 2 ^ 31)%Z).
    replace ((y `mod` 2 ^ 32 - 2 ^ 31 + 2 ^ 31) `mod` 2 ^ 32)%Z
      with ((y `mod` 2 ^ 32) `mod` 2 ^ 32)%Z by (f_equal; lia).
    by rewrite Z.mod_mod.
Qed.

(** X8.  After [n] calls the state of the generator is the seed plus [n]
    times 0x6d2b79f5, wrapped to 32 bits; so two numbers of calls leave the
    same state exactly when they differ by a multiple of 2^32. *)
Theorem mulberry32_state_period (seed : Z) (n m : nat) :
  rand_state n seed = ToInt32 (seed + Z.of_nat n * 0x6d2b79f5) ∧
  (rand_state n seed = rand_state m seed ↔
   ((Z.of_nat n - Z.of_nat m) `mod` 2 ^ 32 = 0)%Z).
Proof.
  split; [apply rand_state_closed|].
  rewrite !rand_state_closed, ToInt32_eq.
  replace (seed + Z.of_nat n * 0x6d2b79f5 - (seed + Z.of_nat m * 0x6d2b79f5))%Z
    with (0x6d2b79f5 * (Z.of_nat n - Z.of_nat m))%Z by lia.
  rewrite !Z.mod_divide by done. split.
  - intros H. apply Z.gauss with (m := 0x6d2b79f5%Z); [done | reflexivity].
  - intros H. by apply Z.divide_mul_r.
Qed.


Lemma Math_floor_index (u : R) (n : nat) :
  (0 <= u < 1)%R → (0 ≤ Math_floor (u * INR (n + 1)) ≤ Z.of_nat n)%Z.
Proof.
  intros [H0 H1]. unfold Math_floor.
  destruct (base_Int_part (u * INR (n + 1))) as [Hle Hgt].
  assert (0 < INR (n + 1))%R as Hpos by (apply lt_0_INR; lia).
  assert (0 <= u * INR (n + 1))%R as Hlo by (apply Rmult_le_pos; lra).
  assert (u * INR (n + 1) < INR (n + 1))%R as Hhi.
  { rewrite <- (Rmult_1_l (INR (n + 1))) at 2. apply Rmult_lt_compat_r; lra. }
  split.
  - assert (-1 < IZR (Int_part (u * INR (n + 1))))%R as H by lra.
    apply lt_IZR in H. lia.
  - assert (IZR (Int_part (u * INR (n + 1))) < IZR (Z.of_nat (n + 1)))%R as H.
    { rewrite <- INR_IZR_INZ. lra. }
    apply lt_IZR in H. lia.
Qed.

Lemma shuffle_from_spec {T} (i : nat) :
  ∀ (arr : list T) (s : Z), i < length arr ∨ i = 0 →
  ∃ arr', shuffle_from i arr s = Some (arr', Nat.iter i (λ s, (rand s).2) s) ∧
          arr' ≡ₚ arr.
Proof.
  induction i as [|i IH]; intros arr s Hi.
  - by exists arr.
  - destruct Hi as [Hi|?]; [|done].
    cbn [shuffle_from]. rewrite Nat.iter_succ_r.
    destruct (rand s) as [u s1] eqn:Hrand. cbn [snd].
    pose proof (rand_range s) as Hu. rewrite Hrand in Hu. cbn [fst] in Hu.
    pose proof (Math_floor_index u (S i) Hu) as Hj.
    set (j := Math_floor (u * INR (S i + 1))) in *.
    destruct (lookup_lt_is_Some_2 arr (S i) Hi) as [ai Hai].
    destruct (lookup_lt_is_Some_2 arr (Z.to_nat j)) as [aj Haj]; [lia|].
    unfold swap, at_Z. rewrite Hai. cbn [mbind option_bind].
    rewrite decide_True by lia. rewrite Haj. cbn [mbind option_bind].
    set (arr1 := <[Z.to_nat j := ai]> (<[S i := aj]> arr)).
    assert (arr1 ≡ₚ arr) as Hperm by (by apply Permutation_insert_swap).
    destruct (IH arr1 s1) as (arr' & Hrun & Hp).
    { left. unfold arr1. rewrite !length_insert. lia. }
    exists arr'. split; [done|]. by etrans.
Qed.

(** X9.  [shuffle] returns a permutation of the array, for which it draws
    one number per entry but the first; no index that it computes is
    outside the array. *)
Theorem shuffle_permutation {T} (arr : list T) (s : Z) :
  ∃ arr', shuffle arr s = Some (arr', Nat.iter (length arr - 1) (λ s, (rand s).2) s) ∧
          arr' ≡ₚ arr.
Proof.
  unfold shuffle. apply shuffle_from_spec.
  destruct arr; [by right | left; simpl; lia].
Qed.

Lemma ln_2_bound : (ln 2 < 49 / 64)%R.
Proof.
  rewrite <- (ln_exp (49 / 64)). apply ln_increasing; [lra|].
  replace (49 / 64)%R with (49 / 256 + 49 / 256 + (49 / 256 + 49 / 256))%R by lra.
  rewrite !exp_plus.
  pose proof (exp_ineq1 (49 / 256)) as H. 
  assert (1 + 49 / 256 < Rtrigo_def.exp (49 / 256))%R as He by (apply H; lra).
  set (e := Rtrigo_def.exp (49 / 256)) in *.
  assert (0 < e)%R by lra.
  assert ((1 + 49 / 256) * (1 + 49 / 256) < e * e)%R as H2.
  { apply Rmult_le_0_lt_compat; lra. }
  assert (((1 + 49 / 256) * (1 + 49 / 256)) * ((1 + 49 / 256) * (1 + 49 / 256))
          < (e * e) * (e * e))%R as H4.
  { apply Rmult_le_0_lt_compat; lra. }
  lra.
Qed.

(** X10.  When the first of its two draws is not 0, [gaussRandom] returns a
    number within seven standard deviations of the mean (the square root is
    taken of a positive number below 49). *)
Theorem gaussRandom_within_seven_std (mean std : R) (s : Z) :
  (mulberry32_bits s).1 ≠ 0%Z →
  ∃ x, gaussRandom mean std s = (Some x, (rand (rand s).2).2) ∧
       (Rabs (x - mean) <= 7 * Rabs std)%R.
Proof.
  intros Hbits.
  destruct (mulberry32_bits_range s) as [[Hb0 Hb1] _].
  unfold gaussRandom. rewrite !(rand_bits s).
  destruct (mulberry32_bits s) as [b s1]. cbn [fst snd] in *.
  destruct (rand s1) as [u2 s2]. cbn [snd].
  set (u1 := (IZR b / 4294967296)%R).
  assert (u1 = IZR b / 4294967296)%R as Hu1 by done.
  assert (1 <= IZR b)%R as Hge by (apply IZR_le; lia).
  assert (IZR b < 4294967296)%R as Hlt.
  { apply IZR_lt in Hb1. by change (2 ^ 32)%Z with 4294967296%Z in Hb1. }
  assert (/ 4294967296 <= u1 < 1)%R as [Hlo Hhi].
  { rewrite Hu1. unfold Rdiv. split.
    - rewrite <- (Rmult_1_l (/ 4294967296)) at 1.
      apply Rmult_le_compat_r; [|done].
      apply Rlt_le, Rinv_0_lt_compat. lra.
    - apply Rmult_lt_reg_r with 4294967296%R; [lra|].
      rewrite Rmult_assoc, Rinv_l by lra. lra. }
  assert (0 < / 4294967296)%R as Hinv by (apply Rinv_0_lt_compat; lra).
  destruct (Req_dec_T u1 0) as [Hz|_]; [lra|].
  eexists. split; [done|].
  assert (ln (/ 4294967296) = - (32 * ln 2))%R as Hln.
  { rewrite ln_Rinv by lra.
    replace 4294967296%R with (2 ^ 32)%R by (simpl; lra).
    rewrite ln_pow by lra. f_equal. f_equal.
    rewrite INR_IZR_INZ. f_equal. }
  assert (- (32 * ln 2) <= ln u1)%R as Hln1.
  { rewrite <- Hln. destruct (Req_dec_T (/ 4294967296) u1) as [<-|Hne]; [lra|].
    apply Rlt_le, ln_increasing; lra. }
  assert (ln u1 < 0)%R as Hln2.
  { rewrite <- ln_1. apply ln_increasing; lra. }
  pose proof ln_2_bound as Hl2.
  assert (0 <= sqrt (-2 * ln u1) < 7)%R as [Hs0 Hs1].
  { split; [apply sqrt_pos|].
    replace 7%R with (sqrt (7 * 7)) by (apply sqrt_square; lra).
    apply sqrt_lt_1; lra. }
  replace (mean + std * sqrt (-2 * ln u1) * cos (2 * PI * u2) - mean)%R
    with (std * sqrt (-2 * ln u1) * cos (2 * PI * u2))%R by lra.
  rewrite !Rabs_mult.
  pose proof (COS_bound (2 * PI * u2)) as Hcos.
  assert (Rabs (cos (2 * PI * u2)) <= 1)%R as Hc by (apply Rabs_le; lra).
  rewrite (Rabs_pos_eq (sqrt _)) by done.
  pose proof (Rabs_pos std) as Hstd.
  pose proof (Rabs_pos (cos (2 * PI * u2))) as Hc0.
  assert (Rabs std * sqrt (-2 * ln u1) <= Rabs std * 7)%R as Hm.
  { apply Rmult_le_compat_l; lra. }
  assert (0 <= Rabs std * sqrt (-2 * ln u1))%R as Hm0 by (apply Rmult_le_pos; lra).
  assert (Rabs std * sqrt (-2 * ln u1) * Rabs (cos (2 * PI * u2))
          <= Rabs std * sqrt (-2 * ln u1) * 1)%R as Hm2.
  { apply Rmult_le_compat_l; lra. }
  lra.
Qed.

End prng.

(** ** weightedChoice *)

Section choice.

Lemma weightedChoice_from_range ws : ∀ i r last,
  (Z.of_nat i ≤ weightedChoice_from ws i r last < Z.of_nat (i + length ws))%Z
  ∨ weightedChoice_from ws i r last = last.
Proof.
  induction ws as [|w ws IH]; intros i r last; [by right|].
  simpl. destruct (Rle_dec (r - w) 0); [left; lia|].
  destruct (IH (S i) (r - w)%R last) as [H|H]; [left; lia | by right].
Qed.

Lemma weightedChoice_range (ws : list R) (u : R) :
  ws ≠ [] → (0 ≤ weightedChoice ws u < Z.of_nat (length ws))%Z.
Proof.
  intros Hne. unfold weightedChoice.
  destruct (weightedChoice_from_range ws 0 (u * fold_left Rplus ws 0)%R
              (Z.of_nat (length ws) - 1)%Z) as [H| ->].
  - simpl in H. lia.
  - destruct ws; [done|]. simpl. lia.
Qed.

(** X11.  [weightedChoice] returns -1 for no weights and otherwise an
    index of the array, whatever the weights and the number drawn. *)
Theorem weightedChoice_index (weights : list R) (u : R) :
  (weights = [] → weightedChoice weights u = (-1)%Z) ∧
  (weights ≠ [] → (0 ≤ weightedChoice weights u < Z.of_nat (length weights))%Z).
Proof.
  split; [by intros ->|]. apply weightedChoice_range.
Qed.

Lemma weightedChoice_from_cdf ws : ∀ i r last,
  (0 < r)%R → (r <= Rsum ws)%R →
  ∃ k, weightedChoice_from ws i r last = Z.of_nat (i + k) ∧ k < length ws ∧
       (Rsum (take k ws) < r <= Rsum (take (S k) ws))%R.
Proof.
  induction ws as [|w ws IH]; intros i r last H0 H1.
  - unfold Rsum in H1. simpl in H1. lra.
  - rewrite Rsum_cons in H1. simpl.
    destruct (Rle_dec (r - w) 0) as [Hle|Hgt].
    + exists 0. rewrite Nat.add_0_r. split; [done|]. split; [lia|].
      rewrite take_0. unfold Rsum. simpl. lra.
    + destruct (IH (S i) (r - w)%R last) as (k & Hk & Hlen & Hlo & Hhi); [lra | lra |].
      exists (S k). split; [rewrite Hk; f_equal; lia|]. split; [lia|].
      rewrite !firstn_cons, !Rsum_cons. lra.
Qed.

(** X12.  [weightedChoice] inverts the cumulative weights: for a drawn
    number [u] of (0, 1] and weights of positive sum it returns the index
    [i] of a positive weight such that [u] times the sum is above the sum
    of the weights before [i] and at most that sum plus the weight at
    [i]. *)
Theorem weightedChoice_inverse_cdf (weights : list R) (u : R) :
  (0 < u <= 1)%R → (0 < Rsum weights)%R →
  ∃ i w, weightedChoice weights u = Z.of_nat i ∧
         weights !! i = Some w ∧ (0 < w)%R ∧
         (Rsum (take i weights) < u * Rsum weights <= Rsum (take (S i) weights))%R.
Proof.
  intros [Hu0 Hu1] Htot. unfold weightedChoice.
  rewrite fold_left_Rplus, Rplus_0_l.
  destruct (weightedChoice_from_cdf weights 0 (u * Rsum weights)%R
              (Z.of_nat (length weights) - 1)%Z) as (k & Hk & Hlen & Hlo & Hhi).
  { by apply Rmult_lt_0_compat. }
  { rewrite <- (Rmult_1_l (Rsum weights)) at 2. apply Rmult_le_compat_r; lra. }
  destruct (lookup_lt_is_Some_2 weights k Hlen) as [w Hw].
  exists k, w. split; [done|]. split; [done|].
  assert (Rsum (take (S k) weights) = Rsum (take k weights) + w)%R as E.
  { rewrite (take_S_r _ _ _ Hw). clear.
    induction (take k weights) as [|x l IH]; [unfold Rsum; simpl; lra|].
    rewrite <- app_comm_cons, !Rsum_cons, IH. lra. }
  split; [lra | done].
Qed.

End choice.

(** ** The documents *)

Section docs.

Lemma split_lines_nonempty text : split_lines text ≠ [].
Proof.
  destruct text as [|c rest]; simpl; [done|].
  destruct (decide (c = "010"%char)); [done|]. by destruct (split_lines rest).
Qed.

Lemma split_lines_no_newline text :
  Forall (λ l, "010"%char ∉ l) (split_lines text).
Proof.
  induction text as [|c rest IH]; simpl.
  - constructor; [apply not_elem_of_nil | constructor].
  - destruct (decide (c = "010"%char)) as [->|Hne].
    + constructor; [apply not_elem_of_nil | done].
    + destruct (split_lines rest) as [|line lines] eqn:E;
        [by destruct (split_lines_nonempty rest)|].
      apply Forall_cons in IH as [Hl Hls]. constructor; [|done].
      rewrite not_elem_of_cons. split; [congruence | done].
Qed.

Lemma split_lines_elem text l ch :
  l ∈ split_lines text → ch ∈ l → ch ∈ text.
Proof.
  revert l. induction text as [|c rest IH]; intros l Hl Hch; simpl in Hl.
  - apply list_elem_of_singleton in Hl as ->. done.
  - destruct (decide (c = "010"%char)) as [->|Hne].
    + apply elem_of_cons in Hl as [->|Hl]; [by apply elem_of_nil in Hch|].
      right. by eapply IH.
    + destruct (split_lines rest) as [|line lines] eqn:E;
        [by destruct (split_lines_nonempty rest)|].
      apply elem_of_cons in Hl as [->|Hl].
      * apply elem_of_cons in Hch as [->|Hch]; [by left|].
        right. eapply IH; [by left | done].
      * right. eapply IH; [by right | done].
Qed.

Lemma trim_start_suffix l : trim_start l `suffix_of` l.
Proof.
  induction l as [|c l IH]; simpl; [done|].
  destruct (is_space c); [by apply suffix_cons_r | done].
Qed.

Lemma trim_start_head l c : head (trim_start l) = Some c → is_space c = false.
Proof.
  induction l as [|x l IH]; simpl; [done|].
  destruct (is_space x) eqn:E; [done|]. simpl. by intros [= <-].
Qed.

Lemma trim_start_id l : (∀ c, head l = Some c → is_space c = false) → trim_start l = l.
Proof.
  destruct l as [|x l]; [done|]. simpl. intros H. by rewrite (H x eq_refl).
Qed.

Lemma trim_prefix l : trim l `prefix_of` trim_start l.
Proof.
  unfold trim. pose proof (trim_start_suffix (reverse (trim_start l))) as H.
  apply suffix_prefix_reverse in H. by rewrite reverse_involutive in H.
Qed.

Lemma trim_elem l ch : ch ∈ trim l → ch ∈ l.
Proof.
  intros H. eapply elem_of_suffix; [|apply trim_start_suffix].
  eapply elem_of_prefix; [exact H | apply trim_prefix].
Qed.

Lemma trim_head l c : head (trim l) = Some c → is_space c = false.
Proof.
  intros H. apply (trim_start_head l).
  destruct (trim_prefix l) as [k Hk]. rewrite Hk.
  destruct (trim l); [done|]. done.
Qed.

Lemma trim_last l c : last (trim l) = Some c → is_space c = false.
Proof.
  unfold trim. rewrite last_reverse. apply trim_start_head.
Qed.

Lemma lines_of_clean text : Forall (clean_line text) (lines_of text).
Proof.
  apply Forall_forall. intros doc Hdoc. unfold lines_of in Hdoc.
  apply list_elem_of_filter in Hdoc as [Hne Hdoc].
  apply list_elem_of_fmap in Hdoc as (l & -> & Hl). unfold compose in *.
  unfold clean_line. rewrite String.list_ascii_of_string_of_list_ascii.
  split; [done|]. split; [|split].
  - intros c Hc. apply trim_elem in Hc. split.
    + pose proof (split_lines_no_newline (String.list_ascii_of_string text)) as H.
      rewrite Forall_forall in H. intros ->. by apply (H l Hl).
    + by eapply split_lines_elem.
  - apply trim_head.
  - apply trim_last.
Qed.

(** X13.  The documents are the trimmed, non-empty lines of the text in
    some order: every document is non-empty, has no line feed and no white
    space at either end, and is made of characters of the text. *)
Theorem load_docs_clean (text : string) (s : Z) :
  ∃ docs s', load_docs text s = Some (docs, s') ∧
             docs ≡ₚ lines_of text ∧
             Forall (clean_line text) docs.
Proof.
  unfold load_docs, shuffle.
  destruct (shuffle_from_spec (length (lines_of text) - 1) (lines_of text) s)
    as (docs & Hrun & Hperm).
  { destruct (lines_of text); [by right | left; simpl; lia]. }
  eexists _, _. split; [exact Hrun|]. split; [done|].
  rewrite Hperm. apply lines_of_clean.
Qed.

End docs.

(** ** The tokenizer *)

Section tokenizer.

#[local] Instance char_le_total : Total char_le.
Proof. intros a b. unfold char_le. lia. Qed.

#[local] Instance char_le_trans : Transitive char_le.
Proof. intros a b c. unfold char_le. lia. Qed.

Lemma StronglySorted_lookup {A} (Rel : relation A) (l : list A) i j a b :
  StronglySorted Rel l → l !! i = Some a → l !! j = Some b → i < j → Rel a b.
Proof.
  intros Hs. revert i j. induction Hs as [|x l Hs IH Hx]; intros i j Hi Hj Hij.
  - by rewrite lookup_nil in Hi.
  - destruct j as [|j]; [lia|]. simpl in Hj. destruct i as [|i].
    + simpl in Hi. simplify_eq. rewrite Forall_forall in Hx. apply Hx.
      by eapply list_elem_of_lookup_2.
    + simpl in Hi. apply (IH i j); [done | done | lia].
Qed.

Lemma uchars_of_NoDup docs : NoDup (uchars_of docs).
Proof. unfold uchars_of. rewrite merge_sort_Permutation. apply NoDup_remove_dups. Qed.

Lemma uchars_of_elem docs ch :
  ch ∈ uchars_of docs ↔ ∃ doc, doc ∈ docs ∧ ch ∈ String.list_ascii_of_string doc.
Proof.
  split.
  - unfold uchars_of. rewrite merge_sort_Permutation, elem_of_remove_dups.
    intros Hin. apply list_elem_of_In, in_concat in Hin as (l & Hl & Hch).
    apply list_elem_of_In, list_elem_of_fmap in Hl as (doc & -> & Hdoc).
    exists doc. split; [done|]. by apply list_elem_of_In.
  - intros (doc & Hdoc & Hch). by eapply elem_of_uchars_of.
Qed.

(** X14.  The vocabulary holds exactly the characters of the corpus, each
    once, in the order of their codes: ids grow with the character
    code. *)
Theorem uchars_sorted_distinct (docs : list string) :
  NoDup (uchars_of docs) ∧
  (∀ ch, ch ∈ uchars_of docs ↔
         ∃ doc, doc ∈ docs ∧ ch ∈ String.list_ascii_of_string doc) ∧
  (∀ i j a b, uchars_of docs !! i = Some a → uchars_of docs !! j = Some b →
     i < j → nat_of_ascii a < nat_of_ascii b).
Proof.
  split; [apply uchars_of_NoDup|]. split; [apply uchars_of_elem|].
  intros i j a b Hi Hj Hij.
  assert (char_le a b) as Hle.
  { eapply (StronglySorted_lookup char_le (uchars_of docs) i j); [|done..].
    unfold uchars_of. apply StronglySorted_merge_sort; apply _. }
  assert (a ≠ b) as Hne.
  { intros ->. pose proof (uchars_of_NoDup docs) as Hnd.
    pose proof (NoDup_lookup _ _ _ _ Hnd Hi Hj). lia. }
  unfold char_le in Hle.
  assert (nat_of_ascii a ≠ nat_of_ascii b) as Hne'.
  { intros E. apply Hne.
    rewrite <- (ascii_nat_embedding a), <- (ascii_nat_embedding b). by rewrite E. }
  lia.
Qed.


Lemma indexOf_absent uchars ch : indexOf uchars ch = (-1)%Z ↔ ch ∉ uchars.
Proof.
  induction uchars as [|c rest IH]; simpl.
  - split; [intros _; apply not_elem_of_nil | done].
  - destruct (decide (c = ch)) as [->|Hne].
    + split; [lia|]. intros H. exfalso. apply H. by left.
    + rewrite not_elem_of_cons. pose proof (indexOf_range rest ch) as Hr.
      destruct (decide (indexOf rest ch = (-1)%Z)) as [E|E].
      * split; [|done]. intros _. split; [done|]. by apply IH.
      * split; [lia|]. intros [_ Habs]. apply IH in Habs. done.
Qed.



(** X16.  The token list of a document is one id per character between
    two BOS; no character has the id BOS; and a character has the id -1
    exactly when it is not in the vocabulary. *)
Theorem tokenize_frame (uchars : list ascii) (doc : string) :
  let tokens := tokenize uchars doc in
  let bos := Z.of_nat (BOS uchars) in
  length tokens = String.length doc + 2 ∧
  tokens !! 0 = Some bos ∧
  tokens !! (String.length doc + 1) = Some bos ∧
  (∀ i ch, String.list_ascii_of_string doc !! i = Some ch →
     tokens !! (S i) = Some (indexOf uchars ch) ∧
     indexOf uchars ch ≠ bos ∧
     (indexOf uchars ch = (-1)%Z ↔ ch ∉ uchars)).
Proof.
  intros tokens bos. unfold tokens, tokenize.
  assert (length (String.list_ascii_of_string doc) = String.length doc) as Hlen.
  { clear. induction doc as [|c doc IH]; simpl; [done | by rewrite IH]. }
  split; [rewrite !length_app, length_fmap, Hlen; simpl; lia|].
  split; [done|]. split.
  { rewrite lookup_app_r by (simpl; lia).
    rewrite lookup_app_r by (rewrite length_fmap, Hlen; simpl; lia).
    rewrite length_fmap, Hlen. simpl.
    by replace (String.length doc + 1 - 1 - String.length doc) with 0 by lia. }
  intros i ch Hi. split; [|split].
  - simpl. rewrite lookup_app_l.
    + by rewrite list_lookup_fmap, Hi.
    + rewrite length_fmap. by eapply lookup_lt_Some.
  - pose proof (indexOf_range uchars ch). unfold bos, BOS. lia.
  - apply indexOf_absent.
Qed.

End tokenizer.

(** ** The parameters, node by node *)

Section init_params.

Lemma bind_run {A B} (m : M A) (k : A → M B) h a h' :
  m h = Some (a, h') → (m ≫= k) h = k a h'.
Proof. intros H. unfold mbind, M_bind. by rewrite H. Qed.

Lemma fresh_params_app init b n m :
  fresh_params init b (n + m) = fresh_params init b n ++ fresh_params init (b + n) m.
Proof. unfold fresh_params. by rewrite seq_app, fmap_app. Qed.

Lemma length_fresh_params init b n : length (fresh_params init b n) = n.
Proof. unfold fresh_params. by rewrite length_fmap, length_seq. Qed.

Lemma row_run init (l : list nat) : ∀ h,
  mapM (λ _ h, new_Value (init (length h)) [] [] h) l h =
    Some (seq (length h) (length l), h ++ fresh_params init (length h) (length l)).
Proof.
  induction l as [|x l IH]; intros h.
  - simpl. unfold fresh_params. simpl. by rewrite app_nil_r.
  - cbn [mapM]. rewrite (bind_run _ _ h (length h) (h ++ [mkValue (init (length h)) 0 [] []]))
      by done.
    rewrite (bind_run _ _ _ _ _ (IH _)).
    rewrite length_app. simpl. rewrite Nat.add_1_r. unfold mret, M_ret.
    rewrite <- app_assoc. done.
Qed.

Lemma rows_run init nin (l : list nat) : ∀ h,
  mapM (λ _, mapM (λ _ h, new_Value (init (length h)) [] [] h) (seq 0 nin)) l h =
    Some ((λ i, seq (length h + i * nin) nin) <$> seq 0 (length l),
          h ++ fresh_params init (length h) (length l * nin)).
Proof.
  induction l as [|x l IH]; intros h.
  - simpl. unfold fresh_params. simpl. by rewrite app_nil_r.
  - cbn [mapM]. rewrite (bind_run _ _ _ _ _ (row_run init (seq 0 nin) h)).
    rewrite length_seq.
    rewrite (bind_run _ _ _ _ _ (IH _)). unfold mret, M_ret.
    rewrite length_app, length_fresh_params. f_equal. f_equal.
    + cbn [length]. rewrite <- cons_seq, fmap_cons, <- fmap_S_seq, <- list_fmap_compose.
      f_equal; [f_equal; lia|]. apply list_fmap_ext. intros i j _. simpl. f_equal. lia.
    + rewrite <- app_assoc. f_equal. cbn [length].
      change (S (length l) * nin) with (nin + length l * nin).
      by rewrite fresh_params_app.
Qed.

Lemma matrix_run init nout nin h :
  matrix init nout nin h =
    Some (matrix_at (length h) nout nin, h ++ fresh_params init (length h) (nout * nin)).
Proof.
  unfold matrix. rewrite rows_run, length_seq. done.
Qed.

Lemma matrix_run_from init nout nin h a :
  matrix init nout nin (h ++ fresh_params init (length h) a) =
    Some (matrix_at (length h + a) nout nin,
          h ++ fresh_params init (length h) (a + nout * nin)).
Proof.
  rewrite matrix_run, length_app, length_fresh_params, <- app_assoc.
  by rewrite fresh_params_app.
Qed.

Lemma concat_matrix_at b nout nin : concat (matrix_at b nout nin) = seq b (nout * nin).
Proof.
  unfold matrix_at. revert b. induction nout as [|n IH]; intros b; [done|].
  rewrite <- cons_seq, fmap_cons, <- fmap_S_seq, <- list_fmap_compose. cbn [concat].
  rewrite (list_fmap_ext _ (λ i, seq (b + nin + i * nin) nin) (seq 0 n)).
  2:{ intros i j _. simpl. f_equal. lia. }
  rewrite IH. change (S n * nin) with (nin + n * nin). rewrite seq_app.
  f_equal. f_equal. lia.
Qed.

Lemma bind_bind_run {A B C} (m : M A) (k : A → M B) (k' : B → M C) h :
  ((m ≫= k) ≫= k') h = (m ≫= λ a, k a ≫= k') h.
Proof. unfold mbind, M_bind. by destruct (m h) as [[a h1]|]. Qed.

Lemma params_of_cons name (w : Matrix) (sd : StateDict) :
  params_of ((name, w) :: sd) = concat w ++ params_of sd.
Proof. unfold params_of. simpl. by rewrite concat_app. Qed.

(** X17.  The construction of [stateDict] appends one leaf with [grad] 0
    per parameter to the store and nothing else, and the flattened list
    [params] is these nodes in the order of their creation:
    [2 * vocab * N_EMBD + BLOCK_SIZE * N_EMBD + N_LAYER * 12 * N_EMBD^2]
    of them, each once. *)
Theorem init_stateDict_params (init : nat → R) (vocab : nat) (h : Heap) :
  let n := 2 * (vocab * N_EMBD) + BLOCK_SIZE * N_EMBD
           + N_LAYER * (12 * (N_EMBD * N_EMBD)) in
  ∃ sd,
    init_stateDict init vocab h = Some (sd, h ++ fresh_params init (length h) n) ∧
    params_of sd = seq (length h) n ∧
    sd_shape vocab sd.
Proof.
  intros n.
  destruct (init_stateDict_spec init vocab h) as (sd & h' & Hrun & _ & _ & Hshape & _).
  exists sd.
  assert (∃ sd0 m, init_stateDict init vocab h =
                     Some (sd0, h ++ fresh_params init (length h) m) ∧
                   params_of sd0 = seq (length h) m ∧ m = n)
    as (sd0 & m & Hrun0 & Hparams & ->).
  { unfold init_stateDict.
    rewrite (bind_run _ _ _ _ _ (matrix_run init vocab N_EMBD h)).
    rewrite (bind_run _ _ _ _ _ (matrix_run_from init BLOCK_SIZE N_EMBD h _)).
    rewrite (bind_run _ _ _ _ _ (matrix_run_from init vocab N_EMBD h _)).
    change (seq 0 N_LAYER) with [0]. cbn [foldM]. unfold init_layer.
    rewrite bind_bind_run.
    rewrite (bind_run _ _ _ _ _ (matrix_run_from init N_EMBD N_EMBD h _)).
    rewrite bind_bind_run.
    rewrite (bind_run _ _ _ _ _ (matrix_run_from init N_EMBD N_EMBD h _)).
    rewrite bind_bind_run.
    rewrite (bind_run _ _ _ _ _ (matrix_run_from init N_EMBD N_EMBD h _)).
    rewrite bind_bind_run.
    rewrite (bind_run _ _ _ _ _ (matrix_run_from init N_EMBD N_EMBD h _)).
    rewrite bind_bind_run.
    rewrite (bind_run _ _ _ _ _ (matrix_run_from init (4 * N_EMBD) N_EMBD h _)).
    rewrite bind_bind_run.
    rewrite (bind_run _ _ _ _ _ (matrix_run_from init N_EMBD (4 * N_EMBD) h _)).
    eexists _, _. split; [reflexivity|]. split.
    - cbn [app]. rewrite !params_of_cons, !concat_matrix_at.
      unfold params_of. cbn [fmap list_fmap concat]. rewrite app_nil_r.
      rewrite !app_assoc. by rewrite <- !seq_app.
    - unfold n, N_EMBD, BLOCK_SIZE, N_LAYER. lia. }
  rewrite Hrun in Hrun0. injection Hrun0 as -> ->. done.
Qed.

End init_params.

(** ** Properties of the building blocks *)

Section forward_props.

Lemma Rsum_nonneg (l : list R) : Forall (λ e, (0 <= e)%R) l → (0 <= Rsum l)%R.
Proof.
  induction 1 as [|x l Hx Hl IH]; [unfold Rsum; simpl; lra|].
  rewrite Rsum_cons. lra.
Qed.

Lemma Rsum_ge_elem (l : list R) i x :
  Forall (λ e, (0 <= e)%R) l → l !! i = Some x → (x <= Rsum l)%R.
Proof.
  intros Hl. revert i. induction Hl as [|y l Hy Hl IH]; intros i Hi.
  - by rewrite lookup_nil in Hi.
  - rewrite Rsum_cons. pose proof (Rsum_nonneg l Hl).
    destruct i as [|i]; simpl in Hi; [simplify_eq; lra|].
    specialize (IH i Hi). lra.
Qed.

Lemma softmax_data_closed ds :
  ds ≠ [] →
  ∃ m, exps_data ds = (λ d, Rtrigo_def.exp (d + m * -1)) <$> ds ∧
       softmax_data ds =
         (λ d, Rtrigo_def.exp (d + m * -1) * / sum_data (exps_data ds))%R <$> ds.
Proof.
  intros Hne. unfold softmax_data, exps_data.
  destruct (Math_max ds) as [m|] eqn:Hm; [|by destruct ds].
  exists m. split; [done|].
  rewrite <- list_fmap_compose. apply list_fmap_ext. intros i d _. simpl.
  by rewrite js_pow_inverse.
Qed.

Lemma softmax_data_unit ds : Forall (λ q, (0 < q <= 1)%R) (softmax_data ds).
Proof.
  destruct (decide (ds = [])) as [->|Hne]; [constructor|].
  pose proof (softmax_data_total_pos ds Hne) as Htot.
  assert (0 < / sum_data (exps_data ds))%R as Hinv by (by apply Rinv_0_lt_compat).
  destruct (softmax_data_closed ds Hne) as (m & He & Hq).
  set (total := sum_data (exps_data ds)) in *.
  rewrite Hq. apply Forall_fmap, Forall_lookup. intros i d Hi. simpl.
  pose proof (exp_pos (d + m * -1)) as Hpos.
  split; [by apply Rmult_lt_0_compat|].
  assert (Rtrigo_def.exp (d + m * -1) <= total)%R as Hle.
  { unfold total. rewrite sum_data_Rsum.
    apply (Rsum_ge_elem _ i).
    - eapply Forall_impl; [apply exps_data_pos|]. simpl. intros. lra.
    - by rewrite He, list_lookup_fmap, Hi. }
  apply Rmult_le_reg_r with total; [done|].
  rewrite Rmult_assoc, Rinv_l by lra. lra.
Qed.







Lemma dot_data_Rsum (w x : list R) :
  dot_data w x = Rsum ((λ p, p.1 * p.2)%R <$> zip w x).
Proof.
  unfold dot_data.
  assert (∀ (l : list (R * R)) a,
    fold_left (λ s p, s + p.1 * p.2)%R l a = (a + Rsum ((λ p, p.1 * p.2)%R <$> l))%R) as H.
  { induction l as [|p l IH]; intros a; [unfold Rsum; simpl; lra|].
    rewrite fmap_cons, Rsum_cons. cbn [fold_left]. rewrite IH. lra. }
  rewrite H. lra.
Qed.

(** X20.  [linear(x, w)] returns one node per row of [w], which holds the
    sum of the products of the entries of the row with the entries of [x]
    at the same indices; entries of [x] beyond the width of the row are
    not read.  No row may be longer than [x]. *)
Theorem linear_matrix_vector
    (h : Heap) (x : list nat) (w : Matrix) (xd : list R) (wd : list (list R)) :
  datas h x xd → mat_rel h w wd →
  Forall (λ row, length row ≤ length xd) wd →
  ∃ y h',
    linear x w h = Some (y, h') ∧ length y = length w ∧
    datas h' y ((λ row, Rsum ((λ p, p.1 * p.2)%R <$> zip row xd)) <$> wd).
Proof.
  intros Hx Hw Hlen.
  destruct (linear_spec h x w xd wd Hx Hw Hlen) as (y & h' & Hrun & _ & _ & Hy).
  exists y, h'. split; [done|]. split.
  - rewrite (datas_length _ _ _ Hy). unfold linear_data.
    rewrite length_fmap. symmetry. by eapply Forall2_length.
  - replace ((λ row, Rsum ((λ p, p.1 * p.2)%R <$> zip row xd)) <$> wd)
      with (linear_data xd wd); [done|].
    unfold linear_data. apply list_fmap_ext. intros i row _. apply dot_data_Rsum.
Qed.

Lemma softmax_data_singleton (x : R) : softmax_data [x] = [1%R].
Proof.
  unfold softmax_data, exps_data, sum_data. simpl.
  rewrite js_pow_inverse.
  replace (x + x * -1)%R with 0%R by lra. rewrite exp_0.
  f_equal. field.
Qed.

Lemma list_eq_default_seq (l : list R) n :
  length l = n → (λ j, default 0%R (l !! j)) <$> seq 0 n = l.
Proof.
  intros Hlen. apply list_eq. intros i. rewrite list_lookup_fmap.
  destruct (decide (i < n)) as [Hi|Hi].
  - rewrite lookup_seq_lt by done. simpl.
    destruct (lookup_lt_is_Some_2 l i) as [x Hx]; [lia|]. by rewrite Hx.
  - rewrite lookup_seq_ge by lia. simpl. symmetry. apply lookup_ge_None. lia.
Qed.

(** X21.  With one position in the cache, as at the first position of a
    sequence, the single attention weight is 1 and a head returns the
    numbers of its slice of the value vector, whatever the query and the
    key. *)
Theorem attn_head_single_position
    (h : Heap) (q k v : list nat) (qd kd vd : list R) (hd : nat) :
  datas h q qd → datas h k kd → datas h v vd →
  length qd ≤ length kd → hd * HEAD_DIM + HEAD_DIM ≤ length vd →
  ∃ out h',
    attn_head q [k] [v] hd h = Some (out, h') ∧
    datas h' out (slice vd (hd * HEAD_DIM) (hd * HEAD_DIM + HEAD_DIM)).
Proof.
  intros Hq Hk Hv Hqk Hvlen.
  destruct (attn_head_spec h q [k] [v] qd [kd] [vd] hd) as (out & h' & Hrun & _ & _ & Hout).
  { done. }
  { by repeat constructor. }
  { by repeat constructor. }
  { by repeat constructor. }
  { done. }
  { by repeat constructor. }
  exists out, h'. split; [done|].
  replace (slice vd (hd * HEAD_DIM) (hd * HEAD_DIM + HEAD_DIM))
    with (attn_head_data qd [kd] [vd] hd); [done|].
  unfold attn_head_data. cbv zeta.
  set (vs := slice vd (hd * HEAD_DIM) (hd * HEAD_DIM + HEAD_DIM)).
  change ((λ vi, slice vi (hd * HEAD_DIM) (hd * HEAD_DIM + HEAD_DIM)) <$> [vd]) with [vs].
  change ((λ ki, slice ki (hd * HEAD_DIM) (hd * HEAD_DIM + HEAD_DIM)) <$> [kd])
    with [slice kd (hd * HEAD_DIM) (hd * HEAD_DIM + HEAD_DIM)].
  rewrite fmap_cons, fmap_nil, softmax_data_singleton.
  etrans; [|apply (list_eq_default_seq vs HEAD_DIM)].
  2:{ unfold vs, slice. rewrite length_take, length_drop. lia. }
  apply list_fmap_ext. intros i j _. unfold dot_data, column. simpl. lra.
Qed.

End forward_props.

(** ** The token ids and positions that gpt accepts *)

Section gpt_range.

Lemma lift_None_bind {A B} (o : option A) (k : A → M B) h :
  o = None → (lift o ≫= k) h = None.
Proof. intros ->. done. Qed.

Lemma lift_Some_bind {A B} (o : option A) a (k : A → M B) h :
  o = Some a → (lift o ≫= k) h = k a h.
Proof. intros ->. done. Qed.

(** X22.  [gpt] returns, with one logit per id of the vocabulary, when the
    token id is in the vocabulary and the position is below BLOCK_SIZE;
    on any other token id or position it throws. *)
Theorem gpt_defined_iff_in_range
    (h : Heap) (sd : StateDict) (sdd : StateDictD) (vocab : nat)
    (tok : Z) (pos : nat) (keys values : Cache) (kd vd : CacheD) :
  sd_rel h sd sdd → sd_shape vocab sd →
  cache_rel h keys kd → cache_rel h values vd → cache_ok kd vd →
  (in_vocab vocab tok ∧ pos < BLOCK_SIZE →
     ∃ r h', gpt sd tok pos keys values h = Some (r, h') ∧ length r.1.1 = vocab) ∧
  (¬ (in_vocab vocab tok ∧ pos < BLOCK_SIZE) →
     gpt sd tok pos keys values h = None).
Proof.
  intros Hsd Hshape Hk Hv Hok. split.
  - intros [Htok Hpos].
    destruct (gpt_spec h sd sdd vocab tok pos keys values kd vd)
      as (r & h' & Hrun & _ & _ & Hr & _); try done.
    destruct (gpt_data_shape h sd sdd vocab tok pos kd vd) as [Hlen _]; try done.
    exists r, h'. split; [done|].
    by rewrite (datas_length _ _ _ Hr).
  - intros Hout. destruct Hshape as (Swte & Swpe & _).
    unfold has_mat in Swte, Swpe.
    destruct (sd_get sd "wte") as [wte|] eqn:Gwte; [|done].
    destruct (sd_get sd "wpe") as [wpe|] eqn:Gwpe; [|done].
    destruct Swte as [Lwte _]. destruct Swpe as [Lwpe _].
    unfold gpt. rewrite (lift_Some_bind _ wte) by done.
    destruct (at_Z wte tok) as [tokEmb|] eqn:Gtok; [|by apply lift_None_bind].
    rewrite (lift_Some_bind _ tokEmb) by done.
    rewrite (lift_Some_bind _ wpe) by done.
    apply lift_None_bind. apply lookup_ge_None.
    assert (in_vocab vocab tok) as Hin.
    { unfold at_Z in Gtok. destruct (decide (0 ≤ tok)%Z); [|done].
      apply lookup_lt_Some in Gtok. unfold in_vocab. lia. }
    destruct (decide (pos < BLOCK_SIZE)); [by destruct Hout | lia].
Qed.

End gpt_range.

(** ** The first position of a document *)

Section first_position.

Lemma attn_head_data_single (qd kd vd : list R) (hd : nat) :
  hd * HEAD_DIM + HEAD_DIM ≤ length vd →
  attn_head_data qd [kd] [vd] hd = slice vd (hd * HEAD_DIM) (hd * HEAD_DIM + HEAD_DIM).
Proof.
  intros Hvlen. unfold attn_head_data. cbv zeta.
  set (vs := slice vd (hd * HEAD_DIM) (hd * HEAD_DIM + HEAD_DIM)).
  change ((λ vi, slice vi (hd * HEAD_DIM) (hd * HEAD_DIM + HEAD_DIM)) <$> [vd]) with [vs].
  change ((λ ki, slice ki (hd * HEAD_DIM) (hd * HEAD_DIM + HEAD_DIM)) <$> [kd])
    with [slice kd (hd * HEAD_DIM) (hd * HEAD_DIM + HEAD_DIM)].
  rewrite fmap_cons, fmap_nil, softmax_data_singleton.
  etrans; [|apply (list_eq_default_seq vs HEAD_DIM)].
  2:{ unfold vs, slice. rewrite length_take, length_drop. lia. }
  apply list_fmap_ext. intros i j _. unfold dot_data, column. simpl. lra.
Qed.

Lemma gpt_data_first_position (sdd1 sdd2 : StateDictD) (tok : Z) (pos : nat) :
  (∀ name, name ≠ layer_key 0 "attn_wq" → name ≠ layer_key 0 "attn_wk" →
     mat sdd1 name = mat sdd2 name) →
  length (mat sdd2 (layer_key 0 "attn_wv")) = N_EMBD →
  (gpt_data sdd1 tok pos fresh_cache_data fresh_cache_data).1.1 =
  (gpt_data sdd2 tok pos fresh_cache_data fresh_cache_data).1.1.
Proof.
  intros Hsame Hv.
  assert (∀ (q1 q2 k1 k2 v : list R), length v = N_EMBD →
    concat (attn_head_data q1 [k1] [v] <$> seq 0 N_HEAD) =
    concat (attn_head_data q2 [k2] [v] <$> seq 0 N_HEAD)) as Hattn.
  { intros q1 q2 k1 k2 v Hlen. f_equal. apply list_fmap_ext. intros i hd Hi.
    apply lookup_seq in Hi as [-> Hi]. simpl.
    pose proof (head_bound i Hi).
    rewrite !attn_head_data_single by lia. done. }
  assert (∀ (k : list R), layer_of (push_data 0 k fresh_cache_data) 0 = [k]) as Hpush.
  { intros k. reflexivity. }
  unfold gpt_data. cbv zeta. cbn [fst snd].
  change (seq 0 N_LAYER) with [0]. cbn [fold_left].
  unfold gpt_layer_data. cbv zeta. cbn [fst snd].
  rewrite !Hpush.
  rewrite !(Hsame "wte"%string), !(Hsame "wpe"%string), !(Hsame "lm_head"%string),
    !(Hsame (layer_key 0 "attn_wv")), !(Hsame (layer_key 0 "attn_wo")),
    !(Hsame (layer_key 0 "mlp_fc1")), !(Hsame (layer_key 0 "mlp_fc2")) by done.
  set (x1 := rmsnorm_data (rmsnorm_data _)).
  set (v := linear_data x1 (mat sdd2 (layer_key 0 "attn_wv"))).
  assert (length v = N_EMBD) as Hvlen by (unfold v; by rewrite linear_data_length).
  by rewrite (Hattn (linear_data x1 (mat sdd1 (layer_key 0 "attn_wq")))
                (linear_data x1 (mat sdd2 (layer_key 0 "attn_wq")))
                (linear_data x1 (mat sdd1 (layer_key 0 "attn_wk")))
                (linear_data x1 (mat sdd2 (layer_key 0 "attn_wk"))) v Hvlen).
Qed.

(** X23.  At the first position of a document, with empty caches, every
    head attends to one position, with weight 1, so the logits do not depend
    on the query and key matrices: on two stores whose parameters hold the
    same numbers except in [attn_wq] and [attn_wk], [gpt] returns the same
    logits. *)
Theorem first_position_ignores_query_key
    (h1 h2 : Heap) (sd : StateDict) (sdd1 sdd2 : StateDictD) (vocab : nat)
    (tok : Z) (pos : nat) :
  sd_rel h1 sd sdd1 → sd_rel h2 sd sdd2 → sd_shape vocab sd →
  (∀ name, name ≠ layer_key 0 "attn_wq" → name ≠ layer_key 0 "attn_wk" →
     mat sdd1 name = mat sdd2 name) →
  in_vocab vocab tok → pos < BLOCK_SIZE →
  ∃ r1 h1' r2 h2' logits,
    gpt sd tok pos fresh_cache fresh_cache h1 = Some (r1, h1') ∧
    gpt sd tok pos fresh_cache fresh_cache h2 = Some (r2, h2') ∧
    datas h1' r1.1.1 logits ∧ datas h2' r2.1.1 logits.
Proof.
  intros Hsd1 Hsd2 Hshape Hsame Htok Hpos.
  destruct (gpt_spec h1 sd sdd1 vocab tok pos fresh_cache fresh_cache
              fresh_cache_data fresh_cache_data)
    as (r1 & h1' & Hrun1 & _ & _ & Hr1 & _); try done;
    [apply cache_rel_fresh | apply cache_rel_fresh | apply cache_ok_fresh |].
  destruct (gpt_spec h2 sd sdd2 vocab tok pos fresh_cache fresh_cache
              fresh_cache_data fresh_cache_data)
    as (r2 & h2' & Hrun2 & _ & _ & Hr2 & _); try done;
    [apply cache_rel_fresh | apply cache_rel_fresh | apply cache_ok_fresh |].
  exists r1, h1', r2, h2', (gpt_data sdd2 tok pos fresh_cache_data fresh_cache_data).1.1.
  split; [done|]. split; [done|]. split; [|done].
  rewrite <- (gpt_data_first_position sdd1 sdd2 tok pos Hsame); [done|].
  destruct Hshape as (_ & _ & _ & Hlayers).
  pose proof (sd_rel_layers _ _ _ Hsd2 Hlayers) as Hrows.
  rewrite Forall_seq in Hrows. destruct (Hrows 0) as (_ & Hwv & _); [unfold N_LAYER; lia|].
  done.
Qed.

End first_position.

(** ** The Adam update *)

Section adam.

Lemma same_graph_refl h : same_graph h h.
Proof. apply Forall_Forall2_diag, Forall_forall. done. Qed.

Lemma same_graph_trans h1 h2 h3 : same_graph h1 h2 → same_graph h2 h3 → same_graph h1 h3.
Proof.
  intros H12 H23. eapply Forall2_trans; [|exact H12|exact H23].
  intros a b c [? ?] [? ?]. split; congruence.
Qed.



Lemma frame_same_graph h h' : frame h h' → same_graph h h'.
Proof.
  intros Hf. eapply Forall2_impl; [exact Hf|]. by intros a b (_ & ? & ?).
Qed.

Lemma same_graph_insert h p nd nd' :
  h !! p = Some nd → children nd' = children nd → localGrads nd' = localGrads nd →
  same_graph h (<[p := nd']> h).
Proof.
  intros Hp Hc Hl. unfold same_graph.
  rewrite <- (list_insert_id h p nd Hp) at 1.
  apply Forall2_insert; [apply same_graph_refl | done].
Qed.

Lemma adam_param_run step h m v i p nd mi vi :
  h !! p = Some nd → m !! i = Some mi → v !! i = Some vi →
  adam_param step (h, (m, v)) (i, p) =
    Some (<[p := (adam_cell step nd mi vi).1.1]> h,
          (<[i := (adam_cell step nd mi vi).1.2]> m,
           <[i := (adam_cell step nd mi vi).2]> v)).
Proof.
  intros Hp Hm Hv. unfold adam_param. rewrite Hp, Hm, Hv. simpl.
  by rewrite !js_pow_nat, js_pow_square.
Qed.

Lemma adam_loop_spec step (ps : list nat) : ∀ k h m v,
  NoDup ps → Forall (λ p, p < length h) ps →
  k + length ps ≤ length m → k + length ps ≤ length v →
  ∃ h' m' v',
    foldlM (adam_param step) (h, (m, v)) (zip (seq k (length ps)) ps) = Some (h', (m', v')) ∧
    same_graph h h' ∧ length m' = length m ∧ length v' = length v ∧
    (∀ q, q ∉ ps → h' !! q = h !! q) ∧
    (∀ j, ¬ (k ≤ j < k + length ps) → m' !! j = m !! j ∧ v' !! j = v !! j) ∧
    (∀ i p nd mi vi,
       ps !! i = Some p → h !! p = Some nd → m !! (k + i) = Some mi → v !! (k + i) = Some vi →
       h' !! p = Some (adam_cell step nd mi vi).1.1 ∧
       m' !! (k + i) = Some (adam_cell step nd mi vi).1.2 ∧
       v' !! (k + i) = Some (adam_cell step nd mi vi).2).
Proof.
  induction ps as [|p ps IH]; intros k h m v Hnd Hlt Hm Hv.
  - exists h, m, v. simpl. split; [done|]. split; [apply same_graph_refl|].
    repeat split; done.
  - apply NoDup_cons in Hnd as [Hp Hnd]. apply Forall_cons in Hlt as [Hpl Hlt].
    simpl in Hm, Hv.
    destruct (lookup_lt_is_Some_2 h p Hpl) as [nd Hndp].
    destruct (lookup_lt_is_Some_2 m k) as [mi Hmi]; [lia|].
    destruct (lookup_lt_is_Some_2 v k) as [vi Hvi]; [lia|].
    set (c := adam_cell step nd mi vi).
    set (h1 := <[p := c.1.1]> h). set (m1 := <[k := c.1.2]> m). set (v1 := <[k := c.2]> v).
    destruct (IH (S k) h1 m1 v1) as (h' & m' & v' & Hrun & Hsg & Hlm & Hlv & Hfr & Hmv & Hcells).
    { done. }
    { unfold h1. by rewrite length_insert. }
    { unfold m1. rewrite length_insert. lia. }
    { unfold v1. rewrite length_insert. lia. }
    exists h', m', v'. split.
    { cbn [length seq zip zip_with foldlM]. rewrite (adam_param_run step h m v k p nd mi vi) by done.
      exact Hrun. }
    split.
    { eapply same_graph_trans; [|exact Hsg]. by eapply same_graph_insert. }
    split; [by rewrite Hlm; unfold m1; rewrite length_insert|].
    split; [by rewrite Hlv; unfold v1; rewrite length_insert|].
    split.
    { intros q Hq. apply not_elem_of_cons in Hq as [Hqp Hq].
      rewrite (Hfr q Hq). unfold h1. by rewrite list_lookup_insert_ne. }
    split.
    { intros j Hj. simpl in Hj. destruct (Hmv j) as [Em Ev]; [lia|].
      rewrite Em, Ev. unfold m1, v1. rewrite !list_lookup_insert_ne by lia. done. }
    intros i q ndq mq vq Hi Hq Hmq Hvq. destruct i as [|i]; simpl in Hi.
    + simplify_eq. rewrite Nat.add_0_r in *. simplify_eq.
      rewrite (Hfr q Hp). destruct (Hmv k) as [Em Ev]; [lia|]. rewrite Em, Ev.
      unfold h1, m1, v1. rewrite !list_lookup_insert_eq by lia. done.
    + assert (q ≠ p) as Hne.
      { intros ->. apply Hp. by eapply list_elem_of_lookup_2. }
      replace (k + S i) with (S k + i) in * by lia.
      apply (Hcells i q ndq mq vq Hi).
      * unfold h1. by rewrite list_lookup_insert_ne.
      * unfold m1. rewrite list_lookup_insert_ne by lia. done.
      * unfold v1. rewrite list_lookup_insert_ne by lia. done.
Qed.

(** X24.  The parameter update of a step, for parameters listed once: it
    returns; every parameter gets the number, the [grad] 0 and the moments
    of [adam_cell], computed from its own cell and moments before the
    update; nodes that are not parameters are left as they are; and no
    edge of the graph changes. *)
Theorem adam_update_effect
    (step : nat) (params : list Ref) (h : Heap) (m v : list R) :
  NoDup params → Forall (λ p, p < length h) params →
  length params ≤ length m → length params ≤ length v →
  ∃ h' m' v',
    adam_update step params (h, (m, v)) = Some (h', (m', v')) ∧
    same_graph h h' ∧ length m' = length m ∧ length v' = length v ∧
    (∀ q, q ∉ params → h' !! q = h !! q) ∧
    (∀ i p nd mi vi,
       params !! i = Some p → h !! p = Some nd → m !! i = Some mi → v !! i = Some vi →
       h' !! p = Some (adam_cell step nd mi vi).1.1 ∧
       m' !! i = Some (adam_cell step nd mi vi).1.2 ∧
       v' !! i = Some (adam_cell step nd mi vi).2).
Proof.
  intros Hnd Hlt Hm Hv.
  destruct (adam_loop_spec step params 0 h m v Hnd Hlt)
    as (h' & m' & v' & Hrun & Hsg & Hlm & Hlv & Hfr & _ & Hcells); [lia | lia |].
  exists h', m', v'. split; [exact Hrun|]. repeat (split; [done|]).
  intros i p nd mi vi. apply (Hcells i p nd mi vi).
Qed.



End adam.

(** ** The training loop runs to completion *)

Section training_total.








Lemma forward_loss_spec h sd sdd vocab tokens :
  sd_rel h sd sdd → sd_shape vocab sd →
  2 ≤ length tokens → Forall (in_vocab vocab) tokens →
  let n := Nat.min BLOCK_SIZE (length tokens - 1) in
  let ld := (λ q, (ln (target_prob sdd tokens q) * -1)%R) <$> seq 0 n in
  wp (forward_loss sd tokens) h
     (λ r h', datas h' r.1 ld ∧
              data_of h' r.2 = Some (sum_data ld * js_pow (INR n) (-1))%R).
Proof.
  intros Hsd Hshape Hlen Hall n ld.
  assert (tokens_ok vocab tokens n) as Htok.
  { unfold tokens_ok, n. split; [lia|]. split; [lia | done]. }
  destruct (forward_positions_data_shape h sd sdd vocab tokens n n Hsd Hshape Htok)
    as [_ Eld]; [done|].
  unfold forward_loss. fold n. unfold ld. rewrite <- Eld.
  eapply wp_bind; [by eapply forward_positions_spec|].
  intros [[losses ks] vs] h1 Hp1 (Hsd1 & Hl & _ & _). cbn [fst snd] in *.
  eapply wp_bind; [apply sum_values_spec; exact Hl|].
  intros s h2 Hp2 Hs. cbv beta in Hs. advance Hp2.
  eapply wp_bind; [apply (div_spec h2 s (ONumber (INR n))); [exact Hs | reflexivity]|].
  intros loss h3 Hp3 Hloss. cbv beta in Hloss. advance Hp3.
  apply wp_ret. by split.
Qed.




Lemma target_prob_unit h sd sdd vocab tokens n p :
  sd_rel h sd sdd → sd_shape vocab sd → tokens_ok vocab tokens n → p < n →
  (0 < target_prob sdd tokens p <= 1)%R.
Proof.
  intros Hsd Hshape Htok Hp.
  destruct (forward_positions_data_shape h sd sdd vocab tokens n p Hsd Hshape Htok)
    as [Hok _]; [lia|].
  destruct (tokens_ok_lookup _ _ _ p Htok) as (tok & Gtok & Itok); [lia|].
  destruct (tokens_ok_lookup _ _ _ (p + 1) Htok) as (tgt & Gtgt & Itgt); [lia|].
  assert (p < BLOCK_SIZE) as Hblock by (destruct Htok as (_ & ? & _); lia).
  destruct (gpt_data_shape h sd sdd vocab tok p _ _ Hsd Hshape Itok Hblock Hok)
    as [Llogits _].
  unfold target_prob, logits_at. rewrite Gtok, Gtgt. simpl (default _ (Some _)).
  set (probs := softmax_data _).
  assert (length probs = vocab) as Hlen by (unfold probs; by rewrite softmax_data_length).
  unfold at_Z. unfold in_vocab in Itgt. rewrite decide_True by lia.
  destruct (lookup_lt_is_Some_2 probs (Z.to_nat tgt)) as [q Hq]; [lia|].
  rewrite Hq. simpl.
  pose proof (softmax_data_unit
    (gpt_data sdd tok p (forward_positions_data sdd tokens p).1.2
       (forward_positions_data sdd tokens p).2).1.1) as Hall.
  rewrite Forall_lookup in Hall. by eapply Hall.
Qed.

(** X27.  The loss of every position is non-negative, and so is the
    average on which the step calls [backward]. *)
Theorem cross_entropy_nonneg (h : Heap) (sd : StateDict) (sdd : StateDictD)
    (vocab : nat) (tokens : list Z) :
  sd_rel h sd sdd → sd_shape vocab sd →
  2 ≤ length tokens → Forall (in_vocab vocab) tokens →
  ∃ losses loss h' ld d,
    forward_loss sd tokens h = Some ((losses, loss), h') ∧
    datas h' losses ld ∧ Forall (λ l, (0 <= l)%R) ld ∧
    data_of h' loss = Some d ∧ (0 <= d)%R.
Proof.
  intros Hsd Hshape Hlen Hall.
  set (n := Nat.min BLOCK_SIZE (length tokens - 1)).
  assert (tokens_ok vocab tokens n) as Htok.
  { unfold tokens_ok, n. split; [lia|]. split; [lia | done]. }
  destruct (forward_loss_spec h sd sdd vocab tokens Hsd Hshape Hlen Hall)
    as ([losses loss] & h' & Hrun & _ & _ & Hl & Hloss).
  cbn [fst snd] in *. fold n in Hl, Hloss.
  set (ld := (λ q, (ln (target_prob sdd tokens q) * -1)%R) <$> seq 0 n) in *.
  assert (Forall (λ l, (0 <= l)%R) ld) as Hnn.
  { unfold ld. apply Forall_fmap, Forall_forall. intros q Hq. simpl.
    apply elem_of_seq in Hq.
    destruct (target_prob_unit h sd sdd vocab tokens n q Hsd Hshape Htok) as [H0 H1]; [lia|].
    assert (ln (target_prob sdd tokens q) <= 0)%R; [|lra].
    rewrite <- ln_1. destruct (Req_dec_T (target_prob sdd tokens q) 1) as [->|Hne]; [lra|].
    apply Rlt_le, ln_increasing; lra. }
  exists losses, loss, h', ld, (sum_data ld * js_pow (INR n) (-1))%R.
  repeat (split; [done|]).
  rewrite js_pow_inverse, sum_data_Rsum. apply Rmult_le_pos; [by apply Rsum_nonneg|].
  apply Rlt_le, Rinv_0_lt_compat, lt_0_INR. unfold n, BLOCK_SIZE. lia.
Qed.

End training_total.

(** ** The loss of a uniform model *)

Section uniform_loss.

Lemma dot_data_zero_row (w x : list R) :
  Forall (λ a, a = 0%R) w → dot_data w x = 0%R.
Proof.
  intros Hw. rewrite dot_data_Rsum. apply Rsum_zero. intros [a b] Hin. simpl.
  apply elem_of_zip_l in Hin. rewrite Forall_forall in Hw.
  rewrite (Hw a Hin). lra.
Qed.

Lemma linear_data_zero (x : list R) (w : list (list R)) :
  Forall (Forall (λ a, a = 0%R)) w → linear_data x w = replicate (length w) 0%R.
Proof.
  intros Hw. unfold linear_data. induction Hw as [|row w Hrow Hw IH]; [done|].
  rewrite fmap_cons, IH, dot_data_zero_row by done. done.
Qed.

Lemma Rsum_replicate (n : nat) (c : R) : Rsum (replicate n c) = (INR n * c)%R.
Proof.
  induction n as [|n IH]; [unfold Rsum; simpl; lra|].
  change (replicate (S n) c) with (c :: replicate n c).
  rewrite Rsum_cons, IH, S_INR. lra.
Qed.

Lemma softmax_data_uniform (n : nat) (c : R) :
  softmax_data (replicate n c) = replicate n (/ INR n)%R.
Proof.
  destruct n as [|n]; [done|].
  destruct (softmax_data_closed (replicate (S n) c)) as (m & He & Hq); [done|].
  rewrite Hq, He, sum_data_Rsum, !fmap_replicate, Rsum_replicate.
  f_equal. pose proof (exp_pos (c + m * -1)) as Hpos.
  pose proof (lt_0_INR (S n) ltac:(lia)) as Hn.
  field. split; lra.
Qed.

Lemma gpt_data_zero_head h sd sdd vocab tok pos kd vd :
  sd_rel h sd sdd → sd_shape vocab sd → in_vocab vocab tok → pos < BLOCK_SIZE →
  cache_ok kd vd →
  Forall (Forall (λ a, a = 0%R)) (mat sdd "lm_head") →
  (gpt_data sdd tok pos kd vd).1.1 = replicate vocab 0%R.
Proof.
  intros Hsd Hshape Htok Hpos Hok Hzero.
  destruct (gpt_data_shape h sd sdd vocab tok pos kd vd Hsd Hshape Htok Hpos Hok)
    as [Hlen _].
  revert Hlen. unfold gpt_data. cbv zeta. cbn [fst snd].
  rewrite linear_data_zero by done. rewrite length_replicate. by intros ->.
Qed.

Lemma target_prob_zero_head h sd sdd vocab tokens n p :
  sd_rel h sd sdd → sd_shape vocab sd → tokens_ok vocab tokens n → p < n →
  Forall (Forall (λ a, a = 0%R)) (mat sdd "lm_head") →
  target_prob sdd tokens p = (/ INR vocab)%R.
Proof.
  intros Hsd Hshape Htok Hp Hzero.
  destruct (forward_positions_data_shape h sd sdd vocab tokens n p Hsd Hshape Htok)
    as [Hok _]; [lia|].
  destruct (tokens_ok_lookup _ _ _ p Htok) as (tok & Gtok & Itok); [lia|].
  destruct (tokens_ok_lookup _ _ _ (p + 1) Htok) as (tgt & Gtgt & Itgt); [lia|].
  assert (p < BLOCK_SIZE) as Hblock by (destruct Htok as (_ & ? & _); lia).
  unfold target_prob, logits_at. rewrite Gtok, Gtgt. simpl (default _ (Some _)).
  rewrite (gpt_data_zero_head h sd sdd vocab tok p) by done.
  rewrite softmax_data_uniform. unfold at_Z. unfold in_vocab in Itgt.
  rewrite decide_True by lia. by rewrite lookup_replicate_2 by lia.
Qed.

(** X28.  With a zero output matrix [lm_head] all logits are 0 and the
    model is uniform: the loss of every position is [ln vocab], and so is
    the average on which the step calls [backward]. *)
Theorem zero_head_loss_is_ln_vocab (h : Heap) (sd : StateDict) (sdd : StateDictD)
    (vocab : nat) (tokens : list Z) :
  sd_rel h sd sdd → sd_shape vocab sd →
  2 ≤ length tokens → Forall (in_vocab vocab) tokens →
  Forall (Forall (λ a, a = 0%R)) (mat sdd "lm_head") →
  ∃ losses loss h',
    forward_loss sd tokens h = Some ((losses, loss), h') ∧
    datas h' losses
      (replicate (Nat.min BLOCK_SIZE (length tokens - 1)) (ln (INR vocab))) ∧
    data_of h' loss = Some (ln (INR vocab)).
Proof.
  intros Hsd Hshape Hlen Hall Hzero.
  set (n := Nat.min BLOCK_SIZE (length tokens - 1)).
  assert (0 < n) as Hn by (unfold n, BLOCK_SIZE; lia).
  assert (tokens_ok vocab tokens n) as Htok.
  { unfold tokens_ok, n. split; [lia|]. split; [lia | done]. }
  assert (0 < vocab) as Hvocab.
  { destruct tokens as [|t ts]; [simpl in Hlen; lia|].
    apply Forall_cons in Hall as [Ht _]. unfold in_vocab in Ht. lia. }
  destruct (forward_loss_spec h sd sdd vocab tokens Hsd Hshape Hlen Hall)
    as ([losses loss] & h' & Hrun & _ & _ & Hl & Hloss).
  cbn [fst snd] in *. fold n in Hl, Hloss.
  assert ((λ q, (ln (target_prob sdd tokens q) * -1)%R) <$> seq 0 n
          = replicate n (ln (INR vocab))) as Eld.
  { apply list_eq. intros i. rewrite list_lookup_fmap.
    destruct (decide (i < n)) as [Hi|Hi].
    - rewrite lookup_seq_lt by done. rewrite lookup_replicate_2 by done. simpl.
      rewrite (target_prob_zero_head h sd sdd vocab tokens n) by done.
      rewrite ln_Rinv by (by apply lt_0_INR). f_equal. lra.
    - rewrite lookup_seq_ge by lia. symmetry. apply lookup_replicate_None. lia. }
  rewrite Eld in Hl, Hloss.
  exists losses, loss, h'. split; [done|]. split; [done|].
  rewrite Hloss. f_equal. rewrite js_pow_inverse, sum_data_Rsum, Rsum_replicate.
  field. apply not_0_INR. lia.
Qed.

End uniform_loss.

(** ** Inference runs to completion *)

Section inference_total.

Lemma sample_loop_spec sd sdd vocab bos (rnd : nat → R) (poss : list nat) :
  ∀ tokenId keys values sample h kd vd,
  sd_rel h sd sdd → sd_shape vocab sd → in_vocab vocab tokenId →
  Forall (λ p, p < BLOCK_SIZE) poss →
  cache_rel h keys kd → cache_rel h values vd → cache_ok kd vd →
  Forall (λ t, in_vocab vocab t ∧ t ≠ bos) sample →
  wp (sample_loop sd bos rnd poss tokenId keys values sample) h
     (λ r h', Forall (λ t, in_vocab vocab t ∧ t ≠ bos) r.1.1 ∧
              length r.1.1 ≤ length sample + length poss).
Proof.
  induction poss as [|pos poss IH];
    intros tokenId keys values sample h kd vd Hsd Hshape Htok Hposs Hk Hv Hok Hsample.
  - simpl. apply wp_ret. simpl. split; [done | lia].
  - apply Forall_cons in Hposs as [Hpos Hposs]. cbn [sample_loop].
    destruct (gpt_data_shape h sd sdd vocab tokenId pos kd vd Hsd Hshape Htok Hpos Hok)
      as [Llogits Hok'].
    eapply wp_bind; [by eapply (gpt_spec h sd sdd vocab tokenId pos keys values kd vd)|].
    intros [[logits ks'] vs'] h1 Hp1 (Hlogits & Hks' & Hvs'). cbn [fst snd] in *.
    advance Hp1.
    set (g := gpt_data sdd tokenId pos kd vd) in *.
    eapply wp_bind.
    { apply (wp_mapM_rel _ (λ d, d * js_pow TEMPERATURE (-1))%R
               (λ h v d, data_of h v = Some d) (λ h v d, data_of h v = Some d));
        [apply stable_data_of | apply stable_data_of | exact Hlogits |].
      intros l d h2 _ Hl. by apply (div_spec h2 l (ONumber TEMPERATURE)). }
    intros scaled h2 Hp2 Hscaled. cbv beta in Hscaled. advance Hp2.
    eapply wp_bind; [apply softmax_spec; exact Hscaled|].
    intros probs h3 Hp3 Hprobs. cbv beta in Hprobs. advance Hp3.
    eapply wp_bind; [apply get_datas_spec; exact Hprobs|].
    intros ws h4 _ [-> ->]. cbv zeta.
    set (ws := softmax_data ((λ d, d * js_pow TEMPERATURE (-1))%R <$> g.1.1)).
    assert (in_vocab vocab (weightedChoice ws (rnd pos))) as Hnext.
    { assert (length ws = vocab) as Hlen.
      { unfold ws. by rewrite softmax_data_length, length_fmap. }
      unfold in_vocab in *. rewrite <- Hlen. apply weightedChoice_range.
      intros E. rewrite E in Hlen. simpl in Hlen. lia. }
    destruct (decide (weightedChoice ws (rnd pos) = bos)) as [Hbos|Hne].
    + apply wp_ret. simpl. split; [done | lia].
    + eapply wp_consequence.
      { eapply (IH _ ks' vs' _ h3 g.1.2 g.2); try done.
        apply Forall_app. split; [done|]. by apply Forall_singleton. }
      intros r h5 _ [Hr Hlen]. split; [done|].
      rewrite length_app in Hlen. simpl in *. lia.
Qed.

(** X29.  Inference returns its 20 samples without throwing, whatever the
    numbers drawn; a sample has at most BLOCK_SIZE tokens, and every token
    of a sample is the id of a character of the vocabulary, so that
    [uchars[tokenId]] is defined. *)
Theorem inference_samples_valid
    (sd : StateDict) (sdd : StateDictD) (uchars : list ascii)
    (rnd : nat → nat → R) (h : Heap) :
  sd_rel h sd sdd → sd_shape (vocabSize uchars) sd →
  ∃ samples h',
    inference sd uchars rnd h = Some (samples, h') ∧
    length samples = 20 ∧
    Forall (λ sample,
              length sample ≤ BLOCK_SIZE ∧
              Forall (λ t, ∃ ch, at_Z uchars t = Some ch) sample) samples.
Proof.
  intros Hsd Hshape.
  assert (wp (inference sd uchars rnd) h
            (λ samples h', Forall2 (λ (_ : nat) sample,
               length sample ≤ BLOCK_SIZE ∧
               Forall (λ t, ∃ ch, at_Z uchars t = Some ch) sample)
               (seq 0 20) samples)) as (samples & h' & Hrun & _ & _ & Hall).
  { unfold inference.
    apply (wp_mapM _ (λ _ sample _,
             length sample ≤ BLOCK_SIZE ∧
             Forall (λ t, ∃ ch, at_Z uchars t = Some ch) sample)).
    { done. }
    intros s h1 _ Hp1. advance Hp1.
    eapply wp_bind.
    { unfold generate.
      apply (sample_loop_spec sd sdd (vocabSize uchars) (Z.of_nat (BOS uchars)) (rnd s)
               (seq 0 BLOCK_SIZE) _ _ _ [] h1 fresh_cache_data fresh_cache_data);
        try done.
      - unfold in_vocab, vocabSize, BOS. lia.
      - apply Forall_forall. intros p Hp. apply elem_of_seq in Hp. lia.
      - apply cache_rel_fresh.
      - apply cache_rel_fresh.
      - apply cache_ok_fresh. }
    intros [[sample ks] vs] h2 _ [Hvalid Hlen]. cbn [fst snd] in *.
    apply wp_ret. rewrite length_seq in Hlen. simpl in Hlen. split; [done|].
    eapply Forall_impl; [exact Hvalid|]. intros t [[H0 H1] Hne]. simpl in *.
    unfold vocabSize, BOS in *.
    destruct (lookup_lt_is_Some_2 uchars (Z.to_nat t)) as [ch Hch]; [lia|].
    exists ch. unfold at_Z. by rewrite decide_True. }
  exists samples, h'. split; [done|]. split.
  - rewrite <- (Forall2_length _ _ _ Hall). apply length_seq.
  - by eapply Forall2_right.
Qed.

End inference_total.

(** ** The statements above at concrete inputs *)

Section witnesses.

Lemma wf_heap_leaf d g : wf_heap [mkValue d g [] []].
Proof.
  intros i nd Hi. apply list_lookup_singleton_Some in Hi as [_ <-].
  split; [constructor | done].
Qed.

Lemma mul_self_backward_witness :
  ∃ y h1 h2,
    mul 0 (OValue 0) [mkValue 3 0 [] []] = Some (y, h1) ∧
    backward 2 y h1 = Some h2 ∧
    grad_of h2 0 = Some (2 * 3)%R.
Proof.
  apply (mul_self_backward [mkValue 3 0 [] []] 0 (mkValue 3 0 [] []) 2);
    [apply wf_heap_leaf | reflexivity | reflexivity | simpl; lia].
Defined.

Lemma backward_mutates_only_grad_witness :
  ∃ h', backward 1 0 [mkValue 3 0 [] []] = Some h' ∧
        length h' = 1 ∧
        ∀ i nd, [mkValue 3 0 [] []] !! i = Some nd →
          ∃ nd', h' !! i = Some nd' ∧
                 data nd' = data nd ∧
                 children nd' = children nd ∧
                 localGrads nd' = localGrads nd.
Proof.
  apply (backward_mutates_only_grad [mkValue 3 0 [] []] 0 1);
    [apply wf_heap_leaf | simpl; lia | lia].
Defined.

Lemma relu_nonpositive_witness :
  ∃ y h1 h2,
    relu 0 [mkValue 0 5 [] []] = Some (y, h1) ∧
    h1 !! y = Some (mkValue 0 0 [0] [0%R]) ∧
    backward 2 y h1 = Some h2 ∧
    grad_of h2 0 = Some 5%R.
Proof.
  apply (relu_nonpositive [mkValue 0 5 [] []] 0 (mkValue 0 5 [] []) 2);
    [apply wf_heap_leaf | reflexivity | simpl; lra | simpl; lia].
Defined.

Lemma softmax_is_distribution_witness :
  ∃ ps h' qs,
    softmax [0; 1] [mkValue 1 0 [] []; mkValue 2 0 [] []] = Some (ps, h') ∧
    length ps = 2 ∧
    datas h' ps qs ∧
    Forall (λ q, (0 <= q)%R) qs ∧
    Rsum qs = 1%R.
Proof.
  apply (softmax_is_distribution [mkValue 1 0 [] []; mkValue 2 0 [] []] [0; 1]
           [1%R; 2%R]); [done | by repeat constructor].
Defined.

Lemma softmax_shift_invariant_witness :
  ∃ ps1 h1' ps2 h2' qs,
    softmax [0; 1] [mkValue 1 0 [] []; mkValue 2 0 [] []] = Some (ps1, h1') ∧
    softmax [0; 1] [mkValue (1 + 3) 0 [] []; mkValue (2 + 3) 0 [] []] = Some (ps2, h2') ∧
    datas h1' ps1 qs ∧
    datas h2' ps2 qs.
Proof.
  apply (softmax_shift_invariant
           [mkValue 1 0 [] []; mkValue 2 0 [] []]
           [mkValue (1 + 3) 0 [] []; mkValue (2 + 3) 0 [] []]
           [0; 1] [0; 1] [1%R; 2%R] 3%R); by repeat constructor.
Defined.

Lemma adam_rate_and_bias_correction_witness :
  seq 0 NUM_STEPS !! 0 = Some 0 ∧ (0 < LEARNING_RATE * (1 - (INR 1 - 1) / INR NUM_STEPS))%R.
Proof.
  destruct (adam_rate_and_bias_correction 1 [mkValue 1 2 [] []] [0%R] [0%R] 0 0
              (mkValue 1 2 [] []) 0%R 0%R) as (H1 & _ & H3 & _);
    [unfold NUM_STEPS; lia | reflexivity | reflexivity | reflexivity |].
  split; [exact H1 | exact H3].
Defined.

Lemma kv_cache_growth_witness :
  ∃ r h',
    gpt example_sd 1 0 fresh_cache fresh_cache (example_heap 0) = Some (r, h') ∧
    Forall2 (λ l l', ∃ k, l' = l ++ [k]) fresh_cache r.1.2 ∧
    Forall2 (λ l l', ∃ v, l' = l ++ [v]) fresh_cache r.2.
Proof.
  destruct (gpt_spec (example_heap 0) example_sd (const_view 0 example_sd) 2 1 0
              fresh_cache fresh_cache fresh_cache_data fresh_cache_data)
    as (r & h' & Hrun & _);
    [apply example_sd_rel | apply example_sd_shape | lia | unfold BLOCK_SIZE; lia
    | apply cache_rel_fresh | apply cache_rel_fresh | apply cache_ok_fresh |].
  exists r, h'. split; [exact Hrun|].
  apply (proj1 (proj2 (kv_cache_growth example_sd)) 1%Z 0 fresh_cache fresh_cache
           (example_heap 0) r h'); [reflexivity | reflexivity | exact Hrun].
Defined.

Lemma training_loss_witness :
  ∃ losses loss h',
    forward_loss example_sd (tokenize (uchars_of ["a"%string]) "a") (example_heap 0)
      = Some ((losses, loss), h') ∧
    length losses = 2.
Proof.
  assert ("a"%string ∈ ["a"%string]) as Hdoc by (by apply list_elem_of_singleton).
  destruct (tokenize_in_vocab ["a"%string] "a" Hdoc) as [Hlen Hall].
  destruct (training_loss (example_heap 0) example_sd (const_view 0 example_sd)
              (vocabSize (uchars_of ["a"%string]))
              (tokenize (uchars_of ["a"%string]) "a"))
    as (losses & loss & h' & ld & Hrun & Hlosses & _);
    [apply example_sd_rel | exact example_sd_shape | exact Hlen | exact Hall |].
  exists losses, loss, h'. split; [exact Hrun | exact Hlosses].
Defined.

Lemma causal_masking_witness :
  ∃ obs1 h1' obs2 h2',
    feed example_sd [1; 0; 1]%Z (example_heap 0) = Some (obs1, h1') ∧
    feed example_sd [1; 0; 0]%Z (example_heap 0) = Some (obs2, h2') ∧
    length obs1 = 3 ∧ length obs2 = 3 ∧
    ∀ q, q < 2 → obs1 !! q = obs2 !! q.
Proof.
  apply (causal_masking (example_heap 0) (example_heap 0) example_sd
           (const_view 0 example_sd) 2 [1; 0; 1]%Z [1; 0; 0]%Z 2);
    [apply example_sd_rel | apply example_sd_rel | apply example_sd_shape
    | repeat constructor; unfold in_vocab; lia
    | repeat constructor; unfold in_vocab; lia
    | reflexivity | unfold BLOCK_SIZE; simpl; lia |].
  intros [|[|[|i]]] Hi; (done || lia).
Defined.

Lemma example_graph_wf : wf_heap example_graph.
Proof.
  intros i nd Hi. unfold example_graph in Hi.
  destruct i as [|[|[|[|i]]]]; simpl in Hi; simplify_eq; split; simpl;
    repeat constructor.
Qed.

Lemma wf_heap_leaves h :
  Forall (λ nd, children nd = [] ∧ localGrads nd = []) h → wf_heap h.
Proof.
  intros Hl i nd Hi. rewrite Forall_lookup in Hl.
  destruct (Hl i nd Hi) as [Hc Hg]. split; [rewrite Hc; constructor | by rewrite Hc, Hg].
Qed.


Lemma buildTopo_topological_order_witness :
  ∃ visited topo,
    buildTopo 4 example_graph 3 (∅, []) = Some (visited, topo) ∧
    NoDup topo ∧ last topo = Some 3.
Proof.
  destruct (buildTopo_topological_order example_graph 3 4)
    as (visited & topo & Hrun & Hnd & Hlast & _);
    [apply example_graph_wf | simpl; lia | lia |].
  exists visited, topo. split; [exact Hrun|]. split; [exact Hnd | exact Hlast].
Defined.

Lemma backward_chain_rule_witness :
  ∃ h', backward 4 3 example_graph = Some h' ∧ grad_of h' 3 = Some 1%R.
Proof.
  destruct (backward_chain_rule example_graph 3 4)
    as (h' & nodes & Hrun & _ & _ & Hroot & _);
    [apply example_graph_wf | simpl; lia | lia |].
  exists h'. split; [exact Hrun | exact Hroot].
Defined.

Lemma backward_leaves_unreachable_witness :
  ∃ h', backward 3 2 example_graph = Some h' ∧ h' !! 3 = example_graph !! 3.
Proof.
  apply (backward_leaves_unreachable example_graph 2 3 3);
    [apply example_graph_wf | simpl; lia | lia |].
  intros Hr. apply (reach_le _ _ _ example_graph_wf) in Hr. lia.
Defined.

Lemma div_backward_quotient_rule_witness :
  ∃ y h1 h2,
    div 0 (OValue 1) [mkValue 6 0 [] []; mkValue 3 0 [] []] = Some (y, h1) ∧
    data_of h1 y = Some (6 / 3)%R ∧
    backward 4 y h1 = Some h2 ∧
    grad_of h2 0 = Some (0 + 1 / 3)%R ∧
    grad_of h2 1 = Some (0 - 6 / 3 ^ 2)%R.
Proof.
  apply (div_backward_quotient_rule [mkValue 6 0 [] []; mkValue 3 0 [] []] 0 1
           (mkValue 6 0 [] []) (mkValue 3 0 [] []) 4);
    [apply wf_heap_leaves; by repeat constructor
    | reflexivity | reflexivity | lia | reflexivity | reflexivity
    | simpl; lra | simpl; lia].
Defined.

Lemma relu_positive_witness :
  ∃ y h1 h2,
    relu 0 [mkValue 2 5 [] []] = Some (y, h1) ∧
    h1 !! y = Some (mkValue 2 0 [0] [1%R]) ∧
    backward 2 y h1 = Some h2 ∧
    grad_of h2 0 = Some (5 + 1)%R.
Proof.
  apply (relu_positive [mkValue 2 5 [] []] 0 (mkValue 2 5 [] []) 2);
    [apply wf_heap_leaf | reflexivity | simpl; lra | simpl; lia].
Defined.

Lemma neg_log_backward_witness :
  ∃ y h1 h2,
    (l ← log 0; neg l) [mkValue 2 5 [] []] = Some (y, h1) ∧
    data_of h1 y = Some (ln 2 * -1)%R ∧
    backward 4 y h1 = Some h2 ∧
    grad_of h2 0 = Some (5 - 1 / 2)%R.
Proof.
  apply (neg_log_backward [mkValue 2 5 [] []] 0 (mkValue 2 5 [] []) 4);
    [apply wf_heap_leaf | reflexivity | simpl; lra | simpl; lia].
Defined.

Lemma gaussRandom_within_seven_std_witness :
  ∃ x, gaussRandom 0 0.08 (mulberry32 42)
         = (Some x, (rand (rand (mulberry32 42)).2).2) ∧
       (Rabs (x - 0) <= 7 * Rabs 0.08)%R.
Proof.
  apply (gaussRandom_within_seven_std 0 0.08 (mulberry32 42)).
  vm_compute. discriminate.
Defined.

Lemma weightedChoice_inverse_cdf_witness :
  ∃ i w, weightedChoice [1%R; 3%R] 0.5 = Z.of_nat i ∧
         [1%R; 3%R] !! i = Some w ∧ (0 < w)%R ∧
         (Rsum (take i [1%R; 3%R]) < 0.5 * Rsum [1%R; 3%R]
            <= Rsum (take (S i) [1%R; 3%R]))%R.
Proof.
  apply (weightedChoice_inverse_cdf [1%R; 3%R] 0.5);
    [lra | unfold Rsum; simpl; lra].
Defined.

Lemma linear_matrix_vector_witness :
  ∃ y h',
    linear [0] [[1]] [mkValue 2 0 [] []; mkValue 3 0 [] []] = Some (y, h') ∧
    length y = 1 ∧
    datas h' y ((λ row, Rsum ((λ p, p.1 * p.2)%R <$> zip row [2%R])) <$> [[3%R]]).
Proof.
  apply (linear_matrix_vector [mkValue 2 0 [] []; mkValue 3 0 [] []] [0] [[1]]
           [2%R] [[3%R]]); by repeat constructor.
Defined.



Lemma attn_head_single_position_witness :
  ∃ out h',
    attn_head [] [[]] [[0; 1; 2; 3]] 0 (replicate 4 (mkValue 7 0 [] []))
      = Some (out, h') ∧
    datas h' out (slice (replicate 4 7%R) (0 * HEAD_DIM) (0 * HEAD_DIM + HEAD_DIM)).
Proof.
  apply (attn_head_single_position (replicate 4 (mkValue 7 0 [] [])) [] []
           [0; 1; 2; 3] [] [] (replicate 4 7%R) 0);
    [constructor | constructor | by repeat constructor | simpl; lia
    | vm_compute; lia].
Defined.

Lemma gpt_defined_iff_in_range_witness :
  ∃ r h',
    gpt example_sd 1 0 fresh_cache fresh_cache (example_heap 0) = Some (r, h') ∧
    length r.1.1 = 2.
Proof.
  apply (proj1 (gpt_defined_iff_in_range (example_heap 0) example_sd
                  (const_view 0 example_sd) 2 1 0 fresh_cache fresh_cache
                  fresh_cache_data fresh_cache_data
                  (example_sd_rel 0) example_sd_shape
                  (cache_rel_fresh _) (cache_rel_fresh _) cache_ok_fresh)).
  split; [unfold in_vocab; lia | unfold BLOCK_SIZE; lia].
Defined.

Lemma sd_rel_view h sd : refs_below (length h) sd → sd_rel h sd (heap_view h sd).
Proof.
  intros Hsd. unfold sd_rel, heap_view. apply Forall2_fmap_r.
  apply Forall_Forall2_diag. eapply Forall_impl; [exact Hsd|].
  intros [k w] Hw. simpl in *. split; [done|].
  unfold mat_rel. apply Forall2_fmap_r. apply Forall_Forall2_diag.
  eapply Forall_impl; [exact Hw|]. intros row Hrow. simpl in *.
  unfold datas. apply Forall2_fmap_r. apply Forall_Forall2_diag.
  eapply Forall_impl; [exact Hrow|]. intros v Hv. simpl in *.
  destruct (lookup_lt_is_Some_2 h v Hv) as [nd Hnd].
  unfold data_of. by rewrite Hnd.
Qed.

Lemma heap_view_ext (P : nat → Prop) (Q : string → Prop) h1 h2 (sd : StateDict) name :
  (∀ v, P v → data_of h1 v = data_of h2 v) →
  Forall (λ kv : string * Matrix, Q kv.1 → Forall (Forall P) kv.2) sd → Q name →
  mat (heap_view h1 sd) name = mat (heap_view h2 sd) name.
Proof.
  intros Hsame Hall Hname. unfold mat, heap_view.
  induction sd as [|[k w] sd IH]; [done|].
  apply Forall_cons in Hall as [Hk Hall]. rewrite !fmap_cons. cbn [sd_get fst snd].
  destruct (decide (k = name)) as [->|_]; [|by apply IH].
  simpl. specialize (Hk Hname). simpl in Hk.
  apply list_fmap_ext. intros i row Hrow. rewrite Forall_lookup in Hk.
  specialize (Hk i row Hrow). apply list_fmap_ext. intros j v Hv.
  rewrite Forall_lookup in Hk. specialize (Hk j v Hv). simpl. by rewrite Hsame.
Qed.

Lemma matrix_at_outside base nout nin lo hi top :
  base + nout * nin ≤ lo ∨ hi ≤ base → base + nout * nin ≤ top →
  Forall (Forall (λ v, v < lo ∨ hi ≤ v < top)) (matrix_at base nout nin).
Proof.
  intros Hout Htop. unfold matrix_at. apply Forall_fmap, Forall_seq. intros i Hi.
  simpl. apply Forall_seq. intros v Hv. nia.
Qed.

Lemma example_heap_qk_lookup v :
  v < 320 ∨ 832 ≤ v < 3392 →
  data_of (example_heap 0) v = data_of example_heap_qk v.
Proof.
  intros Hv. unfold data_of, example_heap_qk, example_heap.
  rewrite (lookup_replicate_2 3392) by lia.
  destruct Hv as [Hv|Hv].
  - rewrite lookup_app_l by (rewrite length_replicate; lia).
    by rewrite lookup_replicate_2 by lia.
  - rewrite lookup_app_r by (rewrite length_replicate; lia).
    rewrite lookup_app_r by (rewrite !length_replicate; lia).
    rewrite !length_replicate. by rewrite lookup_replicate_2 by lia.
Qed.

Lemma example_sd_outside :
  Forall (λ kv : string * Matrix,
            kv.1 ≠ layer_key 0 "attn_wq" ∧ kv.1 ≠ layer_key 0 "attn_wk" →
            Forall (Forall (λ v, v < 320 ∨ 832 ≤ v < 3392)) kv.2) example_sd.
Proof.
  unfold example_sd.
  repeat (apply Forall_cons; split;
          [cbn [fst snd]; intros [Hq Hk];
           first [ apply matrix_at_outside;
                   apply (bool_decide_unpack _); vm_compute; reflexivity
                 | exfalso; apply Hq; vm_compute; reflexivity
                 | exfalso; apply Hk; vm_compute; reflexivity ]|]).
  constructor.
Qed.

Lemma example_heap_qk_same name :
  name ≠ layer_key 0 "attn_wq" → name ≠ layer_key 0 "attn_wk" →
  mat (heap_view (example_heap 0) example_sd) name =
  mat (heap_view example_heap_qk example_sd) name.
Proof.
  intros Hq Hk.
  apply (heap_view_ext (λ v, v < 320 ∨ 832 ≤ v < 3392)
           (λ k, k ≠ layer_key 0 "attn_wq" ∧ k ≠ layer_key 0 "attn_wk"));
    [exact example_heap_qk_lookup | exact example_sd_outside | done].
Qed.

Lemma example_heap_qk_refs : refs_below (length example_heap_qk) example_sd.
Proof. apply example_sd_refs. Qed.

Lemma first_position_ignores_query_key_witness :
  ∃ r1 h1' r2 h2' logits,
    gpt example_sd 1 0 fresh_cache fresh_cache (example_heap 0) = Some (r1, h1') ∧
    gpt example_sd 1 0 fresh_cache fresh_cache example_heap_qk = Some (r2, h2') ∧
    datas h1' r1.1.1 logits ∧ datas h2' r2.1.1 logits.
Proof.
  apply (first_position_ignores_query_key (example_heap 0) example_heap_qk example_sd
           (heap_view (example_heap 0) example_sd)
           (heap_view example_heap_qk example_sd) 2 1 0);
    [apply sd_rel_view, example_sd_refs | apply sd_rel_view, example_heap_qk_refs
    | exact example_sd_shape | exact example_heap_qk_same
    | unfold in_vocab; lia | unfold BLOCK_SIZE; lia].
Defined.

Lemma cross_entropy_nonneg_witness :
  ∃ losses loss h' ld d,
    forward_loss example_sd (tokenize (uchars_of ["a"%string]) "a") (example_heap 0)
      = Some ((losses, loss), h') ∧
    datas h' losses ld ∧ Forall (λ l, (0 <= l)%R) ld ∧
    data_of h' loss = Some d ∧ (0 <= d)%R.
Proof.
  assert ("a"%string ∈ ["a"%string]) as Hdoc by (by apply list_elem_of_singleton).
  destruct (tokenize_in_vocab ["a"%string] "a" Hdoc) as [Hlen Hall].
  apply (cross_entropy_nonneg (example_heap 0) example_sd (const_view 0 example_sd)
           (vocabSize (uchars_of ["a"%string])));
    [apply example_sd_rel | exact example_sd_shape | exact Hlen | exact Hall].
Defined.

Lemma const_view_mat (c : R) (sd : StateDict) (name : string) :
  Forall (Forall (λ a, a = c)) (mat (const_view c sd) name).
Proof.
  unfold mat, const_view. induction sd as [|[k w] sd IH]; [constructor|].
  rewrite fmap_cons. cbn [sd_get fst snd].
  destruct (decide (k = name)) as [_|_]; [|exact IH].
  simpl. apply Forall_fmap, Forall_forall. intros row _. simpl.
  apply Forall_fmap, Forall_forall. by intros v _.
Qed.

Lemma zero_head_loss_is_ln_vocab_witness :
  ∃ losses loss h',
    forward_loss example_sd (tokenize (uchars_of ["a"%string]) "a") (example_heap 0)
      = Some ((losses, loss), h') ∧
    datas h' losses
      (replicate (Nat.min BLOCK_SIZE
                    (length (tokenize (uchars_of ["a"%string]) "a") - 1))
                 (ln (INR (vocabSize (uchars_of ["a"%string]))))) ∧
    data_of h' loss = Some (ln (INR (vocabSize (uchars_of ["a"%string])))).
Proof.
  assert ("a"%string ∈ ["a"%string]) as Hdoc by (by apply list_elem_of_singleton).
  destruct (tokenize_in_vocab ["a"%string] "a" Hdoc) as [Hlen Hall].
  apply (zero_head_loss_is_ln_vocab (example_heap 0) example_sd
           (const_view 0 example_sd) (vocabSize (uchars_of ["a"%string])));
    [apply example_sd_rel | exact example_sd_shape | exact Hlen | exact Hall
    | apply const_view_mat].
Defined.

Lemma adam_update_effect_witness :
  ∃ h' m' v',
    adam_update 0 [0] ([mkValue 1 2 [] []], ([0%R], [0%R])) = Some (h', (m', v')) ∧
    same_graph [mkValue 1 2 [] []] h'.
Proof.
  destruct (adam_update_effect 0 [0] [mkValue 1 2 [] []] [0%R] [0%R])
    as (h' & m' & v' & Hrun & Hsg & _);
    [apply NoDup_singleton | repeat constructor | simpl; lia | simpl; lia |].
  exists h', m', v'. split; [exact Hrun | exact Hsg].
Defined.



Lemma inference_samples_valid_witness :
  ∃ samples h',
    inference example_sd (uchars_of ["a"%string]) (λ _ _, 0%R) (example_heap 0)
      = Some (samples, h') ∧
    length samples = 20.
Proof.
  destruct (inference_samples_valid example_sd (const_view 0 example_sd)
              (uchars_of ["a"%string]) (λ _ _, 0%R) (example_heap 0))
    as (samples & h' & Hrun & Hlen & _);
    [apply example_sd_rel | exact example_sd_shape |].
  exists samples, h'. split; [exact Hrun | exact Hlen].
Defined.

End witnesses.
